(** * Nonogram solver: a shallow embedding of [Nonogram.py]

    The development follows the source file top to bottom: the line
    possibility generator ([generate_line_possibilities]), the domain
    construction ([_generate_domains], [__init__]), the constraint
    propagator ([_update_domains]) and the search controller ([solve]).
    The run-length encoder of [makenonogram.py] ([extract_clues]) is
    embedded as well, since the clues are re-derived with it.

    Python integers are [Z]; list lengths ([len], [range] bounds) are [nat].
    [None] cells are [None : option Z].  A Python [set] of tuples is a
    duplicate-free [list]; nothing below depends on the order of its
    elements.  An [IndexError] is the [None] of an [option] result.

    After the solver come the parts of the two programs around it: the
    strings of the puzzle file ([Text]), the rest of the puzzle creator
    ([trim_grid], [generate_clues], [save_clues_to_file],
    [display_puzzle_with_clues]), the reader of the solver ([read_puzzle])
    and its printer ([print_solution]). *)

From Stdlib Require Import Ascii.
From stdpp Require Import base numbers option list sorting strings pretty.

(** ** Python list primitives *)

Abbreviation line := (list Z).
Abbreviation domain := (list (list Z)).
Abbreviation cell := (option Z).

(** [sum(blocks)] *)
Definition sum (l : list Z) : Z := foldr Z.add 0%Z l.

(** [len(blocks)] as a Python integer *)
Definition len {A} (l : list A) : Z := Z.of_nat (length l).

(** Resolution of a Python subscript on a list of [n] elements: indices
    [0 .. n-1] address from the left, [-n .. -1] from the right, and
    everything else raises [IndexError]. *)
Definition py_index (n : nat) (idx : Z) : option nat :=
  if bool_decide (0 ≤ idx < Z.of_nat n)%Z then Some (Z.to_nat idx)
  else if bool_decide (- Z.of_nat n ≤ idx < 0)%Z then Some (Z.to_nat (Z.of_nat n + idx))
  else None.

(** [l[idx] = v] *)
Definition setitem (l : line) (idx : Z) (v : Z) : option line :=
  i ← py_index (length l) idx; Some (<[i:=v]> l).

(** ** Line possibility generator *)

Module Generator.

(** [for i in range(p[1]): line[p[0] + i] = 1], with [idx = p[0] + i] and
    [n] iterations left. *)
Fixpoint fill (l : line) (idx : Z) (n : nat) : option line :=
  match n with
  | O => Some l
  | S n' => l' ← setitem l idx 1%Z; fill l' (idx + 1)%Z n'
  end.

(** [for p in pos_list: ...] *)
Fixpoint paint (l : line) (pos_list : list (Z * Z)) : option line :=
  match pos_list with
  | [] => Some l
  | p :: ps => l' ← fill l (p.1) (Z.to_nat (p.2)); paint l' ps
  end.

(** The [while start <= max_start] loop of [generate_positions], with [n]
    iterations left; [ok start] is the [all(...)] test and [rec start] the
    recursive call made after [pos_list.append((start, block))]. *)
Fixpoint place_loop (ok : Z → bool) (rec : Z → option (list line))
    (n : nat) (start : Z) : option (list line) :=
  match n with
  | O => Some []
  | S n' =>
      if ok start then
        r ← rec start;
        rs ← place_loop ok rec n' (start + 1)%Z;
        Some (r ++ rs)
      else place_loop ok rec n' (start + 1)%Z
  end.

(** [generate_positions(pos, current_blocks)]; the shared [pos_list] is an
    explicit argument ([append] before the recursive call, [pop] after). *)
Fixpoint generate_positions (length : nat) (pos_list : list (Z * Z))
    (pos : Z) (current_blocks : list Z) : option (list line) :=
  match current_blocks with
  | [] => l ← paint (replicate length 0%Z) pos_list; Some [l]
  | block :: rest =>
      let max_start :=
        (Z.of_nat length - sum current_blocks - (len current_blocks - 1))%Z in
      place_loop
        (λ start, forallb (λ p, bool_decide (p.1 + p.2 ≤ start)%Z) pos_list)
        (λ start, generate_positions length (pos_list ++ [(start, block)])
                    (start + block + 1)%Z rest)
        (Z.to_nat (max_start - pos + 1)) pos
  end.

(** [generate_line_possibilities(blocks, length)]; [length] is
    [self.width] or [self.height], the [len] of a list. *)
Definition generate_line_possibilities (blocks : list Z) (length : nat)
    : option (list line) :=
  match blocks with
  | [] => Some [replicate length 0%Z]
  | _ =>
      let total_blocks := sum blocks in
      let total_gaps := (len blocks - 1)%Z in
      let remaining_space := (Z.of_nat length - (total_blocks + total_gaps))%Z in
      if bool_decide (remaining_space < 0)%Z then Some []
      else generate_positions length [] 0%Z blocks
  end.

(** [set(map(tuple, ...))] for every clue of [constraints]. *)
Definition _generate_domains (constraints : list (list Z)) (length : nat)
    : option (list domain) :=
  mapM (λ blocks, remove_dups <$> generate_line_possibilities blocks length)
       constraints.

End Generator.

(** ** Run-length encoding ([makenonogram.py]) *)

(** The loop of [extract_clues]: [count] is the length of the run of filled
    cells being read. *)
Fixpoint runs_from (count : Z) (l : line) : list Z :=
  match l with
  | [] => if bool_decide (0 < count)%Z then [count] else []
  | c :: l' =>
      if bool_decide (c = 1%Z) then runs_from (count + 1)%Z l'
      else if bool_decide (0 < count)%Z then count :: runs_from 0%Z l'
      else runs_from 0%Z l'
  end.

(** The lengths of the maximal runs of filled cells, left to right. *)
Definition filled_runs (l : line) : list Z := runs_from 0%Z l.

(** [extract_clues(line)]: a blank line is encoded as [[0]]. *)
Definition extract_clues (l : line) : list Z :=
  let clues := filled_runs l in
  match clues with [] => [0%Z] | _ => clues end.

(** ** Block placements

    A placement lists the [(start, block)] pairs of a line, left to right,
    as [pos_list] does.  [placed length pos ps] says that the blocks of
    [ps] are positive, start at [pos] or later, leave a free cell between
    consecutive blocks and end within the line. *)
Fixpoint placed (length : nat) (pos : Z) (ps : list (Z * Z)) : Prop :=
  match ps with
  | [] => True
  | p :: ps' =>
      (pos ≤ p.1)%Z ∧ (0 < p.2)%Z ∧ (p.1 + p.2 ≤ Z.of_nat length)%Z ∧
      placed length (p.1 + p.2 + 1)%Z ps'
  end.

(** The line drawn by a placement, from the cell [off] on: empty cells up to
    each block, the block's filled cells, and empty cells to the end. *)
Fixpoint layout (length : nat) (off : Z) (ps : list (Z * Z)) : line :=
  match ps with
  | [] => replicate (Z.to_nat (Z.of_nat length - off)) 0%Z
  | p :: ps' =>
      replicate (Z.to_nat (p.1 - off)) 0%Z ++
      replicate (Z.to_nat (p.2)) 1%Z ++
      layout length (p.1 + p.2)%Z ps'
  end.

(** The [pos] argument that follows a placement. *)
Definition next_pos (pos : Z) (ps : list (Z * Z)) : Z :=
  foldl (λ _ p, (p.1 + p.2 + 1)%Z) pos ps.

(** Number of filled cells of a line. *)
Definition count_filled (l : line) : Z :=
  Z.of_nat (length (filter (λ v, v = 1%Z) l)).

(** A placement moved one cell to the right. *)
Definition shift (ps : list (Z * Z)) : list (Z * Z) :=
  (λ p, (p.1 + 1, p.2)%Z) <$> ps.

(** A line of empty (0) and filled (1) cells. *)
Definition binary (l : line) : Prop := Forall (λ v, v = 0%Z ∨ v = 1%Z) l.

(** A clue as [extract_clues] writes it: [[0]] for a line without filled
    cell, and the positive run lengths of any other line. *)
Definition written_clue (clue : list Z) : Prop :=
  clue = [0%Z] ∨ (clue ≠ [] ∧ Forall (λ b, 0 < b)%Z clue).

(** ** Puzzle state and propagation ([Nono_Solver]) *)

Module Solver.

(** The mutable attributes of a [Nono_Solver] object. *)
Record state := State {
  height : nat;
  width : nat;
  grid : list (list cell);
  row_domains : list domain;
  col_domains : list domain;
}.

(** [__init__], from the parsed clues. *)
Definition __init__ (row_constraints col_constraints : list (list Z))
    : option state :=
  let height := length row_constraints in
  let width := length col_constraints in
  rd ← Generator._generate_domains row_constraints width;
  cd ← Generator._generate_domains col_constraints height;
  Some (State height width (replicate height (replicate width None)) rd cd).

(** [self.grid[i][j]].  The subscripts used by the solver are always within
    the grid (lemma [wf_init] and the preservation lemmas below), so the
    value chosen out of range is never read. *)
Definition cell_at (g : list (list cell)) (i j : nat) : cell :=
  match g !! i with
  | Some row => default None (row !! j)
  | None => None
  end.

(** [self.row_domains[i]], [self.col_domains[j]]: within the list for the
    same reason. *)
Definition dom_at (ds : list domain) (i : nat) : domain := default [] (ds !! i).

(** [self.grid[i][j] = c] *)
Definition set_cell (s : state) (i j : nat) (c : cell) : state :=
  State (height s) (width s) (alter (λ row, <[j:=c]> row) i (grid s))
        (row_domains s) (col_domains s).

(** [self.row_domains[i] = d] *)
Definition set_row_domain (s : state) (i : nat) (d : domain) : state :=
  State (height s) (width s) (grid s) (<[i:=d]> (row_domains s)) (col_domains s).

(** [self.col_domains[j] = d] *)
Definition set_col_domain (s : state) (j : nat) (d : domain) : state :=
  State (height s) (width s) (grid s) (row_domains s) (<[j:=d]> (col_domains s)).

(** [self.grid[i][j] is not None and self.grid[i][j] != value] *)
Definition clash (c : cell) (value : Z) : bool :=
  match c with
  | None => false
  | Some x => negb (bool_decide (x = value))
  end.

(** The [valid] flag after the loop over [enumerate(possibility)], for a
    possibility of row [i] ... *)
Definition row_valid (g : list (list cell)) (i : nat) (possibility : line) : bool :=
  forallb negb (imap (λ j value, clash (cell_at g i j) value) possibility).

(** ... and of column [j]. *)
Definition col_valid (g : list (list cell)) (j : nat) (possibility : line) : bool :=
  forallb negb (imap (λ i value, clash (cell_at g i j) value) possibility).

(** Python's [a != b] on two sets. *)
Definition set_neq (a b : domain) : bool :=
  negb (forallb (λ x, bool_decide (x ∈ b)) a && forallb (λ x, bool_decide (x ∈ a)) b).

(** [{poss[k] for poss in d}]; every line of a row domain has [width]
    cells and every line of a column domain [height] cells, so [k] is within
    the line. *)
Definition values_at (d : domain) (k : nat) : list Z :=
  remove_dups (omap (λ poss : line, poss !! k) d).

(** [row_values & col_values] for the cell [(i, j)] *)
Definition common_values (s : state) (i j : nat) : list Z :=
  list_intersection (values_at (dom_at (row_domains s) i) j)
                    (values_at (dom_at (col_domains s) j) i).

(** Iteration order of a CPython set of small non-negative integers: by
    hash, that is by value.  The only sets iterated are subsets of {0, 1}
    ([candidates_are_bits]). *)
Definition set_order (vs : list Z) : list Z := merge_sort Z.le vs.

(** Control flow of a loop body that may execute [return False]. *)
Inductive flow (X : Type) :=
  | Returned (s : state)
  | Running (x : X).
Arguments Returned {X} s.
Arguments Running {X} x.

(** [for a in l: body], until the body returns. *)
Fixpoint for_each {A X} (body : A → X → flow X) (l : list A) (x : X) : flow X :=
  match l with
  | [] => Running x
  | a :: l' =>
      match body a x with
      | Returned s => Returned s
      | Running x' => for_each body l' x'
      end
  end.

(** Body of [for i in range(self.height)], first loop; the local variable
    [changed] travels with the state. *)
Definition row_step (i : nat) (sc : state * bool) : flow (state * bool) :=
  let '(s, changed) := sc in
  let old := dom_at (row_domains s) i in
  let new_domain := filter (λ p, row_valid (grid s) i p) old in
  match new_domain with
  | [] => Returned s
  | _ =>
      if set_neq new_domain old
      then Running (set_row_domain s i new_domain, true)
      else Running (s, changed)
  end.

(** Body of [for j in range(self.width)], second loop. *)
Definition col_step (j : nat) (sc : state * bool) : flow (state * bool) :=
  let '(s, changed) := sc in
  let old := dom_at (col_domains s) j in
  let new_domain := filter (λ p, col_valid (grid s) j p) old in
  match new_domain with
  | [] => Returned s
  | _ =>
      if set_neq new_domain old
      then Running (set_col_domain s j new_domain, true)
      else Running (s, changed)
  end.

(** The pairs [(i, j)] visited by [for i in range(h): for j in range(w)],
    in that order. *)
Definition cells (h w : nat) : list (nat * nat) := cprod (seq 0 h) (seq 0 w).

(** Body of the innermost loop of "Find and propagate certain values". *)
Definition cell_step (ij : nat * nat) (sc : state * bool) : flow (state * bool) :=
  let '(s, changed) := sc in
  let '(i, j) := ij in
  match cell_at (grid s) i j with
  | Some _ => Running (s, changed)
  | None =>
      match common_values s i j with
      | [v] => Running (set_cell s i j (Some v), true)
      | _ => Running (s, changed)
      end
  end.

(** One iteration of the [while changed] loop. *)
Definition pass (s : state) : flow (state * bool) :=
  match for_each row_step (seq 0 (height s)) (s, false) with
  | Returned s' => Returned s'
  | Running sc1 =>
      match for_each col_step (seq 0 (width s)) sc1 with
      | Returned s' => Returned s'
      | Running sc2 =>
          for_each cell_step (cells (height s) (width s)) sc2
      end
  end.

(** The [while changed] loop, at most [fuel] iterations. *)
Fixpoint update_loop (fuel : nat) (s : state) : option (bool * state) :=
  match fuel with
  | O => None
  | S fuel' =>
      match pass s with
      | Returned s' => Some (false, s')
      | Running (s', changed) =>
          if changed then update_loop fuel' s' else Some (true, s')
      end
  end.

(** Number of [None] cells. *)
Definition unknowns (g : list (list cell)) : nat :=
  sum_list (map (λ row, length (filter (λ c : cell, c = None) row)) g).

(** Number of possibilities left, all lines together. *)
Definition dom_size (ds : list domain) : nat := sum_list (map length ds).

(** Every productive iteration of [while changed] removes a possibility or
    fixes a cell, so this many iterations are never exceeded
    ([update_domains_total]). *)
Definition work (s : state) : nat :=
  dom_size (row_domains s) + dom_size (col_domains s) + unknowns (grid s).

(** [_update_domains]: the returned Boolean and the object afterwards. *)
Definition _update_domains (s : state) : option (bool * state) :=
  update_loop (S (work s)) s.

(** The scan for the most constrained cell: [best] is [None] while
    [min_options] is infinite and [best_pos] is [None]. *)
Definition select_step (s : state)
    (best : option (nat * (nat * nat) * list Z)) (ij : nat * nat) :=
  let '(i, j) := ij in
  match cell_at (grid s) i j with
  | Some _ => best
  | None =>
      let common := common_values s i j in
      let better :=
        match best with
        | None => true
        | Some (min_options, _, _) => bool_decide (length common < min_options)
        end in
      if better then Some (length common, (i, j), common) else best
  end.

Definition select (s : state) : option (nat * (nat * nat) * list Z) :=
  foldl (select_step s) None (cells (height s) (width s)).

(** [for value in best_values: ...], with [slv] the recursive [self.solve()]. *)
Fixpoint try_values (slv : state → option (bool * state)) (i j : nat)
    (values : list Z) (s : state) : option (bool * state) :=
  match values with
  | [] => Some (false, s)
  | value :: rest =>
      match slv (set_cell s i j (Some value)) with
      | None => None
      | Some (true, s') => Some (true, s')
      | Some (false, s') => try_values slv i j rest (set_cell s' i j None)
      end
  end.

(** [solve], with [fuel] bounding the recursion depth.  The order in which
    [for value in best_values] visits the set is the parameter [order]. *)
Fixpoint solve_fuel (order : list Z → list Z) (fuel : nat) (s : state)
    : option (bool * state) :=
  match fuel with
  | O => None
  | S fuel' =>
      match _update_domains s with
      | None => None
      | Some (false, s1) => Some (false, s1)
      | Some (true, s1) =>
          match select s1 with
          | None => Some (true, s1)
          | Some (_, (i, j), best_values) =>
              try_values (solve_fuel order fuel') i j (order best_values) s1
          end
      end
  end.

(** Each recursive call is made with one more cell fixed
    ([solve_total]). *)
Definition solve_with (order : list Z → list Z) (s : state) : option (bool * state) :=
  solve_fuel order (S (unknowns (grid s))) s.

(** [solve] as CPython runs it. *)
Definition solve : state → option (bool * state) := solve_with set_order.

(** Run [solve] on the puzzle read from the clues. *)
Definition run (rc cc : list (list Z)) : option (bool * list (list cell)) :=
  s ← __init__ rc cc; r ← solve s; Some (r.1, grid (r.2)).

(** *** States passed through

    The states of the object after each iteration of each loop, in order of
    execution; the state at entry is not listed. *)
Fixpoint for_each_trace {A} (body : A → state * bool → flow (state * bool))
    (l : list A) (sc : state * bool) : list state :=
  match l with
  | [] => []
  | a :: l' =>
      match body a sc with
      | Returned s => [s]
      | Running sc' => sc'.1 :: for_each_trace body l' sc'
      end
  end.

Definition pass_trace (s : state) : list state :=
  let t1 := for_each_trace row_step (seq 0 (height s)) (s, false) in
  match for_each row_step (seq 0 (height s)) (s, false) with
  | Returned _ => t1
  | Running sc1 =>
      let t2 := for_each_trace col_step (seq 0 (width s)) sc1 in
      match for_each col_step (seq 0 (width s)) sc1 with
      | Returned _ => t1 ++ t2
      | Running sc2 =>
          t1 ++ t2 ++ for_each_trace cell_step (cells (height s) (width s)) sc2
      end
  end.

Fixpoint update_trace (fuel : nat) (s : state) : list state :=
  match fuel with
  | O => []
  | S fuel' =>
      pass_trace s ++
      match pass s with
      | Running (s', true) => update_trace fuel' s'
      | _ => []
      end
  end.

Definition _update_domains_trace (s : state) : list state :=
  update_trace (S (work s)) s.

Fixpoint try_values_trace (slv : state → option (bool * state))
    (slv_trace : state → list state) (i j : nat)
    (values : list Z) (s : state) : list state :=
  match values with
  | [] => []
  | value :: rest =>
      let s1 := set_cell s i j (Some value) in
      s1 :: slv_trace s1 ++
      match slv s1 with
      | Some (false, s') =>
          set_cell s' i j None ::
          try_values_trace slv slv_trace i j rest (set_cell s' i j None)
      | _ => []
      end
  end.

Fixpoint solve_trace (order : list Z → list Z) (fuel : nat) (s : state)
    : list state :=
  match fuel with
  | O => []
  | S fuel' =>
      _update_domains_trace s ++
      match _update_domains s with
      | Some (true, s1) =>
          match select s1 with
          | Some (_, (i, j), best_values) =>
              try_values_trace (solve_fuel order fuel') (solve_trace order fuel')
                               i j (order best_values) s1
          | None => []
          end
      | _ => []
      end
  end.

Definition solve_with_trace (order : list Z → list Z) (s : state) : list state :=
  solve_trace order (S (unknowns (grid s))) s.

(** *** Orders on states *)

(** A cell keeps its value, or goes from unknown to fixed. *)
Definition cell_le (c c' : cell) : Prop := c' = c ∨ (c = None ∧ is_Some c').

Definition grid_le (g g' : list (list cell)) : Prop := Forall2 (Forall2 cell_le) g g'.

(** Line by line, the later domain is included in the earlier one. *)
Definition doms_le (ds ds' : list domain) : Prop := Forall2 (λ d d', d' ⊆ d) ds ds'.

Definition domains_le (s s' : state) : Prop :=
  doms_le (row_domains s) (row_domains s') ∧ doms_le (col_domains s) (col_domains s').

(** Within a call of [_update_domains]: domains shrink, cells get fixed. *)
Definition state_le (s s' : state) : Prop :=
  height s = height s' ∧ width s = width s' ∧
  grid_le (grid s) (grid s') ∧ domains_le s s'.

(** Within a call of [solve]: domains shrink, the grid keeps its shape. *)
Definition search_le (s s' : state) : Prop :=
  height s = height s' ∧ width s = width s' ∧
  Forall2 (λ r r' : list cell, length r = length r') (grid s) (grid s') ∧
  domains_le s s'.

(** *** Shape of a solver object: what [__init__] establishes *)
Record wf (s : state) : Prop := {
  wf_grid_height : length (grid s) = height s;
  wf_grid_width : Forall (λ row, length row = width s) (grid s);
  wf_rows : length (row_domains s) = height s;
  wf_cols : length (col_domains s) = width s;
  wf_row_lines : Forall (Forall (λ p : line, length p = width s)) (row_domains s);
  wf_col_lines : Forall (Forall (λ p : line, length p = height s)) (col_domains s);
}.

(** The clue [blocks] cannot fit in a line of [n] cells. *)
Definition too_long (blocks : list Z) (n : nat) : Prop :=
  (sum blocks + len blocks - 1 > Z.of_nat n)%Z.

(** *** Solutions *)

(** Column [j] of a grid of fixed cells. *)
Definition column {A} (g : list (list A)) (j : nat) : list A :=
  omap (λ row, row !! j) g.

(** [g] is a solution of the puzzle: a grid of filled (1) and empty (0)
    cells with one row per row clue and one column per column clue, whose
    rows and columns have the clues as their runs of filled cells. *)
Definition solution (rc cc : list (list Z)) (g : list line) : Prop :=
  length g = length rc ∧
  Forall (λ row, length row = length cc ∧ Forall (λ v, v = 0%Z ∨ v = 1%Z) row) g ∧
  (∀ i row clue, g !! i = Some row → rc !! i = Some clue → filled_runs row = clue) ∧
  (∀ j clue, cc !! j = Some clue → filled_runs (column g j) = clue).

(** *** Grids kept by a state *)

(** The filled and empty cells of [g] where the grid has fixed cells. *)
Definition agrees (gr : list (list cell)) (g : list line) : Prop :=
  ∀ i j v, cell_at gr i j = Some v → g !! i ≫= (λ row, row !! j) = Some v.

(** [g] is still possible in state [s]: it has the shape of the grid, agrees
    with the fixed cells, and its rows and columns are in the domains. *)
Definition contains (s : state) (g : list line) : Prop :=
  length g = height s ∧ Forall (λ row, length row = width s) g ∧
  agrees (grid s) g ∧
  (∀ i row, g !! i = Some row → row ∈ dom_at (row_domains s) i) ∧
  (∀ j, j < width s → column g j ∈ dom_at (col_domains s) j).

(** Every possibility left for row [i] has the value [v] in column [j]. *)
Definition pinned (s : state) (i j : nat) (v : Z) : Prop :=
  ∀ p, p ∈ dom_at (row_domains s) i → p !! j = Some v.

(** *** Vocabulary of the proofs *)

(** From [a], through the states [t], ending in [b]. *)
Definition chain (R : relation state) (a : state) (t : list state) (b : state) : Prop :=
  StronglySorted R (a :: t) ∧ last (a :: t) = Some b.

(** The state in which a loop stops. *)
Definition flow_state (f : flow (state * bool)) : state :=
  match f with
  | Running sc' => sc'.1
  | Returned s' => s'
  end.

(** An iteration either leaves state and flag alone, or raises the flag and
    lowers the measure. *)
Definition idle_or_progress (s : state) (ch : bool) (s' : state) (ch' : bool) : Prop :=
  (s' = s ∧ ch' = ch) ∨ (ch' = true ∧ work s' < work s).

(** The states that a pass started in [s0] goes through. *)
Definition within (s0 s : state) : Prop :=
  wf s ∧ height s = height s0 ∧ width s = width s0.

(** The invariant of the scan for the most constrained cell. *)
Definition best_ok (s : state) (best : option (nat * (nat * nat) * list Z)) : Prop :=
  match best with
  | None => True
  | Some (n, (i, j), vals) =>
      cell_at (grid s) i j = None ∧ vals = common_values s i j ∧ n = length vals
  end.

(** The state is a fixpoint of propagation: every domain is non-empty and
    agrees with the fixed cells, and a pass changes nothing. *)
Definition settled (s : state) : Prop := pass s = Running (s, false).

(** The domain of a clue: the generated lines, as a set. *)
Definition domain_of (length : nat) (clue : list Z) (d : domain) : Prop :=
  ∃ lines, Generator.generate_line_possibilities clue length = Some lines ∧
           d = remove_dups lines.

(** [t] lists the states of a call that starts in [s], and the call, when it
    returns, returns in the last of them. *)
Definition traced (run : state → option (bool * state))
    (trace : state → list state) : Prop :=
  ∀ s, ∃ e, chain search_le s (trace s) e ∧
            ∀ b s', run s = Some (b, s') → s' = e.

(** A successful search ends in a settled state without unknown cell. *)
Definition solved (s : state) : Prop :=
  wf s ∧ settled s ∧ select s = None.

(** The grid read as a grid of 0/1 cells. *)
Definition fixed_grid (g : list (list cell)) : list line :=
  (λ row : list cell, default 0%Z <$> row) <$> g.

End Solver.

(** ** Text ([str])

    A [str] is the list of its characters.  The characters are those with a
    code point below 256, which is all that the two programs write; the
    functions below are the Python ones on such strings. *)

Module Text.

Abbreviation text := (list ascii).

(** [c.isspace()]: the characters that [strip()] and [split()] treat as
    white space. *)
Definition isspace (c : ascii) : bool :=
  let n := nat_of_ascii c in
  bool_decide (9 ≤ n ≤ 13 ∨ 28 ≤ n ≤ 32 ∨ n = 133 ∨ n = 160).

(** [t.lstrip()] *)
Fixpoint lstrip (t : text) : text :=
  match t with
  | [] => []
  | c :: t' => if isspace c then lstrip t' else t
  end.

(** [t.strip()] *)
Definition strip (t : text) : text := reverse (lstrip (reverse (lstrip t))).

(** [t.split(sep)] for a separator of one character: always at least one
    piece. *)
Fixpoint split (sep : ascii) (t : text) : list text :=
  match t with
  | [] => [[]]
  | c :: t' =>
      if decide (c = sep) then [] :: split sep t'
      else match split sep t' with
           | piece :: pieces => (c :: piece) :: pieces
           | [] => [[c]]
           end
  end.

(** [t.split()]: the maximal runs of characters other than white space.
    A character that is no white space is added to the run that starts right
    after it, or makes a run of its own. *)
Fixpoint words (t : text) : list text :=
  match t with
  | [] => []
  | c :: t' =>
      if isspace c then words t'
      else
        match t' with
        | c' :: _ =>
            if isspace c' then [c] :: words t'
            else match words t' with
                 | w :: ws => (c :: w) :: ws
                 | [] => [[c]]
                 end
        | [] => [[c]]
        end
  end.

(** [sep.join(l)] *)
Fixpoint join (sep : text) (l : list text) : text :=
  match l with
  | [] => []
  | x :: l' => match l' with [] => x | _ => x ++ sep ++ join sep l' end
  end.

(** CPython refuses to convert between [int] and [str] when more than
    [sys.get_int_max_str_digits()] digits are involved, 4300 unless
    configured otherwise; 0 switches the limit off, as do the versions that
    have no limit.  The sign and underscores are not counted. *)
Definition over_limit (max_str_digits digits : nat) : bool :=
  bool_decide (0 < max_str_digits < digits).

(** [str(z)]; [None] is the [ValueError] of the limit. *)
Definition str (max_str_digits : nat) (z : Z) : option text :=
  let digits := length (String.list_ascii_of_string (pretty (Z.abs z))) in
  if over_limit max_str_digits digits then None
  else Some (String.list_ascii_of_string (pretty z)).

(** The value of a decimal digit. *)
Definition digit (c : ascii) : option Z := Z.of_nat <$> Ascii.is_nat c.

(** The digits of an integer literal, with single underscores allowed
    between two digits: the value read and the number of digits. *)
Fixpoint int_digits (acc : Z) (n : nat) (t : text) : option (Z * nat) :=
  match t with
  | [] => Some (acc, n)
  | c :: t' =>
      if decide (c = "_"%char) then
        match t' with
        | d :: _ => match digit d with Some _ => int_digits acc n t' | None => None end
        | [] => None
        end
      else d ← digit c; int_digits (acc * 10 + d)%Z (S n) t'
  end.

Definition int_unsigned (max_str_digits : nat) (t : text) : option Z :=
  match t with
  | c :: _ =>
      _ ← digit c;
      r ← int_digits 0 0 t;
      if over_limit max_str_digits r.2 then None else Some r.1
  | [] => None
  end.

(** [int(t)] for a piece [t] of [split()], which has no white space around
    it; [None] is the [ValueError]. *)
Definition int (max_str_digits : nat) (t : text) : option Z :=
  match t with
  | c :: t' =>
      if decide (c = "-"%char) then Z.opp <$> int_unsigned max_str_digits t'
      else if decide (c = "+"%char) then int_unsigned max_str_digits t'
      else int_unsigned max_str_digits t
  | [] => None
  end.

(** *** Vocabulary of the proofs *)

(** The decimal digits of [x], none for 0. *)
Definition dec (x : N) : text := String.list_ascii_of_string (pretty_N_go x "").

(** A piece of [split()]: not empty, no white space. *)
Definition token (t : text) : Prop := t ≠ [] ∧ Forall (λ c, isspace c = false) t.

(** A line of the file: no newline in it, and a character other than white
    space at each end. *)
Definition solid (l : text) : Prop :=
  ("010"%char ∉ l) ∧
  (∃ c, head l = Some c ∧ isspace c = false) ∧
  (∃ c, last l = Some c ∧ isspace c = false).

End Text.

(** ** Puzzle creation ([NonogramCreator])

    [puzzle_grid] is a two-dimensional numpy array of integers, the result
    of [edges_cropped.astype(int)].  The image processing that produces it
    ([load_image], [downsample_image], [contour_based]) is library code and is
    not embedded; what follows takes the array as given. *)

Module Creator.

(** A two-dimensional array: the length of its rows, which numpy keeps in
    the shape even when there is no row left, and its rows. *)
Record ndarray := Array {
  ncols : nat;
  data : list line;
}.

(** Every row has the length the shape announces. *)
Definition well_shaped (a : ndarray) : Prop :=
  Forall (λ row, length row = ncols a) (data a).

(** [np.any] along a line: some element is nonzero. *)
Definition any (l : line) : bool := existsb (λ v, negb (v =? 0)%Z) l.

(** [l[mask]], subscripting with an array of Booleans of the same length. *)
Fixpoint compress {A} (mask : list bool) (l : list A) : list A :=
  match mask, l with
  | b :: mask', x :: l' =>
      if b then x :: compress mask' l' else compress mask' l'
  | _, _ => []
  end.

(** Number of [True] entries of a mask. *)
Definition kept (mask : list bool) : nat := length (compress mask mask).

(** The rows of [a.T], that is the columns of [a]. *)
Definition transpose (a : ndarray) : list line :=
  (λ j, Solver.column (data a) j) <$> seq 0 (ncols a).

(** [trim_grid]: the array afterwards. *)
Definition trim_grid (a : ndarray) : ndarray :=
  let row_non_empty := any <$> data a in
  let a1 := Array (ncols a) (compress row_non_empty (data a)) in
  let col_non_empty := any <$> transpose a1 in
  Array (kept col_non_empty) (compress col_non_empty <$> data a1).

(** [generate_clues] *)
Definition generate_clues (a : ndarray) : list (list Z) * list (list Z) :=
  (extract_clues <$> data a, extract_clues <$> transpose a).

(** [" ".join(map(str, row)) + "\n"] *)
Definition clue_line (max_str_digits : nat) (row : list Z) : option Text.text :=
  pieces ← mapM (Text.str max_str_digits) row;
  Some (Text.join [" "%char] pieces ++ ["010"%char]).

(** [save_clues_to_file]: the text written to the file, when no [str]
    raises. *)
Definition save_clues_to_file (max_str_digits : nat)
    (row_clues col_clues : list (list Z)) : option Text.text :=
  rows ← mapM (clue_line max_str_digits) row_clues;
  cols ← mapM (clue_line max_str_digits) col_clues;
  Some (concat rows ++ ["010"%char] ++ concat cols).

End Creator.

(** ** Drawing the puzzle ([NonogramCreator.display_puzzle_with_clues])

    The function draws on a PIL image and saves it.  Its effect is embedded
    as the size of the image it creates and the list of the drawing calls it
    makes, in order; [None] is an exception, raised before the image is
    saved.  The font does not enter the coordinates. *)

Module Display.

Inductive command :=
  | Rectangle (x0 y0 x1 y1 : Z)
      (** [draw.rectangle([x0, y0, x1, y1], fill="black")] *)
  | Line (x0 y0 x1 y1 : Z)
      (** [draw.line([(x0, y0), (x1, y1)], fill="black")] *)
  | Write (x y : Z) (t : Text.text).
      (** [draw.text((x, y), t, fill="black", font=font, anchor="mm")] *)

Definition cell_size : Z := 20.

(** [cell_size / 2] is the float [10.0]; added to multiples of [cell_size]
    it gives whole numbers, which are kept as integers. *)
Definition half_cell : Z := (cell_size / 2)%Z.

(** [max(len(clues) for clues in l)]; [None] is the [ValueError] that [max]
    raises on an empty sequence. *)
Definition max_len (l : list (list Z)) : option Z :=
  match l with
  | [] => None
  | _ => Some (Z.of_nat (max_list (length <$> l)))
  end.

(** "Draw filled cells in the grid": [self.puzzle_grid[i, j]] is read for
    every cell of the loops, [None] being its [IndexError]. *)
Definition draw_cells (a : Creator.ndarray) (num_rows num_cols : nat)
    (max_row_clues max_col_clues : Z) : option (list command) :=
  @concat _ <$>
    mapM (λ ij : nat * nat,
            v ← Creator.data a !! ij.1 ≫= (λ row, row !! ij.2);
            Some (if decide (v = 1%Z) then
                    let x := (max_row_clues * cell_size + Z.of_nat ij.2 * cell_size)%Z in
                    let y := (max_col_clues * cell_size + Z.of_nat ij.1 * cell_size)%Z in
                    [Rectangle x y (x + cell_size) (y + cell_size)]
                  else []))
         (Solver.cells num_rows num_cols).

(** [for k, clue in enumerate(reversed(clues))]: the numbers of one clue,
    the last one next to the grid.  [across] is the coordinate that the
    numbers of the clue share; for a row clue it is [y]. *)
Definition draw_clue (max_str_digits : nat) (of_row : bool) (max_clues across : Z)
    (clues : list Z) : option (list command) :=
  mapM (λ kc : nat * Z,
          t ← Text.str max_str_digits kc.2;
          let along := ((max_clues - Z.of_nat kc.1 - 1) * cell_size + half_cell)%Z in
          Some (if of_row then Write along across t else Write across along t))
       (imap pair (reverse clues)).

(** [for i, clues in enumerate(l)] *)
Definition draw_clues (max_str_digits : nat) (of_row : bool)
    (max_clues max_other : Z) (l : list (list Z)) : option (list command) :=
  @concat _ <$>
    mapM (λ ic : nat * list Z,
            draw_clue max_str_digits of_row max_clues
              (max_other * cell_size + Z.of_nat ic.1 * cell_size + half_cell)%Z ic.2)
         (imap pair l).

(** [display_puzzle_with_clues]: width and height of the image, and the
    drawing calls. *)
Definition display_puzzle_with_clues (max_str_digits : nat) (a : Creator.ndarray)
    (row_clues col_clues : list (list Z)) : option (Z * Z * list command) :=
  let num_rows := length row_clues in
  let num_cols := length col_clues in
  max_row_clues ← max_len row_clues;
  max_col_clues ← max_len col_clues;
  let width := ((max_row_clues + Z.of_nat num_cols) * cell_size)%Z in
  let height := ((max_col_clues + Z.of_nat num_rows) * cell_size)%Z in
  filled ← draw_cells a num_rows num_cols max_row_clues max_col_clues;
  let across :=
    (λ i : nat,
       let y := (max_col_clues * cell_size + Z.of_nat i * cell_size)%Z in
       Line (max_row_clues * cell_size) y width y) <$> seq 0 (S num_rows) in
  let down :=
    (λ j : nat,
       let x := (max_row_clues * cell_size + Z.of_nat j * cell_size)%Z in
       Line x (max_col_clues * cell_size) x height) <$> seq 0 (S num_cols) in
  row_numbers ← draw_clues max_str_digits true max_row_clues max_col_clues row_clues;
  col_numbers ← draw_clues max_str_digits false max_col_clues max_row_clues col_clues;
  Some (width, height, filled ++ across ++ down ++ row_numbers ++ col_numbers).

(** *** Vocabulary of the proofs *)

(** A drawing call within an image of the given size whose grid starts at
    [(left, top)]: cells and grid lines from there on, clue numbers strictly
    inside the image and outside the grid. *)
Definition in_place (width height left top : Z) (c : command) : Prop :=
  match c with
  | Rectangle x0 y0 x1 y1 =>
      (left ≤ x0 ∧ x0 < x1 ≤ width ∧ top ≤ y0 ∧ y0 < y1 ≤ height)%Z
  | Line x0 y0 x1 y1 =>
      (left ≤ x0 ≤ x1 ∧ x1 ≤ width ∧ top ≤ y0 ≤ y1 ∧ y1 ≤ height)%Z
  | Write x y _ =>
      (0 < x < width ∧ 0 < y < height ∧ (x < left ∨ y < top))%Z
  end.

End Display.

(** ** Reading a puzzle ([Nono_Solver.read_puzzle]) *)

Module Reader.

(** [list(map(int, line.split()))] *)
Definition parse_line (max_str_digits : nat) (l : Text.text) : option (list Z) :=
  mapM (Text.int max_str_digits) (Text.words l).

(** [read_puzzle], from the text that [f.read()] returns.  [None] is the
    [except Exception] branch, which prints a message and exits with
    status 1: [lines.index('')] raises when no line is empty, and [int]
    raises on a piece that is no integer literal. *)
Definition read_puzzle (max_str_digits : nat) (content : Text.text)
    : option (list (list Z) * list (list Z)) :=
  let lines := Text.split "010"%char (Text.strip content) in
  separator_idx ← fst <$> list_find (λ l, l = []) lines;
  row_constraints ← mapM (parse_line max_str_digits) (take separator_idx lines);
  col_constraints ← mapM (parse_line max_str_digits) (drop (S separator_idx) lines);
  Some (row_constraints, col_constraints).

End Reader.

(** ** Printing the grid ([Nono_Solver.print_solution]) *)

Module Output.

(** What [print] writes for one cell, as the bytes of its UTF-8 encoding:
    two full blocks (U+2588) for a filled cell, two spaces otherwise. *)
Definition glyph (c : cell) : string :=
  if decide (c = Some 1%Z) then "██" else "  ".

(** [print_solution]: the lines printed. *)
Definition print_solution (s : Solver.state) : list string :=
  if decide (Exists (λ row : list cell, None ∈ row) (Solver.grid s))
  then ["No solution found"]
  else (λ row, String.concat "" (glyph <$> row)) <$> Solver.grid s.

End Output.

(** ** Example puzzles *)

Module Examples.
Import Solver.

(** The 1 x 1 puzzle with a filled cell. *)
Definition one_cell : state := State 1 1 [[None]] [[[1%Z]]] [[[1%Z]]].
Definition one_cell_solved : state := State 1 1 [[Some 1%Z]] [[[1%Z]]] [[[1%Z]]].

(** Row clue [1], column clue empty: the row wants the cell filled, the
    column wants it empty. *)
Definition torn_cell : state := State 1 1 [[None]] [[[1%Z]]] [[[0%Z]]].

(** Three rows [1] and one column [4]: the column clue does not fit. *)
Definition tall_rows : list (list Z) := [[1]; [1]; [1]]%Z.
Definition tall_cols : list (list Z) := [[4]]%Z.
Definition tall : state :=
  State 3 1 [[None]; [None]; [None]] [[[1%Z]]; [[1%Z]]; [[1%Z]]] [[]].

(** A 3 x 4 puzzle and its solution. *)
Definition gate_rows : list (list Z) := [[1; 1]; [4]; [2]]%Z.
Definition gate_cols : list (list Z) := [[2]; [2]; [2]; [2]]%Z.
Definition gate_solution : list line :=
  [[1; 0; 0; 1]; [1; 1; 1; 1]; [0; 1; 1; 0]]%Z.

(** The puzzle as [__init__] builds it. *)
Definition gate : state :=
  State 3 4 (replicate 3 (replicate 4 None))
    [[[1; 0; 1; 0]; [1; 0; 0; 1]; [0; 1; 0; 1]]; [[1; 1; 1; 1]];
     [[1; 1; 0; 0]; [0; 1; 1; 0]; [0; 0; 1; 1]]]%Z
    (replicate 4 [[1; 1; 0]; [0; 1; 1]]%Z).

(** After the first propagation: the middle row is filled. *)
Definition gate_propagated : state :=
  State 3 4 [replicate 4 None; replicate 4 (Some 1%Z); replicate 4 None]
    (row_domains gate) (col_domains gate).

(** After the failed branch [(0, 0) = 0] and the reset of that cell. *)
Definition gate_after_branch : state :=
  State 3 4
    [[None; Some 1; Some 0; Some 1]; replicate 4 (Some 1); [Some 1; None; None; Some 0]]%Z
    [[[0; 1; 0; 1]]; [[1; 1; 1; 1]]; [[1; 1; 0; 0]]]%Z
    [[[0; 1; 1]]; [[1; 1; 0]]; [[0; 1; 1]]; [[1; 1; 0]]]%Z.

(** A 4 x 4 puzzle and a solution of it; on this one the search fails
    whichever value is tried first. *)
Definition cross_rows : list (list Z) := [[2]; [1]; [2]; [1]]%Z.
Definition cross_cols : list (list Z) := [[1]; [1; 1]; [1; 1]; [1]]%Z.
Definition cross_solution : list line :=
  [[0; 1; 1; 0]; [0; 0; 0; 1]; [0; 1; 1; 0]; [1; 0; 0; 0]]%Z.

(** Rows of the right length, made of zeros and ones. *)
Ltac binary_rows :=
  repeat (apply Forall_cons_2 || apply Forall_nil_2 || (split; [reflexivity|]) ||
          (left; reflexivity) || (right; reflexivity)).

End Examples.

(** * Theorems *)

Import Solver.
Import Examples.

(** ** Sanity checks against the source, traced by hand *)

Example gen_3_5 :
  Generator.generate_line_possibilities [3%Z] 5 =
  Some [[1;1;1;0;0]; [0;1;1;1;0]; [0;0;1;1;1]]%Z.
Proof. vm_compute. reflexivity. Qed.

Example gen_1_2_5 :
  Generator.generate_line_possibilities [1;2]%Z 5 =
  Some [[1;0;1;1;0]; [1;0;0;1;1]; [0;1;0;1;1]]%Z.
Proof. vm_compute. reflexivity. Qed.

Example gen_neg :
  Generator.generate_line_possibilities [-5;3]%Z 1 = None.
Proof. vm_compute. reflexivity. Qed.

Example gen_zero :
  Generator._generate_domains [[0]; []]%Z 2 = Some [[[0;0]]; [[0;0]]]%Z.
Proof. vm_compute. reflexivity. Qed.

Example solve_3x3 :
  Solver.run [[3];[3];[3]]%Z [[3];[3];[3]]%Z
  = Some (true, replicate 3 (replicate 3 (Some 1%Z))).
Proof. vm_compute. reflexivity. Qed.

Example solve_1x1 : Solver.run [[1]]%Z [[1]]%Z = Some (true, [[Some 1%Z]]).
Proof. vm_compute. reflexivity. Qed.

Example solve_3x1 : Solver.run [[1];[1];[1]]%Z [[4]]%Z = Some (false, replicate 3 [None]).
Proof. vm_compute. reflexivity. Qed.

Example solve_2x2 :
  Solver.run [[1];[1]]%Z [[1];[1]]%Z
  = Some (true, [[Some 0; Some 1]; [Some 1; Some 0]]%Z).
Proof. vm_compute. reflexivity. Qed.

(** * Facts about the generator *)

Section runs.

Lemma runs_from_zeros c n l :
  runs_from c (replicate (S n) 0%Z ++ l) =
  (if bool_decide (0 < c)%Z then [c] else []) ++ runs_from 0%Z l.
Proof.
  revert c. induction n as [|n IH]; intros c.
  - simpl. case_bool_decide; done.
  - change (replicate (S (S n)) 0%Z ++ l) with (0%Z :: (replicate (S n) 0%Z ++ l)).
    cbn [runs_from]. rewrite bool_decide_eq_false_2 by done.
    rewrite IH. simpl. case_bool_decide; done.
Qed.

Lemma runs_from_ones c n l :
  runs_from c (replicate n 1%Z ++ l) = runs_from (c + Z.of_nat n)%Z l.
Proof.
  revert c. induction n as [|n IH]; intros c.
  - simpl. f_equal. lia.
  - simpl. rewrite IH. f_equal. lia.
Qed.

Lemma runs_from_all_zeros n : runs_from 0%Z (replicate n 0%Z) = [].
Proof. induction n; simpl; done. Qed.

Lemma runs_from_tail_zeros c n :
  (0 < c)%Z → runs_from c (replicate n 0%Z) = [c].
Proof.
  intros Hc. destruct n as [|n].
  - simpl. by rewrite bool_decide_eq_true_2.
  - rewrite <- (app_nil_r (replicate (S n) 0%Z)), runs_from_zeros.
    rewrite bool_decide_eq_true_2 by done. done.
Qed.

(** After a block of [b] cells, the rest of a placement contributes the
    remaining blocks. *)
Lemma runs_from_layout length ps : ∀ e b,
  (0 < b)%Z → placed length (e + 1) ps →
  runs_from b (layout length e ps) = b :: ps.*2.
Proof.
  induction ps as [|[s b'] ps IH]; intros e b Hb Hp; simpl in *.
  - by apply runs_from_tail_zeros.
  - destruct Hp as (Hs & Hb' & Hle & Hp).
    replace (Z.to_nat (s - e)) with (S (Z.to_nat (s - e - 1))) by lia.
    rewrite runs_from_zeros, bool_decide_eq_true_2 by done.
    rewrite runs_from_ones. simpl. f_equal.
    rewrite IH; [|lia|done]. f_equal. lia.
Qed.

Lemma filled_runs_layout length ps :
  placed length 0 ps → filled_runs (layout length 0 ps) = ps.*2.
Proof.
  unfold filled_runs. destruct ps as [|[s b] ps]; simpl.
  - intros _. apply runs_from_all_zeros.
  - intros (Hs & Hb & Hle & Hp).
    assert (runs_from 0 (replicate (Z.to_nat (s - 0)) 0%Z ++ replicate (Z.to_nat b) 1%Z ++
                         layout length (s + b) ps)
            = runs_from 0 (replicate (Z.to_nat b) 1%Z ++ layout length (s + b) ps)) as ->.
    { destruct (Z.to_nat (s - 0)) as [|n]; [done|].
      rewrite runs_from_zeros. by rewrite bool_decide_eq_false_2. }
    rewrite runs_from_ones, runs_from_layout; [|lia|done].
    f_equal. lia.
Qed.

Lemma length_layout length ps : ∀ e pos,
  (0 ≤ e ≤ Z.of_nat length)%Z → (e ≤ pos)%Z → placed length pos ps →
  Z.of_nat (List.length (layout length e ps)) = (Z.of_nat length - e)%Z.
Proof.
  induction ps as [|[s b] ps IH]; intros e pos He Hpos Hp; simpl in *.
  - rewrite length_replicate. lia.
  - destruct Hp as (Hs & Hb & Hle & Hp).
    rewrite !length_app, !length_replicate, !Nat2Z.inj_add.
    rewrite (IH (s + b)%Z (s + b + 1)%Z); [lia|lia|lia|done].
Qed.

End runs.

Section painting.

Lemma py_index_in_range n (i : nat) :
  i < n → py_index n (Z.of_nat i) = Some i.
Proof.
  intros Hi. unfold py_index.
  rewrite bool_decide_eq_true_2 by lia. f_equal. lia.
Qed.

Lemma setitem_middle (a : line) x (rest : line) v :
  setitem (a ++ x :: rest) (Z.of_nat (length a)) v = Some (a ++ v :: rest).
Proof.
  unfold setitem. rewrite py_index_in_range by (rewrite length_app; simpl; lia).
  simpl. f_equal.
  rewrite <- (Nat.add_0_r (length a)), insert_app_r. done.
Qed.

Lemma length_setitem l idx v l' : setitem l idx v = Some l' → length l' = length l.
Proof.
  unfold setitem. intros H. apply bind_Some in H as (i & _ & [= <-]).
  apply length_insert.
Qed.

Lemma length_fill n : ∀ l idx l',
  Generator.fill l idx n = Some l' → length l' = length l.
Proof.
  induction n as [|n IH]; intros l idx l'; simpl.
  - by intros [= <-].
  - intros H. apply bind_Some in H as (l1 & H1 & H2).
    apply IH in H2. apply length_setitem in H1. congruence.
Qed.

Lemma length_paint ps : ∀ l l',
  Generator.paint l ps = Some l' → length l' = length l.
Proof.
  induction ps as [|p ps IH]; intros l l'; simpl.
  - by intros [= <-].
  - intros H. apply bind_Some in H as (l1 & H1 & H2).
    apply IH in H2. apply length_fill in H1. congruence.
Qed.

(** Filling [k'] cells at the end of [a] turns the zeros there into ones. *)
Lemma fill_zeros k' : ∀ (a : line) k,
  k' ≤ k →
  Generator.fill (a ++ replicate k 0%Z) (Z.of_nat (length a)) k'
  = Some (a ++ replicate k' 1%Z ++ replicate (k - k') 0%Z).
Proof.
  induction k' as [|k' IH]; intros a k Hk.
  - simpl. by rewrite Nat.sub_0_r.
  - destruct k as [|k]; [lia|].
    cbn [Generator.fill replicate]. rewrite setitem_middle. simpl.
    replace (a ++ 1%Z :: replicate k 0%Z) with ((a ++ [1%Z]) ++ replicate k 0%Z)
      by by rewrite <- app_assoc.
    replace (Z.of_nat (length a) + 1)%Z with (Z.of_nat (length (a ++ [1%Z])))
      by (rewrite length_app; simpl; lia).
    rewrite IH by lia. by rewrite <- app_assoc.
Qed.

Lemma fill_zeros_at (a : line) k k' idx :
  idx = Z.of_nat (length a) → k' ≤ k →
  Generator.fill (a ++ replicate k 0%Z) idx k'
  = Some (a ++ replicate k' 1%Z ++ replicate (k - k') 0%Z).
Proof. intros ->. apply fill_zeros. Qed.

(** Painting a placement on the blank remainder of a line draws its layout. *)
Lemma paint_layout length ps : ∀ (pre : line) pos,
  let e := Z.of_nat (List.length pre) in
  (e ≤ pos)%Z → placed length pos ps →
  Generator.paint (pre ++ replicate (Z.to_nat (Z.of_nat length - e)) 0%Z) ps
  = Some (pre ++ layout length e ps).
Proof.
  induction ps as [|[s b] ps IH]; intros pre pos e He Hp.
  - done.
  - destruct Hp as (Hs & Hb & Hle & Hp). simpl in Hs, Hb, Hle, Hp.
    cbn [Generator.paint layout fst snd].
    replace (Z.to_nat (Z.of_nat length - e)) with
      (Z.to_nat (s - e) + Z.to_nat (Z.of_nat length - s)) by lia.
    rewrite replicate_add, app_assoc.
    rewrite (fill_zeros_at _ _ _ s);
      [|rewrite length_app, length_replicate; lia|lia].
    simpl.
    set (pre' := (pre ++ replicate (Z.to_nat (s - e)) 0%Z) ++ replicate (Z.to_nat b) 1%Z).
    assert (Z.of_nat (List.length pre') = (s + b)%Z) as Hpre'.
    { unfold pre'. rewrite !length_app, !length_replicate. lia. }
    replace (Z.to_nat (Z.of_nat length - s) - Z.to_nat b) with
      (Z.to_nat (Z.of_nat length - Z.of_nat (List.length pre'))) by lia.
    rewrite app_assoc. fold pre'.
    rewrite (IH pre' (s + b + 1)%Z); [|lia|done].
    rewrite Hpre'. unfold pre'. by rewrite <- !app_assoc.
Qed.

End painting.

Section positions.

Lemma place_loop_Forall ok rec (Q : line → Prop) n : ∀ start lines,
  (∀ st r, (start ≤ st < start + Z.of_nat n)%Z → rec st = Some r → Forall Q r) →
  Generator.place_loop ok rec n start = Some lines → Forall Q lines.
Proof.
  induction n as [|n IH]; intros start lines Hrec; simpl.
  - by intros [= <-].
  - assert (∀ ls, Generator.place_loop ok rec n (start + 1) = Some ls → Forall Q ls)
      as Hrest.
    { intros ls. apply IH. intros st r Hst. apply Hrec. lia. }
    destruct (ok start); [|by apply Hrest].
    intros H. apply bind_Some in H as (r & Hr & H).
    apply bind_Some in H as (rs & Hrs & [= <-]).
    apply Forall_app; split; [|by apply Hrest].
    apply (Hrec start); [lia|done].
Qed.

Lemma place_loop_total ok rec n : ∀ start,
  (∀ st, (start ≤ st < start + Z.of_nat n)%Z → is_Some (rec st)) →
  is_Some (Generator.place_loop ok rec n start).
Proof.
  induction n as [|n IH]; intros start Hrec; simpl; [done|].
  destruct (IH (start + 1)%Z) as [rs Hrs].
  { intros st Hst. apply Hrec. lia. }
  destruct (ok start); [|by rewrite Hrs].
  destruct (Hrec start) as [r Hr]; [lia|].
  rewrite Hr, Hrs. done.
Qed.

Lemma placed_app length ps : ∀ pos qs,
  placed length pos (ps ++ qs) ↔
  placed length pos ps ∧ placed length (next_pos pos ps) qs.
Proof.
  induction ps as [|p ps IH]; intros pos qs; simpl.
  - unfold next_pos. simpl. tauto.
  - rewrite IH. unfold next_pos. simpl. tauto.
Qed.

Lemma next_pos_snoc pos ps p : next_pos pos (ps ++ [p]) = (p.1 + p.2 + 1)%Z.
Proof. unfold next_pos. by rewrite foldl_app. Qed.

Lemma sum_nonneg bs : Forall (λ b, 0 < b)%Z bs → (0 ≤ sum bs)%Z.
Proof. induction 1; simpl; lia. Qed.

(** Every line of [generate_positions] has the requested length, whatever
    the blocks are. *)
Lemma generate_positions_length length current : ∀ pos_list pos lines,
  Generator.generate_positions length pos_list pos current = Some lines →
  Forall (λ l, List.length l = length) lines.
Proof.
  induction current as [|block rest IH]; intros pos_list pos lines; simpl.
  - intros H. apply bind_Some in H as (l & Hl & [= <-]).
    apply length_paint in Hl. rewrite length_replicate in Hl.
    by apply Forall_singleton.
  - apply place_loop_Forall. intros st r _. apply IH.
Qed.

(** With positive blocks, the recursion extends a placement in every
    possible way and never subscripts outside the line. *)
Lemma generate_positions_sound length current : ∀ pos_list pos lines,
  Forall (λ b, 0 < b)%Z current →
  placed length 0 pos_list → pos = next_pos 0 pos_list →
  Generator.generate_positions length pos_list pos current = Some lines →
  Forall (λ l, ∃ ps, ps.*2 = current ∧ placed length 0 (pos_list ++ ps) ∧
                     l = layout length 0 (pos_list ++ ps)) lines.
Proof.
  induction current as [|block rest IH]; intros pos_list pos lines Hpos Hpl Hnext.
  - simpl. intros H. apply bind_Some in H as (l & Hl & [= <-]).
    apply Forall_singleton. exists []. rewrite app_nil_r.
    split; [done|]. split; [done|].
    pose proof (paint_layout length pos_list [] 0%Z) as Hpaint.
    simpl in Hpaint. rewrite Z.sub_0_r, Nat2Z.id in Hpaint.
    rewrite Hpaint in Hl by done. change (Z.of_nat 0) with 0%Z in Hl. congruence.
  - apply Forall_cons in Hpos as [Hb Hrest].
    cbn [Generator.generate_positions].
    apply place_loop_Forall. intros st r Hst Hr.
    pose proof (sum_nonneg _ Hrest) as Hsum.
    assert (placed length 0 (pos_list ++ [(st, block)])) as Hpl'.
    { apply placed_app. split; [done|]. rewrite <- Hnext. simpl.
      unfold len in Hst. simpl in Hst. lia. }
    apply IH in Hr; [|done|done|by rewrite next_pos_snoc].
    eapply Forall_impl; [exact Hr|]. intros l (ps & Hps & Hplaced & ->).
    exists ((st, block) :: ps). rewrite <- Hps.
    rewrite <- app_assoc in Hplaced. rewrite <- app_assoc. done.
Qed.

Lemma generate_positions_total length current : ∀ pos_list pos,
  Forall (λ b, 0 < b)%Z current →
  placed length 0 pos_list → pos = next_pos 0 pos_list →
  is_Some (Generator.generate_positions length pos_list pos current).
Proof.
  induction current as [|block rest IH]; intros pos_list pos Hpos Hpl Hnext.
  - simpl. pose proof (paint_layout length pos_list [] 0%Z) as Hpaint.
    simpl in Hpaint. rewrite Z.sub_0_r, Nat2Z.id in Hpaint.
    rewrite Hpaint by done. done.
  - apply Forall_cons in Hpos as [Hb Hrest].
    cbn [Generator.generate_positions].
    apply place_loop_total. intros st Hst.
    pose proof (sum_nonneg _ Hrest) as Hsum.
    apply IH; [done| |by rewrite next_pos_snoc].
    apply placed_app. split; [done|]. rewrite <- Hnext. simpl.
    unfold len in Hst. simpl in Hst. lia.
Qed.

Lemma generate_line_possibilities_length blocks length lines :
  Generator.generate_line_possibilities blocks length = Some lines →
  Forall (λ l, List.length l = length) lines.
Proof.
  unfold Generator.generate_line_possibilities. destruct blocks as [|b bs].
  - intros [= <-]. apply Forall_singleton, length_replicate.
  - case_bool_decide; [by intros [= <-]|]. apply generate_positions_length.
Qed.

End positions.

Section generator_claims.

Lemma place_loop_const ok rec (x : line) n : ∀ start,
  (∀ st, ok st = true) → (∀ st, rec st = Some [x]) →
  Generator.place_loop ok rec n start = Some (replicate n x).
Proof.
  intros start Hok Hrec. revert start.
  induction n as [|n IH]; intros start; simpl; [done|].
  by rewrite Hok, Hrec, IH.
Qed.

Lemma remove_dups_replicate (x : line) n : remove_dups (replicate (S n) x) = [x].
Proof.
  induction n as [|n IH]; [done|].
  change (replicate (S (S n)) x) with (x :: replicate (S n) x).
  cbn [remove_dups].
  destruct (decide_rel (∈) x (replicate (S n) x)) as [_|Hn]; [done|].
  destruct Hn. simpl. apply list_elem_of_here.
Qed.

(** A clue that needs more cells than the line has yields no possibility. *)
Lemma too_long_clue_empty blocks length :
  (sum blocks + len blocks - 1 > Z.of_nat length)%Z →
  Generator.generate_line_possibilities blocks length = Some [].
Proof.
  intros Hlong. unfold Generator.generate_line_possibilities.
  destruct blocks as [|b bs].
  - unfold len in Hlong. simpl in Hlong. lia.
  - rewrite bool_decide_eq_true_2; [done|]. lia.
Qed.

Lemma generate_zero_block length :
  Generator.generate_line_possibilities [0%Z] length
  = Some (replicate (S length) (replicate length 0%Z)).
Proof.
  unfold Generator.generate_line_possibilities.
  rewrite bool_decide_eq_false_2 by (unfold len; simpl; lia).
  cbn [Generator.generate_positions].
  rewrite (place_loop_const _ _ (replicate length 0%Z)); [|done|done].
  do 2 f_equal. unfold len. simpl. lia.
Qed.

(** Each generated line is the drawing of a placement of the blocks. *)
Lemma generated_line_placement blocks length lines l :
  Forall (λ b, 0 < b)%Z blocks →
  Generator.generate_line_possibilities blocks length = Some lines → l ∈ lines →
  ∃ ps, ps.*2 = blocks ∧ placed length 0 ps ∧ l = layout length 0 ps.
Proof.
  intros Hpos Hgen Hl. unfold Generator.generate_line_possibilities in Hgen.
  destruct blocks as [|b bs].
  - injection Hgen as <-. apply list_elem_of_singleton in Hl as ->.
    exists []. simpl. by rewrite Z.sub_0_r, Nat2Z.id.
  - case_bool_decide; [injection Hgen as <-; by apply elem_of_nil in Hl|].
    apply generate_positions_sound in Hgen; [|done..].
    rewrite Forall_forall in Hgen. by apply Hgen.
Qed.

Lemma generate_line_possibilities_total blocks length :
  Forall (λ b, 0 < b)%Z blocks →
  is_Some (Generator.generate_line_possibilities blocks length).
Proof.
  intros Hpos. unfold Generator.generate_line_possibilities.
  destruct blocks; [done|].
  case_bool_decide; [done|]. by apply generate_positions_total.
Qed.

(** C5: for positive blocks the generator returns normally, and every line
    it returns has the requested length, has exactly [blocks] as the lengths
    of its maximal runs of filled cells, and is the drawing of a placement:
    blocks in order, at least one empty cell between two consecutive blocks,
    and empty cells everywhere else. *)
Theorem generator_lines_match_blocks (blocks : list Z) (length : nat) :
  Forall (λ b, 0 < b)%Z blocks →
  ∃ lines, Generator.generate_line_possibilities blocks length = Some lines ∧
    ∀ l, l ∈ lines →
      List.length l = length ∧ filled_runs l = blocks ∧
      ∃ ps, ps.*2 = blocks ∧ placed length 0 ps ∧ l = layout length 0 ps.
Proof.
  intros Hpos.
  destruct (generate_line_possibilities_total blocks length Hpos) as [lines Hgen].
  exists lines. split; [done|]. intros l Hl.
  pose proof (generate_line_possibilities_length _ _ _ Hgen) as Hlen.
  rewrite Forall_forall in Hlen. split; [by apply Hlen|].
  destruct (generated_line_placement _ _ _ _ Hpos Hgen Hl) as (ps & Hps & Hpl & ->).
  split; [|by exists ps].
  rewrite <- Hps. by apply filled_runs_layout.
Qed.

Lemma generator_lines_match_blocks_witness :
  Forall (λ b, 0 < b)%Z [1; 2]%Z ∧
  ∃ lines, Generator.generate_line_possibilities [1; 2]%Z 5 = Some lines ∧
    ∀ l, l ∈ lines →
      List.length l = 5 ∧ filled_runs l = [1; 2]%Z ∧
      ∃ ps, ps.*2 = [1; 2]%Z ∧ placed 5 0 ps ∧ l = layout 5 0 ps.
Proof.
  assert (Forall (λ b, 0 < b)%Z [1; 2]%Z) as H by (repeat constructor; lia).
  split; [exact H|]. exact (generator_lines_match_blocks [1; 2]%Z 5 H).
Defined.

Lemma generate_domains_single blocks length :
  Generator._generate_domains [blocks] length
  = (λ lines, [remove_dups lines]) <$> Generator.generate_line_possibilities blocks length.
Proof.
  unfold Generator._generate_domains. cbn [mapM].
  by destruct (Generator.generate_line_possibilities blocks length).
Qed.

(** C10: the clue [[0]], which [extract_clues] emits for a blank line,
    gives the same domain as the empty clue: the single all-empty line. *)
Theorem zero_clue_domain (length : nat) :
  extract_clues (replicate length 0%Z) = [0%Z] ∧
  Generator._generate_domains [[0%Z]] length = Some [[replicate length 0%Z]] ∧
  Generator._generate_domains [[0%Z]] length = Generator._generate_domains [[]] length.
Proof.
  assert (Generator._generate_domains [[0%Z]] length = Some [[replicate length 0%Z]]) as H0.
  { rewrite generate_domains_single, generate_zero_block.
    cbn [fmap option_fmap option_map]. by rewrite remove_dups_replicate. }
  split; [|split; [done|]].
  - unfold extract_clues, filled_runs. by rewrite runs_from_all_zeros.
  - rewrite H0. done.
Qed.

End generator_claims.

Lemma layout_binary length ps : ∀ off,
  Forall (λ v, v = 0%Z ∨ v = 1%Z) (layout length off ps).
Proof.
  induction ps as [|[s b] ps IH]; intros off; simpl.
  - apply Forall_replicate. by left.
  - apply Forall_app; split; [apply Forall_replicate; by left|].
    apply Forall_app; split; [apply Forall_replicate; by right|]. apply IH.
Qed.

(** * Facts about propagation and search *)

Section orders.

Global Instance cell_le_po : PreOrder cell_le.
Proof.
  split.
  - intros c. by left.
  - intros a b c Hab Hbc. destruct Hab as [->|[-> Hb]]; [done|].
    destruct Hbc as [->|[-> Hc]]; [by right|]. by destruct Hb.
Qed.

Global Instance grid_le_po : PreOrder grid_le.
Proof. change (PreOrder (Forall2 (Forall2 cell_le))). apply _. Qed.

Global Instance doms_le_po : PreOrder doms_le.
Proof.
  unfold doms_le. split.
  - intros ds. apply Forall2_same_length_lookup_2; [done|].
    intros i x y ? ?. by simplify_eq.
  - intros a b c Hab Hbc. eapply Forall2_trans; [|done..].
    simpl. intros x y z ? ?. by transitivity y.
Qed.

Global Instance domains_le_po : PreOrder domains_le.
Proof.
  unfold domains_le. split.
  - intros s. split; reflexivity.
  - intros a b c [? ?] [? ?]. split; etransitivity; eauto.
Qed.

Global Instance state_le_po : PreOrder state_le.
Proof.
  unfold state_le. split.
  - intros s. split; [done|]. split; [done|]. split; reflexivity.
  - intros a b c (? & ? & ? & ?) (? & ? & ? & ?).
    split; [congruence|]. split; [congruence|]. split; etransitivity; eauto.
Qed.

Global Instance search_le_po : PreOrder search_le.
Proof.
  unfold search_le. split.
  - intros s. split; [done|]. split; [done|]. split; [|reflexivity].
    apply Forall2_same_length_lookup_2; [done|]. intros; by simplify_eq.
  - intros a b c (? & ? & Hab & ?) (? & ? & Hbc & ?).
    split; [congruence|]. split; [congruence|]. split; [|etransitivity; eauto].
    eapply Forall2_trans; [|done..]. simpl. congruence.
Qed.

Lemma state_le_search_le s s' : state_le s s' → search_le s s'.
Proof.
  intros (? & ? & Hg & ?). split; [done|]. split; [done|]. split; [|done].
  eapply Forall2_impl; [exact Hg|]. intros r r' Hr. simpl.
  by apply Forall2_length in Hr.
Qed.

Lemma doms_le_insert ds i d :
  d ⊆ dom_at ds i → doms_le ds (<[i:=d]> ds).
Proof.
  intros Hd. apply Forall2_same_length_lookup_2; [by rewrite length_insert|].
  intros k x y Hx Hy. destruct (decide (i = k)) as [->|Hne].
  - rewrite list_lookup_insert_eq in Hy by (by eapply lookup_lt_Some).
    simplify_eq. unfold dom_at in Hd. by rewrite Hx in Hd.
  - rewrite list_lookup_insert_ne in Hy by done. by simplify_eq.
Qed.

Lemma cell_at_lookup g i j row :
  g !! i = Some row → cell_at g i j = default None (row !! j).
Proof. unfold cell_at. by intros ->. Qed.

Lemma grid_le_set g i j v :
  cell_at g i j = None → grid_le g (alter (λ row, <[j:=Some v]> row) i g).
Proof.
  intros Hc. apply Forall2_alter_r; [reflexivity|].
  intros row row' Hrow Hrow' _. simplify_eq.
  apply Forall2_same_length_lookup_2; [by rewrite length_insert|].
  intros k c c' Hk Hk'. destruct (decide (j = k)) as [->|Hne].
  - rewrite list_lookup_insert_eq in Hk' by (by eapply lookup_lt_Some).
    simplify_eq. rewrite (cell_at_lookup _ _ _ _ Hrow), Hk in Hc. simpl in Hc.
    subst. by right.
  - rewrite list_lookup_insert_ne in Hk' by done. simplify_eq. by left.
Qed.

End orders.

(** ** Executions as chains *)

Section chains.

Context (R : relation state) `{!PreOrder R}.

Lemma chain_nil a : chain R a [] a.
Proof. split; [|done]. repeat constructor. Qed.

Lemma chain_le a t b : chain R a t b → R a b.
Proof.
  intros [Hs Hl]. apply StronglySorted_cons in Hs as [Hall _].
  destruct t as [|x t].
  - simpl in Hl. simplify_eq. reflexivity.
  - rewrite Forall_forall in Hall. apply Hall.
    apply last_Some_elem_of. by rewrite last_cons_cons in Hl.
Qed.

Lemma chain_cons a b t c : R a b → chain R b t c → chain R a (b :: t) c.
Proof.
  intros Hab [Hs Hl]. split; [|by rewrite last_cons_cons].
  apply StronglySorted_cons. split; [|done].
  apply StronglySorted_cons in Hs as [Hall _].
  constructor; [done|]. eapply Forall_impl; [exact Hall|].
  intros x Hx. by transitivity b.
Qed.

Lemma chain_app a t1 b t2 c : chain R a t1 b → chain R b t2 c → chain R a (t1 ++ t2) c.
Proof.
  revert a. induction t1 as [|x t1 IH]; intros a H1 H2.
  - destruct H1 as [_ H1]. simpl in H1. by simplify_eq.
  - destruct H1 as [Hs Hl]. rewrite last_cons_cons in Hl.
    apply StronglySorted_cons in Hs as [Hall Hs].
    simpl. apply chain_cons; [by inversion Hall|].
    apply IH; [|done]. by split.
Qed.

Lemma chain_sorted a t b : chain R a t b → StronglySorted R (a :: t).
Proof. by intros [? _]. Qed.

End chains.

Lemma chain_impl (R R' : relation state) a t b :
  (∀ x y, R x y → R' x y) → chain R a t b → chain R' a t b.
Proof.
  intros HR [Hs Hl]. split; [|done]. clear Hl.
  induction Hs as [|x l Hs IH Hall]; constructor; [done|].
  eapply Forall_impl; [exact Hall|]. auto.
Qed.

(** ** The loop bodies *)

Section steps.

Lemma filter_subseteq_dom (P : line → Prop) `{!∀ p, Decision (P p)} (d : domain) :
  filter P d ⊆ d.
Proof. intros x Hx. by apply list_elem_of_filter in Hx as [_ ?]. Qed.

Lemma state_le_set_row s i (P : line → Prop) `{!∀ p, Decision (P p)} :
  state_le s (set_row_domain s i (filter P (dom_at (row_domains s) i))).
Proof.
  split; [done|]. split; [done|]. split; [reflexivity|].
  split; [|simpl; reflexivity]. simpl. apply doms_le_insert, filter_subseteq_dom.
Qed.

Lemma state_le_set_col s j (P : line → Prop) `{!∀ p, Decision (P p)} :
  state_le s (set_col_domain s j (filter P (dom_at (col_domains s) j))).
Proof.
  split; [done|]. split; [done|]. split; [reflexivity|].
  split; [simpl; reflexivity|]. simpl. apply doms_le_insert, filter_subseteq_dom.
Qed.

Lemma state_le_set_cell s i j v :
  cell_at (grid s) i j = None → state_le s (set_cell s i j (Some v)).
Proof.
  intros Hc. split; [done|]. split; [done|].
  split; [|split; simpl; reflexivity].
  by apply grid_le_set.
Qed.

Lemma search_le_set_cell s i j c : search_le s (set_cell s i j c).
Proof.
  split; [done|]. split; [done|]. split; [|split; simpl; reflexivity]. simpl.
  apply Forall2_alter_r.
  - apply Forall2_same_length_lookup_2; [done|]. intros; by simplify_eq.
  - intros row row' _ _ ->. by rewrite length_insert.
Qed.

(** What one iteration of the row loop can do. *)
Lemma row_step_cases i s changed :
  let new_domain := filter (λ p, row_valid (grid s) i p) (dom_at (row_domains s) i) in
  (new_domain = [] ∧ row_step i (s, changed) = Returned s) ∨
  (new_domain ≠ [] ∧ set_neq new_domain (dom_at (row_domains s) i) = true ∧
   row_step i (s, changed) = Running (set_row_domain s i new_domain, true)) ∨
  (new_domain ≠ [] ∧ set_neq new_domain (dom_at (row_domains s) i) = false ∧
   row_step i (s, changed) = Running (s, changed)).
Proof.
  intros new_domain. unfold row_step. fold new_domain.
  destruct new_domain as [|p d] eqn:Hnew; [by left|]. right.
  destruct (set_neq (p :: d) (dom_at (row_domains s) i)); [left|right]; done.
Qed.

Lemma col_step_cases j s changed :
  let new_domain := filter (λ p, col_valid (grid s) j p) (dom_at (col_domains s) j) in
  (new_domain = [] ∧ col_step j (s, changed) = Returned s) ∨
  (new_domain ≠ [] ∧ set_neq new_domain (dom_at (col_domains s) j) = true ∧
   col_step j (s, changed) = Running (set_col_domain s j new_domain, true)) ∨
  (new_domain ≠ [] ∧ set_neq new_domain (dom_at (col_domains s) j) = false ∧
   col_step j (s, changed) = Running (s, changed)).
Proof.
  intros new_domain. unfold col_step. fold new_domain.
  destruct new_domain as [|p d] eqn:Hnew; [by left|]. right.
  destruct (set_neq (p :: d) (dom_at (col_domains s) j)); [left|right]; done.
Qed.

Lemma cell_step_cases i j s changed :
  (∃ v, cell_at (grid s) i j = None ∧ common_values s i j = [v] ∧
        cell_step (i, j) (s, changed) = Running (set_cell s i j (Some v), true)) ∨
  ((is_Some (cell_at (grid s) i j) ∨ length (common_values s i j) ≠ 1) ∧
   cell_step (i, j) (s, changed) = Running (s, changed)).
Proof.
  unfold cell_step. destruct (cell_at (grid s) i j) as [c|] eqn:Hc.
  - right. split; [left; by eexists|done].
  - destruct (common_values s i j) as [|v [|v' vs]] eqn:Hcv.
    + right. split; [right; done|done].
    + left. by exists v.
    + right. split; [right; done|done].
Qed.

Lemma row_step_le i sc :
  match row_step i sc with
  | Running sc' => state_le sc.1 sc'.1
  | Returned s' => state_le sc.1 s'
  end.
Proof.
  destruct sc as [s ch].
  destruct (row_step_cases i s ch) as [[_ ->]|[(_ & _ & ->)|(_ & _ & ->)]];
    simpl; try reflexivity.
  apply state_le_set_row.
Qed.

Lemma col_step_le j sc :
  match col_step j sc with
  | Running sc' => state_le sc.1 sc'.1
  | Returned s' => state_le sc.1 s'
  end.
Proof.
  destruct sc as [s ch].
  destruct (col_step_cases j s ch) as [[_ ->]|[(_ & _ & ->)|(_ & _ & ->)]];
    simpl; try reflexivity.
  apply state_le_set_col.
Qed.

Lemma cell_step_le ij sc :
  match cell_step ij sc with
  | Running sc' => state_le sc.1 sc'.1
  | Returned s' => state_le sc.1 s'
  end.
Proof.
  destruct sc as [s ch], ij as [i j].
  destruct (cell_step_cases i j s ch) as [(v & Hc & _ & ->)|[_ ->]]; simpl.
  - by apply state_le_set_cell.
  - reflexivity.
Qed.

End steps.

(** ** Loops *)

Section loops.

Context (R : relation state) `{!PreOrder R}.

Lemma for_each_chain {A} (body : A → state * bool → flow (state * bool)) l :
  (∀ a sc, match body a sc with
           | Running sc' => R sc.1 sc'.1
           | Returned s' => R sc.1 s'
           end) →
  ∀ sc, chain R sc.1 (for_each_trace body l sc)
          match for_each body l sc with
          | Running sc' => sc'.1
          | Returned s' => s'
          end.
Proof.
  intros Hbody. induction l as [|a l IH]; intros sc; simpl.
  - apply chain_nil.
  - specialize (Hbody a sc). destruct (body a sc) as [s'|sc'].
    + apply chain_cons; [done..|]. apply chain_nil.
    + apply chain_cons; [done..|]. apply IH.
Qed.

End loops.

Lemma pass_chain s : chain state_le s (pass_trace s) (flow_state (pass s)).
Proof.
  unfold pass, pass_trace.
  pose proof (for_each_chain state_le row_step (seq 0 (height s)) row_step_le (s, false)) as H1.
  destruct (for_each row_step (seq 0 (height s)) (s, false)) as [s1|sc1]; [done|].
  pose proof (for_each_chain state_le col_step (seq 0 (width s)) col_step_le sc1) as H2.
  destruct (for_each col_step (seq 0 (width s)) sc1) as [s2|sc2].
  { eapply chain_app; [apply _|exact H1|exact H2]. }
  pose proof (for_each_chain state_le cell_step (cells (height s) (width s))
                cell_step_le sc2) as H3.
  eapply chain_app; [apply _|exact H1|].
  eapply chain_app; [apply _|exact H2|]. exact H3.
Qed.

Lemma update_chain fuel : ∀ s,
  ∃ e, chain state_le s (update_trace fuel s) e ∧
       ∀ b s', update_loop fuel s = Some (b, s') → s' = e.
Proof.
  induction fuel as [|fuel IH]; intros s; simpl.
  - exists s. split; [apply chain_nil|done].
  - pose proof (pass_chain s) as Hp.
    destruct (pass s) as [s1|[s1 [|]]]; simpl in Hp.
    + exists s1. rewrite app_nil_r. split; [done|]. by intros b s' [= _ <-].
    + destruct (IH s1) as (e & He & Hres). exists e. split; [|done].
      eapply chain_app; [apply _|exact Hp|exact He].
    + exists s1. rewrite app_nil_r. split; [done|]. by intros b s' [= _ <-].
Qed.

(** ** Shape preservation *)

Section shape.

Lemma doms_le_lines n ds ds' :
  doms_le ds ds' →
  Forall (Forall (λ p : line, length p = n)) ds →
  Forall (Forall (λ p : line, length p = n)) ds'.
Proof.
  intros Hle Hds. apply Forall_lookup. intros i d' Hd'.
  destruct (Forall2_lookup_r _ _ _ _ _ Hle Hd') as (d & Hd & Hsub).
  rewrite Forall_lookup in Hds. specialize (Hds i d Hd).
  rewrite Forall_forall in Hds. apply Forall_forall. intros p Hp.
  apply Hds, Hsub, Hp.
Qed.

Lemma wf_search_le s s' : wf s → search_le s s' → wf s'.
Proof.
  intros [H1 H2 H3 H4 H5 H6] (Hh & Hw & Hg & Hr & Hc).
  split.
  - rewrite <- Hh, <- H1. symmetry. by eapply Forall2_length.
  - apply Forall_lookup. intros i row' Hrow'.
    destruct (Forall2_lookup_r _ _ _ _ _ Hg Hrow') as (row & Hrow & Hlen).
    rewrite Forall_lookup in H2. rewrite <- Hw, <- Hlen. by eapply H2.
  - rewrite <- Hh, <- H3. symmetry. by eapply Forall2_length.
  - rewrite <- Hw, <- H4. symmetry. by eapply Forall2_length.
  - rewrite <- Hw. by eapply doms_le_lines.
  - rewrite <- Hh. by eapply doms_le_lines.
Qed.

Lemma wf_state_le s s' : wf s → state_le s s' → wf s'.
Proof. intros ? ?. eapply wf_search_le; [done|]. by apply state_le_search_le. Qed.

Lemma elem_of_cells h w i j : (i, j) ∈ cells h w ↔ i < h ∧ j < w.
Proof.
  unfold cells. rewrite list_elem_of_cprod. simpl.
  rewrite !elem_of_seq. lia.
Qed.

Lemma wf_cell_in_range s i j :
  wf s → i < height s → j < width s →
  ∃ row, grid s !! i = Some row ∧ j < length row.
Proof.
  intros [H1 H2 _ _ _ _] Hi Hj.
  destruct (lookup_lt_is_Some_2 (grid s) i) as [row Hrow]; [lia|].
  exists row. split; [done|]. rewrite Forall_lookup in H2.
  rewrite (H2 i row Hrow). done.
Qed.

End shape.

(** ** Progress measure *)

Section measure.

Lemma dom_size_insert ds i (old new : domain) :
  ds !! i = Some old →
  dom_size (<[i:=new]> ds) + length old = dom_size ds + length new.
Proof.
  unfold dom_size. revert i. induction ds as [|d ds IH]; intros [|i] Hi; simplify_eq/=.
  - lia.
  - specialize (IH i Hi). lia.
Qed.

Lemma unknowns_row_set (row : list cell) j v :
  row !! j = Some None →
  S (length (filter (λ c : cell, c = None) (<[j:=Some v]> row)))
  = length (filter (λ c : cell, c = None) row).
Proof.
  revert j. induction row as [|c row IH]; intros [|j] Hj; [done..| |].
  - injection Hj as ->. change (<[0:=Some v]> (None :: row)) with (Some v :: row).
    rewrite filter_cons_False by done. by rewrite filter_cons_True by done.
  - specialize (IH j Hj).
    change (<[S j:=Some v]> (c :: row)) with (c :: <[j:=Some v]> row).
    destruct c as [x|].
    + rewrite !filter_cons_False by done. done.
    + rewrite !filter_cons_True by done. simpl. lia.
Qed.

Lemma unknowns_set g i j v row :
  g !! i = Some row → row !! j = Some None →
  S (unknowns (alter (λ row, <[j:=Some v]> row) i g)) = unknowns g.
Proof.
  unfold unknowns. revert i. induction g as [|r g IH]; intros [|i] Hi Hj; simplify_eq/=.
  - rewrite <- (unknowns_row_set row j v Hj). lia.
  - specialize (IH i Hi Hj). lia.
Qed.

Lemma unknowns_row_le (row row' : list cell) :
  Forall2 cell_le row row' →
  length (filter (λ c : cell, c = None) row') ≤ length (filter (λ c : cell, c = None) row).
Proof.
  induction 1 as [|c c' row row' Hc _ IH]; [done|].
  destruct Hc as [->|[-> [x ->]]].
  - destruct c as [x|].
    + by rewrite !filter_cons_False by done.
    + rewrite !filter_cons_True by done. simpl. lia.
  - rewrite filter_cons_False by done. rewrite filter_cons_True by done.
    simpl. lia.
Qed.

Lemma unknowns_le g g' : grid_le g g' → unknowns g' ≤ unknowns g.
Proof.
  unfold unknowns. induction 1 as [|r r' g g' Hr _ IH]; simpl; [done|].
  apply unknowns_row_le in Hr. lia.
Qed.

Lemma forallb_elem_of (a b : domain) :
  forallb (λ x, bool_decide (x ∈ b)) a = true ↔ a ⊆ b.
Proof.
  rewrite forallb_forall. split.
  - intros H x Hx. apply list_elem_of_In, H in Hx.
    by apply bool_decide_eq_true in Hx.
  - intros H x Hx. apply bool_decide_eq_true, H, list_elem_of_In, Hx.
Qed.

(** Python's [!=] on sets. *)
Lemma set_neq_false (a b : domain) : set_neq a b = false ↔ a ⊆ b ∧ b ⊆ a.
Proof.
  unfold set_neq. rewrite negb_false_iff, andb_true_iff, !forallb_elem_of. done.
Qed.

Lemma filter_all (P : line → Prop) `{!∀ p, Decision (P p)} (d : domain) :
  Forall P d → filter P d = d.
Proof.
  induction 1 as [|x d Hx _ IH]; [done|].
  rewrite filter_cons_True by done. by rewrite IH.
Qed.

(** When Python finds the two sets different, the filter has removed a
    possibility. *)
Lemma set_neq_filter (P : line → Prop) `{!∀ p, Decision (P p)} (d : domain) :
  set_neq (filter P d) d = true → length (filter P d) < length d.
Proof.
  intros Hneq. destruct (decide (Forall P d)) as [Hall|Hnall].
  - rewrite filter_all in Hneq by done.
    assert (set_neq d d = false) as Hdd by by apply set_neq_false.
    congruence.
  - apply not_Forall_Exists in Hnall; [|apply _].
    apply Exists_exists in Hnall as (x & Hx & HnP).
    by apply (length_filter_lt _ _ x).
Qed.

(** When it finds them equal, every possibility passed the filter. *)
Lemma set_eq_filter (P : line → Prop) `{!∀ p, Decision (P p)} (d : domain) :
  set_neq (filter P d) d = false → Forall P d.
Proof.
  intros Heq. apply set_neq_false in Heq as [_ Heq]. apply Forall_forall.
  intros x Hx. apply Heq in Hx. by apply list_elem_of_filter in Hx as [? _].
Qed.

End measure.

(** ** Progress of one pass *)

Section progress.

Lemma dom_at_nonempty ds i (d : domain) :
  dom_at ds i = d → d ≠ [] → ds !! i = Some d.
Proof.
  unfold dom_at. destruct (ds !! i) as [d'|]; simpl; [by intros ->|].
  by intros <-.
Qed.

Lemma filter_nonempty (P : line → Prop) `{!∀ p, Decision (P p)} (d : domain) :
  filter P d ≠ [] → d ≠ [].
Proof. by intros Hne ->. Qed.

Lemma row_step_progress i s ch :
  match row_step i (s, ch) with
  | Running (s', ch') => idle_or_progress s ch s' ch'
  | Returned s' => s' = s
  end.
Proof.
  destruct (row_step_cases i s ch) as [[_ ->]|[(Hne & Hneq & ->)|(_ & _ & ->)]];
    [done| |by left].
  right. split; [done|].
  apply set_neq_filter in Hneq. apply filter_nonempty in Hne.
  pose proof (dom_at_nonempty _ _ _ eq_refl Hne) as Hi.
  pose proof (dom_size_insert (row_domains s) i _
    (filter (λ p, row_valid (grid s) i p) (dom_at (row_domains s) i)) Hi) as Hsz.
  unfold work. simpl. lia.
Qed.

Lemma col_step_progress j s ch :
  match col_step j (s, ch) with
  | Running (s', ch') => idle_or_progress s ch s' ch'
  | Returned s' => s' = s
  end.
Proof.
  destruct (col_step_cases j s ch) as [[_ ->]|[(Hne & Hneq & ->)|(_ & _ & ->)]];
    [done| |by left].
  right. split; [done|].
  apply set_neq_filter in Hneq. apply filter_nonempty in Hne.
  pose proof (dom_at_nonempty _ _ _ eq_refl Hne) as Hj.
  pose proof (dom_size_insert (col_domains s) j _
    (filter (λ p, col_valid (grid s) j p) (dom_at (col_domains s) j)) Hj) as Hsz.
  unfold work. simpl. lia.
Qed.

Lemma cell_at_None_lookup g i j row :
  g !! i = Some row → j < length row → cell_at g i j = None → row !! j = Some None.
Proof.
  intros Hrow Hj. rewrite (cell_at_lookup _ _ _ _ Hrow).
  destruct (lookup_lt_is_Some_2 row j Hj) as [c ->]. simpl. by intros ->.
Qed.

Lemma unknowns_set_cell s i j v :
  wf s → i < height s → j < width s → cell_at (grid s) i j = None →
  S (unknowns (grid (set_cell s i j (Some v)))) = unknowns (grid s).
Proof.
  intros Hwf Hi Hj Hc.
  destruct (wf_cell_in_range s i j Hwf Hi Hj) as (row & Hrow & Hlen).
  simpl. eapply unknowns_set; [done|]. by eapply cell_at_None_lookup.
Qed.

Lemma cell_step_progress i j s ch :
  wf s → i < height s → j < width s →
  match cell_step (i, j) (s, ch) with
  | Running (s', ch') => idle_or_progress s ch s' ch'
  | Returned s' => s' = s
  end.
Proof.
  intros Hwf Hi Hj.
  destruct (cell_step_cases i j s ch) as [(v & Hc & _ & ->)|[_ ->]]; [|by left].
  right. split; [done|].
  pose proof (unknowns_set_cell s i j v Hwf Hi Hj Hc) as Hu.
  unfold work. simpl in *. lia.
Qed.

Lemma within_le s0 s s' : within s0 s → state_le s s' → within s0 s'.
Proof.
  intros (Hwf & Hh & Hw) Hle. split; [by eapply wf_state_le|].
  destruct Hle as (? & ? & _). split; congruence.
Qed.

Lemma for_each_progress {A} (s0 : state) (ok : A → Prop)
    (body : A → state * bool → flow (state * bool)) l :
  (∀ a sc, match body a sc with
           | Running sc' => state_le sc.1 sc'.1
           | Returned s' => state_le sc.1 s'
           end) →
  (∀ a s ch, ok a → within s0 s →
     match body a (s, ch) with
     | Running (s', ch') => idle_or_progress s ch s' ch'
     | Returned s' => s' = s
     end) →
  Forall ok l → ∀ s ch, within s0 s →
  match for_each body l (s, ch) with
  | Running (s', ch') => within s0 s' ∧ idle_or_progress s ch s' ch'
  | Returned s' => within s0 s'
  end.
Proof.
  intros Hle Hbody. induction 1 as [|a l Ha _ IH]; intros s ch Hs; simpl.
  - split; [done|]. by left.
  - specialize (Hbody a s ch Ha Hs). specialize (Hle a (s, ch)).
    destruct (body a (s, ch)) as [s'|[s' ch']]; simpl in Hle.
    + by subst.
    + pose proof (within_le _ _ _ Hs Hle) as Hs'.
      specialize (IH s' ch' Hs').
      destruct (for_each body l (s', ch')) as [s''|[s'' ch'']]; [done|].
      destruct IH as [Hs'' IH]. split; [done|].
      unfold idle_or_progress in *.
      destruct Hbody as [[-> ->]|[-> Hlt]]; [done|].
      destruct IH as [[-> ->]|[-> Hlt']]; right; (split; [done|lia]).
Qed.

Lemma pass_progress s :
  wf s →
  match pass s with
  | Running (s', ch') => wf s' ∧ idle_or_progress s false s' ch'
  | Returned s' => wf s'
  end.
Proof.
  intros Hwf. assert (within s s) as Hs by done. unfold pass.
  pose proof (for_each_progress s (λ _, True) row_step (seq 0 (height s))
    row_step_le (λ i s1 ch _ _, row_step_progress i s1 ch)) as H1.
  specialize (H1 (Forall_true _ _ (λ _, I)) s false Hs).
  destruct (for_each row_step (seq 0 (height s)) (s, false)) as [s1|[s1 ch1]];
    [by destruct H1|].
  destruct H1 as [Hs1 Hp1].
  pose proof (for_each_progress s (λ _, True) col_step (seq 0 (width s))
    col_step_le (λ j s2 ch _ _, col_step_progress j s2 ch)) as H2.
  specialize (H2 (Forall_true _ _ (λ _, I)) s1 ch1 Hs1).
  destruct (for_each col_step (seq 0 (width s)) (s1, ch1)) as [s2|[s2 ch2]];
    [by destruct H2|].
  destruct H2 as [Hs2 Hp2].
  assert (∀ ij s3 ch, ij.1 < height s ∧ ij.2 < width s → within s s3 →
    match cell_step ij (s3, ch) with
    | Running (s', ch') => idle_or_progress s3 ch s' ch'
    | Returned s' => s' = s3
    end) as Hbody3.
  { intros [i j] s3 ch [Hi Hj] (Hwf3 & Hh3 & Hw3). simpl in Hi, Hj.
    apply cell_step_progress; [done|lia..]. }
  assert (Forall (λ ij, ij.1 < height s ∧ ij.2 < width s) (cells (height s) (width s)))
    as Hcells.
  { apply Forall_forall. intros [i j] Hij. by apply elem_of_cells in Hij. }
  pose proof (for_each_progress s _ cell_step _ cell_step_le Hbody3 Hcells s2 ch2 Hs2)
    as H3.
  destruct (for_each cell_step (cells (height s) (width s)) (s2, ch2)) as [s3|[s3 ch3]];
    [by destruct H3|].
  destruct H3 as [Hs3 Hp3]. split; [by destruct Hs3|].
  unfold idle_or_progress in *.
  destruct Hp1 as [[-> ->]|[-> Hlt1]];
  destruct Hp2 as [[-> ->]|[-> Hlt2]];
  destruct Hp3 as [[-> ->]|[-> Hlt3]];
    (by left) || (right; split; [done|lia]).
Qed.

Lemma update_loop_total fuel : ∀ s,
  wf s → work s < fuel →
  ∃ b s', update_loop fuel s = Some (b, s') ∧ wf s'.
Proof.
  induction fuel as [|fuel IH]; intros s Hwf Hfuel; [lia|]. simpl.
  pose proof (pass_progress s Hwf) as Hp.
  destruct (pass s) as [s1|[s1 [|]]].
  - by exists false, s1.
  - destruct Hp as [Hwf1 [[_ [=]]|[_ Hlt]]]. apply IH; [done|lia].
  - destruct Hp as [Hwf1 _]. by exists true, s1.
Qed.

End progress.

(** ** The fixpoint reached by [_update_domains] *)

Section fixpoint.

Lemma update_domains_total s :
  wf s → ∃ b s', _update_domains s = Some (b, s') ∧ wf s'.
Proof. intros Hwf. apply update_loop_total; [done|lia]. Qed.

Lemma update_domains_le s b s' : _update_domains s = Some (b, s') → state_le s s'.
Proof.
  intros H. destruct (update_chain (S (work s)) s) as (e & He & Hres).
  rewrite (Hres b s' H). by eapply chain_le; [apply _|].
Qed.

Lemma update_domains_fixpoint s :
  pass s = Running (s, false) → _update_domains s = Some (true, s).
Proof. intros H. unfold _update_domains. simpl. by rewrite H. Qed.

End fixpoint.

(** ** The most constrained cell *)

Section selection.

Lemma select_step_ok s best ij : best_ok s best → best_ok s (select_step s best ij).
Proof.
  intros Hb. destruct ij as [i j]. unfold select_step.
  destruct (cell_at (grid s) i j) eqn:Hc; [done|].
  destruct best as [[[n [i' j']] vals]|]; [|done].
  case_bool_decide; done.
Qed.

Lemma select_fold_ok s l : ∀ best,
  best_ok s best → best_ok s (foldl (select_step s) best l).
Proof.
  induction l as [|ij l IH]; intros best Hb; cbn [foldl]; [done|].
  by apply IH, select_step_ok.
Qed.

Lemma select_fold_pos s l : ∀ best n i j vals,
  foldl (select_step s) best l = Some (n, (i, j), vals) →
  best = Some (n, (i, j), vals) ∨ (i, j) ∈ l.
Proof.
  induction l as [|[i0 j0] l IH]; intros best n i j vals; cbn [foldl]; [by left|].
  intros H. apply IH in H as [H|H]; [|right; by right].
  unfold select_step in H. destruct (cell_at (grid s) i0 j0); [by left|].
  destruct best as [[[n' [i' j']] vals']|].
  - case_bool_decide; [|by left]. simplify_eq. right. left.
  - simplify_eq. right. left.
Qed.

Lemma select_fold_None s l : ∀ best,
  foldl (select_step s) best l = None →
  ∀ i j, (i, j) ∈ l → is_Some (cell_at (grid s) i j).
Proof.
  induction l as [|[i0 j0] l IH]; intros best H i j Hij; [by apply elem_of_nil in Hij|].
  cbn [foldl] in H. apply elem_of_cons in Hij as [[= -> ->]|Hij]; [|by eapply IH].
  destruct (cell_at (grid s) i0 j0) eqn:Hc; [done|]. exfalso.
  assert (∃ b, select_step s best (i0, j0) = Some b) as [b Hb].
  { unfold select_step. rewrite Hc. destruct best as [[[n' [i' j']] vals']|];
      [case_bool_decide|]; eauto. }
  rewrite Hb in H. clear -H. revert b H.
  induction l as [|[i1 j1] l IH]; intros b H; cbn [foldl] in H; [done|].
  assert (∃ b', select_step s (Some b) (i1, j1) = Some b') as [b' Hb'].
  { unfold select_step. destruct (cell_at (grid s) i1 j1); [eauto|].
    destruct b as [[n' [i' j']] vals']. case_bool_decide; eauto. }
  rewrite Hb' in H. by eapply IH.
Qed.

Lemma select_Some s n i j vals :
  select s = Some (n, (i, j), vals) →
  cell_at (grid s) i j = None ∧ i < height s ∧ j < width s ∧
  vals = common_values s i j.
Proof.
  intros H. unfold select in H.
  pose proof (select_fold_ok s (cells (height s) (width s)) None I) as Hok.
  rewrite H in Hok. destruct Hok as (Hc & Hv & _).
  apply select_fold_pos in H as [?|Hij]; [done|].
  apply elem_of_cells in Hij as [Hi Hj]. done.
Qed.

Lemma select_None s i j :
  select s = None → i < height s → j < width s → is_Some (cell_at (grid s) i j).
Proof.
  intros H Hi Hj. eapply select_fold_None; [exact H|]. by apply elem_of_cells.
Qed.

(** An unknown cell without candidate is selected, it or an earlier one. *)
Lemma select_fold_empty s l : ∀ best i j,
  best_ok s best → (i, j) ∈ l →
  cell_at (grid s) i j = None → common_values s i j = [] →
  ∃ i' j', foldl (select_step s) best l = Some (0, (i', j'), []).
Proof.
  assert (∀ l i' j', foldl (select_step s) (Some (0, (i', j'), [])) l
                     = Some (0, (i', j'), [])) as Hkeep.
  { clear. induction l as [|[i1 j1] l IH]; intros i' j'; cbn [foldl]; [done|].
    unfold select_step at 2. destruct (cell_at (grid s) i1 j1); [apply IH|].
    rewrite bool_decide_eq_false_2 by lia. apply IH. }
  induction l as [|[i0 j0] l IH]; intros best i j Hb Hij Hc Hcv;
    [by apply elem_of_nil in Hij|].
  cbn [foldl]. apply elem_of_cons in Hij as [[= <- <-]|Hij].
  - unfold select_step at 2. rewrite Hc, Hcv. simpl.
    destruct best as [[[n' [i' j']] vals']|].
    + destruct Hb as (_ & _ & ->). case_bool_decide.
      * exists i, j. apply Hkeep.
      * destruct vals'; [|simpl in *; lia]. exists i', j'. apply Hkeep.
    + exists i, j. apply Hkeep.
  - eapply IH; [by apply select_step_ok|done..].
Qed.

Lemma select_empty s i j :
  i < height s → j < width s →
  cell_at (grid s) i j = None → common_values s i j = [] →
  ∃ i' j', select s = Some (0, (i', j'), []).
Proof.
  intros Hi Hj. apply select_fold_empty; [done|]. by apply elem_of_cells.
Qed.

End selection.

(** ** What a pass without change has checked *)

Section quiet_pass.

Lemma for_each_quiet {A} (body : A → state * bool → flow (state * bool)) l :
  (∀ a s ch, match body a (s, ch) with
             | Running (s', ch') => (s' = s ∧ ch' = ch) ∨ ch' = true
             | Returned _ => True
             end) →
  ∀ s ch s', for_each body l (s, ch) = Running (s', false) →
  s' = s ∧ ch = false ∧ ∀ a, a ∈ l → body a (s, false) = Running (s, false).
Proof.
  intros Hbody. induction l as [|a l IH]; intros s ch s' H; simpl in H.
  - injection H as -> ->. split; [done|]. split; [done|].
    intros a Ha. by apply elem_of_nil in Ha.
  - specialize (Hbody a s ch).
    destruct (body a (s, ch)) as [?|[s1 ch1]] eqn:Hb; [done|].
    apply IH in H as (-> & -> & Hall).
    destruct Hbody as [[-> Hch]|[=]]. subst ch.
    split; [done|]. split; [done|].
    intros a' Ha'. apply elem_of_cons in Ha' as [->|Ha']; [done|by apply Hall].
Qed.

Lemma row_step_quiet i s ch :
  match row_step i (s, ch) with
  | Running (s', ch') => (s' = s ∧ ch' = ch) ∨ ch' = true
  | Returned _ => True
  end.
Proof.
  destruct (row_step_cases i s ch) as [[_ ->]|[(_ & _ & ->)|(_ & _ & ->)]]; auto.
Qed.

Lemma col_step_quiet j s ch :
  match col_step j (s, ch) with
  | Running (s', ch') => (s' = s ∧ ch' = ch) ∨ ch' = true
  | Returned _ => True
  end.
Proof.
  destruct (col_step_cases j s ch) as [[_ ->]|[(_ & _ & ->)|(_ & _ & ->)]]; auto.
Qed.

Lemma cell_step_quiet ij s ch :
  match cell_step ij (s, ch) with
  | Running (s', ch') => (s' = s ∧ ch' = ch) ∨ ch' = true
  | Returned _ => True
  end.
Proof.
  destruct ij as [i j].
  destruct (cell_step_cases i j s ch) as [(v & _ & _ & ->)|[_ ->]]; auto.
Qed.

Lemma pass_quiet s s' : pass s = Running (s', false) → s' = s.
Proof.
  unfold pass. intros H.
  destruct (for_each row_step (seq 0 (height s)) (s, false)) as [?|[s1 ch1]] eqn:H1;
    [done|].
  destruct (for_each col_step (seq 0 (width s)) (s1, ch1)) as [?|[s2 ch2]] eqn:H2;
    [done|].
  apply (for_each_quiet _ _ cell_step_quiet) in H as (-> & -> & _).
  apply (for_each_quiet _ _ col_step_quiet) in H2 as (-> & -> & _).
  by apply (for_each_quiet _ _ row_step_quiet) in H1 as (-> & _ & _).
Qed.

Lemma settled_rows s i :
  settled s → i < height s →
  dom_at (row_domains s) i ≠ [] ∧
  Forall (λ p, row_valid (grid s) i p) (dom_at (row_domains s) i).
Proof.
  unfold settled, pass. intros H Hi.
  destruct (for_each row_step (seq 0 (height s)) (s, false)) as [?|[s1 ch1]] eqn:H1;
    [done|].
  destruct (for_each col_step (seq 0 (width s)) (s1, ch1)) as [?|[s2 ch2]] eqn:H2;
    [done|].
  apply (for_each_quiet _ _ cell_step_quiet) in H as (<- & -> & _).
  apply (for_each_quiet _ _ col_step_quiet) in H2 as (<- & -> & _).
  apply (for_each_quiet _ _ row_step_quiet) in H1 as (_ & _ & Hall).
  specialize (Hall i). rewrite elem_of_seq in Hall. specialize (Hall ltac:(lia)).
  destruct (row_step_cases i s false) as [[_ Hr]|[(_ & _ & Hr)|(Hne & Heq & _)]];
    [congruence..|].
  split; [by eapply filter_nonempty|]. by apply set_eq_filter in Heq.
Qed.

Lemma settled_cols s j :
  settled s → j < width s →
  dom_at (col_domains s) j ≠ [] ∧
  Forall (λ p, col_valid (grid s) j p) (dom_at (col_domains s) j).
Proof.
  unfold settled, pass. intros H Hj.
  destruct (for_each row_step (seq 0 (height s)) (s, false)) as [?|[s1 ch1]] eqn:H1;
    [done|].
  destruct (for_each col_step (seq 0 (width s)) (s1, ch1)) as [?|[s2 ch2]] eqn:H2;
    [done|].
  apply (for_each_quiet _ _ cell_step_quiet) in H as (<- & -> & _).
  apply (for_each_quiet _ _ col_step_quiet) in H2 as (<- & -> & Hall).
  specialize (Hall j). rewrite elem_of_seq in Hall. specialize (Hall ltac:(lia)).
  destruct (col_step_cases j s false) as [[_ Hr]|[(_ & _ & Hr)|(Hne & Heq & _)]];
    [congruence..|].
  split; [by eapply filter_nonempty|]. by apply set_eq_filter in Heq.
Qed.

Lemma update_loop_settled fuel : ∀ s s1,
  update_loop fuel s = Some (true, s1) → settled s1.
Proof.
  induction fuel as [|fuel IH]; intros s s1; simpl; [done|].
  destruct (pass s) as [s'|[s' [|]]] eqn:Hpass; [done|by apply IH|].
  intros [= <-]. pose proof (pass_quiet s s' Hpass) as ->. done.
Qed.

Lemma update_domains_settled s s1 : _update_domains s = Some (true, s1) → settled s1.
Proof. apply update_loop_settled. Qed.

End quiet_pass.

(** C7: within a call of [_update_domains] every state the object goes
    through has, compared with every earlier one and with the state at
    entry, domains that are subsets line by line and a grid whose cells are
    unchanged or went from unknown to fixed; the call returns, in the last of
    these states. *)
Theorem propagation_monotonic (s : state) :
  StronglySorted state_le (s :: _update_domains_trace s) ∧
  (wf s → ∃ b s', _update_domains s = Some (b, s') ∧
                  last (s :: _update_domains_trace s) = Some s').
Proof.
  destruct (update_chain (S (work s)) s) as (e & [Hs Hl] & Hres).
  split; [done|]. intros Hwf.
  destruct (update_domains_total s Hwf) as (b & s' & H & _).
  exists b, s'. split; [done|]. by rewrite (Hres b s' H).
Qed.

(** C8: a second call of [_update_domains] after a successful one returns
    true and leaves the object as it is. *)
Theorem propagation_idempotent (s s1 : state) :
  _update_domains s = Some (true, s1) → _update_domains s1 = Some (true, s1).
Proof.
  intros Hfirst.
  pose proof (update_domains_settled s s1 Hfirst) as Hsettled.
  unfold settled in Hsettled.
  unfold _update_domains. cbn [update_loop]. by rewrite Hsettled.
Qed.

(** ** The object built by [__init__] *)

Section construction.

Lemma generate_domains_spec constraints length ds :
  Generator._generate_domains constraints length = Some ds →
  Forall2 (domain_of length) constraints ds.
Proof.
  unfold Generator._generate_domains. intros H. apply mapM_Some_1 in H.
  eapply Forall2_impl; [exact H|]. intros clue d Hd. simpl in Hd.
  apply fmap_Some in Hd as (lines & Hl & ->). by exists lines.
Qed.

Lemma domain_of_lines length clue d :
  domain_of length clue d → Forall (λ p : line, List.length p = length) d.
Proof.
  intros (lines & Hgen & Hd). subst d.
  apply generate_line_possibilities_length in Hgen.
  rewrite Forall_forall in Hgen. apply Forall_forall. intros p Hp.
  apply Hgen. by rewrite elem_of_remove_dups in Hp.
Qed.

Lemma init_spec rc cc s :
  __init__ rc cc = Some s →
  height s = length rc ∧ width s = length cc ∧
  grid s = replicate (length rc) (replicate (length cc) None) ∧
  Forall2 (domain_of (length cc)) rc (row_domains s) ∧
  Forall2 (domain_of (length rc)) cc (col_domains s).
Proof.
  unfold __init__. intros H. apply bind_Some in H as (rd & Hrd & H).
  apply bind_Some in H as (cd & Hcd & [= <-]). simpl.
  apply generate_domains_spec in Hrd, Hcd. done.
Qed.

Lemma wf_init rc cc s : __init__ rc cc = Some s → wf s.
Proof.
  intros H. apply init_spec in H as (Hh & Hw & Hg & Hr & Hc). split.
  - by rewrite Hg, length_replicate.
  - rewrite Hg, Hw. apply Forall_replicate, length_replicate.
  - rewrite Hh. symmetry. by eapply Forall2_length.
  - rewrite Hw. symmetry. by eapply Forall2_length.
  - rewrite Hw. apply Forall_lookup. intros i d Hd.
    destruct (Forall2_lookup_r _ _ _ _ _ Hr Hd) as (clue & _ & Hdom).
    by eapply domain_of_lines.
  - rewrite Hh. apply Forall_lookup. intros i d Hd.
    destruct (Forall2_lookup_r _ _ _ _ _ Hc Hd) as (clue & _ & Hdom).
    by eapply domain_of_lines.
Qed.

Lemma domain_of_too_long length clue d :
  domain_of length clue d → too_long clue length → d = [].
Proof.
  intros (lines & Hgen & Hd) Hlong. subst d.
  rewrite too_long_clue_empty in Hgen by done. by injection Hgen as <-.
Qed.

End construction.

(** ** An empty domain stops the first pass *)

Section empty_domain.

Lemma dom_at_insert_ne ds i k (d : domain) : i ≠ k → dom_at (<[i:=d]> ds) k = dom_at ds k.
Proof. intros Hne. unfold dom_at. by rewrite list_lookup_insert_ne. Qed.

Lemma rows_keep_cols l : ∀ s ch s' ch',
  for_each row_step l (s, ch) = Running (s', ch') → col_domains s' = col_domains s.
Proof.
  induction l as [|a l IH]; intros s ch s' ch'; cbn [for_each]; [by intros [= <- _]|].
  destruct (row_step_cases a s ch) as [[_ ->]|[(_ & _ & ->)|(_ & _ & ->)]]; [done| |].
  - intros H. by apply IH in H.
  - apply IH.
Qed.

Lemma rows_stop_on_empty l i : ∀ s ch,
  i ∈ l → dom_at (row_domains s) i = [] →
  ∃ s', for_each row_step l (s, ch) = Returned s'.
Proof.
  induction l as [|a l IH]; intros s ch Hi Hd; [by apply elem_of_nil in Hi|].
  cbn [for_each].
  destruct (row_step_cases a s ch) as [[_ ->]|[(Hne & _ & ->)|(Hne & _ & ->)]];
    [by eexists| |].
  - apply elem_of_cons in Hi as [->|Hi].
    { rewrite Hd in Hne. rewrite filter_nil in Hne. done. }
    apply IH; [done|]. simpl. destruct (decide (a = i)) as [->|Hai].
    + rewrite Hd in Hne. by rewrite filter_nil in Hne.
    + by rewrite dom_at_insert_ne.
  - apply elem_of_cons in Hi as [->|Hi].
    { rewrite Hd in Hne. rewrite filter_nil in Hne. done. }
    by apply IH.
Qed.

Lemma cols_stop_on_empty l j : ∀ s ch,
  j ∈ l → dom_at (col_domains s) j = [] →
  ∃ s', for_each col_step l (s, ch) = Returned s'.
Proof.
  induction l as [|a l IH]; intros s ch Hj Hd; [by apply elem_of_nil in Hj|].
  cbn [for_each].
  destruct (col_step_cases a s ch) as [[_ ->]|[(Hne & _ & ->)|(Hne & _ & ->)]];
    [by eexists| |].
  - apply elem_of_cons in Hj as [->|Hj].
    { rewrite Hd in Hne. rewrite filter_nil in Hne. done. }
    apply IH; [done|]. simpl. destruct (decide (a = j)) as [->|Haj].
    + rewrite Hd in Hne. by rewrite filter_nil in Hne.
    + by rewrite dom_at_insert_ne.
  - apply elem_of_cons in Hj as [->|Hj].
    { rewrite Hd in Hne. rewrite filter_nil in Hne. done. }
    by apply IH.
Qed.

Lemma pass_returns_on_empty s :
  (∃ i, i < height s ∧ dom_at (row_domains s) i = []) ∨
  (∃ j, j < width s ∧ dom_at (col_domains s) j = []) →
  ∃ s', pass s = Returned s'.
Proof.
  intros H. unfold pass.
  destruct (for_each row_step (seq 0 (height s)) (s, false)) as [s1|[s1 ch1]] eqn:H1;
    [by eexists|].
  destruct H as [(i & Hi & Hd)|(j & Hj & Hd)].
  - destruct (rows_stop_on_empty (seq 0 (height s)) i s false) as [s' Hs'];
      [apply elem_of_seq; lia|done|congruence].
  - apply rows_keep_cols in H1.
    destruct (cols_stop_on_empty (seq 0 (width s)) j s1 ch1) as [s' Hs'];
      [apply elem_of_seq; lia|by rewrite H1|].
    rewrite Hs'. by eexists.
Qed.

Lemma solve_false_on_empty order s :
  (∃ i, i < height s ∧ dom_at (row_domains s) i = []) ∨
  (∃ j, j < width s ∧ dom_at (col_domains s) j = []) →
  ∃ s', solve_with order s = Some (false, s').
Proof.
  intros H. destruct (pass_returns_on_empty s H) as [s' Hs'].
  exists s'. unfold solve_with. cbn [solve_fuel].
  unfold _update_domains. cbn [update_loop]. by rewrite Hs'.
Qed.

End empty_domain.

(** C6: when the clue of some row or column needs more cells than the line
    has, that line's domain is empty from the start and [solve] returns
    false. *)
Theorem too_long_clue_unsolvable (rc cc : list (list Z)) (s0 : state) :
  __init__ rc cc = Some s0 →
  (∀ i clue, rc !! i = Some clue → too_long clue (length cc) →
     Generator.generate_line_possibilities clue (length cc) = Some [] ∧
     row_domains s0 !! i = Some [] ∧ ∃ s', solve s0 = Some (false, s')) ∧
  (∀ j clue, cc !! j = Some clue → too_long clue (length rc) →
     Generator.generate_line_possibilities clue (length rc) = Some [] ∧
     col_domains s0 !! j = Some [] ∧ ∃ s', solve s0 = Some (false, s')).
Proof.
  intros Hinit. pose proof (init_spec _ _ _ Hinit) as (Hh & Hw & _ & Hr & Hc).
  split.
  - intros i clue Hi Hlong. split; [by apply too_long_clue_empty|].
    destruct (Forall2_lookup_l _ _ _ _ _ Hr Hi) as (d & Hd & Hdom).
    apply domain_of_too_long in Hdom as ->; [|done]. split; [done|].
    apply solve_false_on_empty. left. exists i.
    split; [rewrite Hh; by eapply lookup_lt_Some|]. unfold dom_at. by rewrite Hd.
  - intros j clue Hj Hlong. split; [by apply too_long_clue_empty|].
    destruct (Forall2_lookup_l _ _ _ _ _ Hc Hj) as (d & Hd & Hdom).
    apply domain_of_too_long in Hdom as ->; [|done]. split; [done|].
    apply solve_false_on_empty. right. exists j.
    split; [rewrite Hw; by eapply lookup_lt_Some|]. unfold dom_at. by rewrite Hd.
Qed.

(** ** The search as a chain of states *)

Section search_chain.

Lemma update_domains_traced : traced _update_domains _update_domains_trace.
Proof.
  intros s. destruct (update_chain (S (work s)) s) as (e & He & Hres).
  exists e. split; [|done]. eapply chain_impl; [|exact He].
  apply state_le_search_le.
Qed.

Lemma try_values_traced slv slv_trace i j values :
  traced slv slv_trace →
  traced (try_values slv i j values) (try_values_trace slv slv_trace i j values).
Proof.
  intros Hslv. induction values as [|value rest IH]; intros s.
  - exists s. split; [apply chain_nil; apply _|]. by intros b s' [= _ <-].
  - cbn [try_values try_values_trace].
    set (s1 := set_cell s i j (Some value)).
    destruct (Hslv s1) as (e1 & He1 & Hres1).
    assert (chain search_le s (s1 :: slv_trace s1) e1) as Hc1.
    { apply chain_cons; [apply _|apply search_le_set_cell|done]. }
    destruct (slv s1) as [[[|] s']|] eqn:Hs1.
    + exists e1. rewrite app_nil_r. split; [done|].
      intros b s'' [= _ <-]. by eapply Hres1.
    + rewrite (Hres1 _ _ eq_refl).
      destruct (IH (set_cell e1 i j None)) as (e & He & Hres).
      exists e. split; [|done].
      change (s1 :: slv_trace s1 ++ set_cell e1 i j None :: ?t)
        with ((s1 :: slv_trace s1) ++ set_cell e1 i j None :: t).
      eapply chain_app; [apply _|exact Hc1|].
      apply chain_cons; [apply _|apply search_le_set_cell|done].
    + exists e1. rewrite app_nil_r. split; [done|]. done.
Qed.

Lemma solve_traced order fuel :
  traced (solve_fuel order fuel) (solve_trace order fuel).
Proof.
  induction fuel as [|fuel IH]; intros s.
  - exists s. split; [apply chain_nil; apply _|done].
  - cbn [solve_fuel solve_trace].
    destruct (update_domains_traced s) as (e1 & He1 & Hres1).
    destruct (_update_domains s) as [[[|] s1]|] eqn:Hupd.
    + rewrite (Hres1 _ _ eq_refl) in *.
      destruct (select e1) as [[[n [i j]] vals]|].
      * destruct (try_values_traced _ _ i j (order vals) IH e1) as (e & He & Hres).
        exists e. split; [|done]. eapply chain_app; [apply _|exact He1|exact He].
      * exists e1. rewrite app_nil_r. split; [done|]. by intros b s' [= _ <-].
    + exists e1. rewrite app_nil_r. split; [done|].
      intros b s' [= _ <-]. by eapply Hres1.
    + exists e1. rewrite app_nil_r. done.
Qed.

Lemma solve_search_le order fuel s b s' :
  solve_fuel order fuel s = Some (b, s') → search_le s s'.
Proof.
  intros H. destruct (solve_traced order fuel s) as (e & He & Hres).
  rewrite (Hres _ _ H). by eapply chain_le; [apply _|].
Qed.

End search_chain.

(** ** What [solve] returns *)

Section search_result.

Lemma try_values_true slv i j values :
  (∀ s s', wf s → slv s = Some (true, s') → solved s') →
  (∀ s b s', slv s = Some (b, s') → search_le s s') →
  ∀ s s', wf s → try_values slv i j values s = Some (true, s') → solved s'.
Proof.
  intros Htrue Hle. induction values as [|value rest IH]; intros s s' Hwf; [done|].
  cbn [try_values].
  assert (wf (set_cell s i j (Some value))) as Hwf1.
  { eapply wf_search_le; [done|]. apply search_le_set_cell. }
  destruct (slv (set_cell s i j (Some value))) as [[[|] s1]|] eqn:Hs1; [| |done].
  - intros [= <-]. by eapply Htrue.
  - apply IH. eapply wf_search_le; [|apply search_le_set_cell].
    eapply wf_search_le; [exact Hwf1|]. by eapply Hle.
Qed.

Lemma solve_fuel_true order fuel : ∀ s s',
  wf s → solve_fuel order fuel s = Some (true, s') → solved s'.
Proof.
  induction fuel as [|fuel IH]; intros s s' Hwf; [done|].
  cbn [solve_fuel].
  destruct (_update_domains s) as [[[|] s1]|] eqn:Hupd; [|done..].
  assert (wf s1) as Hwf1.
  { eapply wf_state_le; [done|]. by eapply update_domains_le. }
  destruct (select s1) as [[[n [i j]] vals]|] eqn:Hsel.
  - apply try_values_true; [apply IH| |done].
    intros ? ? ?. apply solve_search_le.
  - intros [= <-]. split; [done|]. split; [|done].
    by eapply update_domains_settled.
Qed.

End search_result.

(** ** From a solved state to a solution *)

Section solution.

Lemma valid_spec (cl : nat → cell) (p : line) :
  forallb negb (imap (λ k value, clash (cl k) value) p) = true →
  ∀ k v, p !! k = Some v → cl k = None ∨ cl k = Some v.
Proof.
  rewrite forallb_forall. intros H k v Hk.
  specialize (H (clash (cl k) v)).
  assert (negb (clash (cl k) v) = true) as Hc.
  { apply H, list_elem_of_In.
    exact (elem_of_lookup_imap_2 (λ k value, clash (cl k) value) p v k Hk). }
  unfold clash in Hc. destruct (cl k) as [x|]; [|by left]. right.
  apply negb_true_iff, negb_false_iff, bool_decide_eq_true in Hc. by subst.
Qed.

Lemma row_valid_spec g i p :
  row_valid g i p = true →
  ∀ j v, p !! j = Some v → cell_at g i j = None ∨ cell_at g i j = Some v.
Proof. apply (valid_spec (λ j, cell_at g i j)). Qed.

Lemma col_valid_spec g j p :
  col_valid g j p = true →
  ∀ i v, p !! i = Some v → cell_at g i j = None ∨ cell_at g i j = Some v.
Proof. apply (valid_spec (λ i, cell_at g i j)). Qed.

Lemma fixed_grid_inv (g : list (list cell)) :
  Forall (Forall is_Some) g → g = (λ row : line, Some <$> row) <$> fixed_grid g.
Proof.
  unfold fixed_grid. induction 1 as [|row g Hrow _ IH]; [done|].
  cbn [fmap list_fmap]. f_equal; [|exact IH]. clear IH.
  induction Hrow as [|c row [x ->] _ IH]; [done|].
  cbn [fmap list_fmap]. simpl. f_equal. exact IH.
Qed.

Lemma solved_all_fixed s : solved s → Forall (Forall is_Some) (grid s).
Proof.
  intros (Hwf & _ & Hsel). apply Forall_lookup. intros i row Hrow.
  apply Forall_lookup. intros j c Hc.
  assert (i < height s) as Hi.
  { rewrite <- (wf_grid_height s Hwf). by eapply lookup_lt_Some. }
  assert (j < width s) as Hj.
  { pose proof (wf_grid_width s Hwf) as Hw. rewrite Forall_lookup in Hw.
    rewrite <- (Hw i row Hrow). by eapply lookup_lt_Some. }
  pose proof (select_None s i j Hsel Hi Hj) as Hsome.
  by rewrite (cell_at_lookup _ _ _ _ Hrow), Hc in Hsome.
Qed.

Lemma column_lookup {A} (g : list (list A)) w j i :
  Forall (λ row, length row = w) g → j < w →
  column g j !! i = g !! i ≫= (λ row, row !! j).
Proof.
  intros Hg Hj. revert i. unfold column.
  induction Hg as [|row g Hrow _ IH]; intros i; [done|].
  destruct (lookup_lt_is_Some_2 row j) as [x Hx]; [lia|].
  cbn [omap list_omap]. rewrite Hx. destruct i as [|i]; [done|]. apply IH.
Qed.

(** In a solved state, row [i] of the grid is a possibility of row [i]. *)
Lemma solved_row s i row :
  solved s → grid s !! i = Some row →
  ∃ p, p ∈ dom_at (row_domains s) i ∧ row = Some <$> p.
Proof.
  intros Hsolved Hrow. pose proof (solved_all_fixed s Hsolved) as Hfixed.
  destruct Hsolved as (Hwf & Hset & Hsel).
  assert (i < height s) as Hi.
  { rewrite <- (wf_grid_height s Hwf). by eapply lookup_lt_Some. }
  destruct (settled_rows s i Hset Hi) as [Hne Hvalid].
  destruct (dom_at (row_domains s) i) as [|p d] eqn:Hd; [done|].
  apply Forall_cons in Hvalid as [Hp _]. exists p. split; [left|].
  assert (length p = width s) as Hlen.
  { pose proof (wf_row_lines s Hwf) as Hl. rewrite Forall_lookup in Hl.
    pose proof (dom_at_nonempty _ _ _ Hd ltac:(done)) as Hdi.
    specialize (Hl i _ Hdi). by apply Forall_cons in Hl as [? _]. }
  assert (length row = width s) as Hlen'.
  { pose proof (wf_grid_width s Hwf) as Hw. rewrite Forall_lookup in Hw. by eapply Hw. }
  apply list_eq. intros j. rewrite list_lookup_fmap.
  destruct (p !! j) as [v|] eqn:Hv; simpl.
  - apply Is_true_true in Hp. pose proof (row_valid_spec _ _ _ Hp j v Hv) as Hc.
    rewrite (cell_at_lookup _ _ _ _ Hrow) in Hc.
    assert (j < length row) as Hj by (apply lookup_lt_Some in Hv; lia).
    destruct (lookup_lt_is_Some_2 row j Hj) as [c Hcj]. rewrite Hcj in Hc |- *.
    rewrite Forall_lookup in Hfixed. specialize (Hfixed i row Hrow).
    rewrite Forall_lookup in Hfixed. destruct (Hfixed j c Hcj) as [x ->].
    simpl in Hc. destruct Hc as [?|?]; congruence.
  - apply lookup_ge_None in Hv. apply lookup_ge_None. lia.
Qed.

(** ... and column [j] of the grid is a possibility of column [j]. *)
Lemma solved_col s j :
  solved s → j < width s →
  ∃ q, q ∈ dom_at (col_domains s) j ∧ column (grid s) j = Some <$> q.
Proof.
  intros Hsolved Hj. pose proof (solved_all_fixed s Hsolved) as Hfixed.
  destruct Hsolved as (Hwf & Hset & Hsel).
  destruct (settled_cols s j Hset Hj) as [Hne Hvalid].
  destruct (dom_at (col_domains s) j) as [|q d] eqn:Hd; [done|].
  apply Forall_cons in Hvalid as [Hq _]. exists q. split; [left|].
  assert (length q = height s) as Hlen.
  { pose proof (wf_col_lines s Hwf) as Hl. rewrite Forall_lookup in Hl.
    pose proof (dom_at_nonempty _ _ _ Hd ltac:(done)) as Hdj.
    specialize (Hl j _ Hdj). by apply Forall_cons in Hl as [? _]. }
  apply list_eq. intros i.
  rewrite (column_lookup _ (width s)), list_lookup_fmap;
    [|apply (wf_grid_width s Hwf)|done].
  destruct (q !! i) as [v|] eqn:Hv; simpl.
  - apply Is_true_true in Hq. pose proof (col_valid_spec _ _ _ Hq i v Hv) as Hc.
    assert (i < length (grid s)) as Hi.
    { rewrite (wf_grid_height s Hwf). apply lookup_lt_Some in Hv. lia. }
    destruct (lookup_lt_is_Some_2 (grid s) i Hi) as [row Hrow].
    rewrite (cell_at_lookup _ _ _ _ Hrow) in Hc. rewrite Hrow. simpl.
    assert (j < length row) as Hjr.
    { pose proof (wf_grid_width s Hwf) as Hw. rewrite Forall_lookup in Hw.
      by rewrite (Hw i row Hrow). }
    destruct (lookup_lt_is_Some_2 row j Hjr) as [c Hcj]. rewrite Hcj in Hc |- *.
    rewrite Forall_lookup in Hfixed. specialize (Hfixed i row Hrow).
    rewrite Forall_lookup in Hfixed. destruct (Hfixed j c Hcj) as [x ->].
    simpl in Hc. destruct Hc as [?|?]; congruence.
  - apply lookup_ge_None in Hv.
    assert (grid s !! i = None) as ->; [|done].
    apply lookup_ge_None. rewrite (wf_grid_height s Hwf). lia.
Qed.

Lemma fmap_Some_default (p : line) : default 0%Z <$> (Some <$> p) = p.
Proof. rewrite <- list_fmap_compose. apply list_fmap_id. Qed.

Lemma column_fixed_grid (g : list (list cell)) j :
  column (fixed_grid g) j = default 0%Z <$> column g j.
Proof.
  unfold column, fixed_grid. induction g as [|row g IH]; [done|].
  cbn [fmap list_fmap omap list_omap]. rewrite list_lookup_fmap.
  destruct (row !! j); simpl; by rewrite IH.
Qed.

End solution.

(** ** [solve] returns *)

Section search_total.

Lemma grid_le_reset g g' i j :
  grid_le g g' → cell_at g i j = None →
  grid_le g (alter (λ row, <[j:=None]> row) i g').
Proof.
  intros Hle Hc. apply Forall2_alter_r; [done|].
  intros row row' Hrow Hrow' Hrr.
  apply Forall2_same_length_lookup_2.
  { rewrite length_insert. by eapply Forall2_length. }
  intros k c c' Hk Hk'. destruct (decide (j = k)) as [->|Hne].
  - rewrite list_lookup_insert_eq in Hk'.
    2:{ apply Forall2_length in Hrr. rewrite <- Hrr. by eapply lookup_lt_Some. }
    simplify_eq. rewrite (cell_at_lookup _ _ _ _ Hrow), Hk in Hc. simpl in Hc.
    subst. by left.
  - rewrite list_lookup_insert_ne in Hk' by done.
    by eapply Forall2_lookup_lr.
Qed.

Lemma cell_at_reset s i j : cell_at (grid (set_cell s i j None)) i j = None.
Proof.
  unfold cell_at. simpl. rewrite list_lookup_alter_eq.
  destruct (grid s !! i) as [row|]; simpl; [|done].
  destruct (decide (j < length row)) as [Hj|Hj].
  - by rewrite list_lookup_insert_eq.
  - rewrite list_insert_ge by lia.
    assert (row !! j = None) as -> by (apply lookup_ge_None; lia). done.
Qed.

(** The loop over the candidate values, entered in a state [s1] whose cell
    [(i, j)] is unknown, with a solver that returns on every grid with fewer
    unknown cells. *)
Lemma try_values_total slv i j s1 values :
  i < height s1 → j < width s1 →
  (∀ s, wf s → unknowns (grid s) < unknowns (grid s1) →
        ∃ b s', slv s = Some (b, s') ∧ grid_le (grid s) (grid s') ∧ wf s' ∧
                height s' = height s ∧ width s' = width s) →
  ∀ s, wf s → height s = height s1 → width s = width s1 →
       grid_le (grid s1) (grid s) → cell_at (grid s) i j = None →
       ∃ b s', try_values slv i j values s = Some (b, s') ∧
               grid_le (grid s1) (grid s') ∧ wf s' ∧
               height s' = height s1 ∧ width s' = width s1.
Proof.
  intros Hi Hj Hslv.
  induction values as [|value rest IH]; intros s Hwf Hh Hw Hle Hc.
  - by exists false, s.
  - cbn [try_values]. set (s2 := set_cell s i j (Some value)).
    assert (wf s2) as Hwf2.
    { eapply wf_search_le; [done|]. apply search_le_set_cell. }
    assert (grid_le (grid s) (grid s2)) as Hle2 by by apply grid_le_set.
    assert (unknowns (grid s2) < unknowns (grid s1)) as Hlt.
    { pose proof (unknowns_set_cell s i j value Hwf ltac:(lia) ltac:(lia) Hc).
      pose proof (unknowns_le _ _ Hle). fold s2 in H. lia. }
    destruct (Hslv s2 Hwf2 Hlt) as (b & s' & -> & Hle' & Hwf' & Hh' & Hw').
    simpl in Hh', Hw'. destruct b.
    + exists true, s'. split; [done|]. split; [|split; [done|split; congruence]].
      etransitivity; [exact Hle|]. etransitivity; [exact Hle2|done].
    + assert (cell_at (grid s1) i j = None) as Hc1.
      { destruct (cell_at (grid s1) i j) as [x|] eqn:Hx; [|done].
        destruct (wf_cell_in_range s i j Hwf ltac:(lia) ltac:(lia)) as (row & Hrow & Hjr).
        destruct (Forall2_lookup_r _ _ _ _ _ Hle Hrow) as (row1 & Hrow1 & Hrr).
        rewrite (cell_at_lookup _ _ _ _ Hrow1) in Hx.
        rewrite (cell_at_lookup _ _ _ _ Hrow) in Hc.
        destruct (lookup_lt_is_Some_2 row j Hjr) as [c Hcj].
        destruct (Forall2_lookup_r _ _ _ _ _ Hrr Hcj) as (c1 & Hc1 & Hcc).
        rewrite Hc1 in Hx. rewrite Hcj in Hc. simpl in *. subst.
        destruct Hcc as [?|[? _]]; done. }
      apply IH.
      * eapply wf_search_le; [exact Hwf'|]. apply search_le_set_cell.
      * simpl. congruence.
      * simpl. congruence.
      * apply grid_le_reset; [|done].
        etransitivity; [exact Hle|]. etransitivity; [exact Hle2|done].
      * apply cell_at_reset.
Qed.

Lemma solve_fuel_total order fuel : ∀ s,
  wf s → unknowns (grid s) < fuel →
  ∃ b s', solve_fuel order fuel s = Some (b, s') ∧
          grid_le (grid s) (grid s') ∧ wf s' ∧
          height s' = height s ∧ width s' = width s.
Proof.
  induction fuel as [|fuel IH]; intros s Hwf Hfuel; [lia|].
  cbn [solve_fuel].
  destruct (update_domains_total s Hwf) as (b & s1 & Hupd & Hwf1).
  rewrite Hupd. pose proof (update_domains_le _ _ _ Hupd) as (Hh & Hw & Hle & _).
  destruct b; [|by exists false, s1].
  destruct (select s1) as [[[n [i j]] vals]|] eqn:Hsel; [|by exists true, s1].
  apply select_Some in Hsel as (Hc & Hi & Hj & _).
  pose proof (unknowns_le _ _ Hle) as Hu.
  destruct (try_values_total (solve_fuel order fuel) i j s1 (order vals) Hi Hj)
    with (s := s1) as (b & s' & Hres & Hle' & Hwf' & Hh' & Hw'); [|done..|].
  { intros s2 Hwf2 Hlt. apply IH; [done|lia]. }
  exists b, s'. split; [done|]. split; [by etransitivity|].
  split; [done|]. split; congruence.
Qed.

Lemma solve_total order s :
  wf s → ∃ b s', solve_with order s = Some (b, s') ∧ wf s'.
Proof.
  intros Hwf.
  destruct (solve_fuel_total order (S (unknowns (grid s))) s Hwf ltac:(lia))
    as (b & s' & H & _ & Hwf' & _).
  by exists b, s'.
Qed.

End search_total.

(** ** Soundness of [solve] *)

Section soundness.

Lemma domain_of_member length clue d p :
  domain_of length clue d → Forall (λ b, 0 < b)%Z clue → p ∈ d →
  List.length p = length ∧ Forall (λ v, v = 0%Z ∨ v = 1%Z) p ∧ filled_runs p = clue.
Proof.
  intros (lines & Hgen & Hd) Hpos Hp. subst d. rewrite elem_of_remove_dups in Hp.
  pose proof (generate_line_possibilities_length _ _ _ Hgen) as Hlen.
  rewrite Forall_forall in Hlen. split; [by apply Hlen|].
  destruct (generated_line_placement _ _ _ _ Hpos Hgen Hp) as (ps & Hps & Hpl & ->).
  split; [apply layout_binary|]. rewrite <- Hps. by apply filled_runs_layout.
Qed.

Lemma doms_le_member ds ds' i (p : line) :
  doms_le ds ds' → p ∈ dom_at ds' i → p ∈ dom_at ds i.
Proof.
  intros Hle. unfold dom_at. destruct (ds' !! i) as [d'|] eqn:Hd'; simpl.
  - destruct (Forall2_lookup_r _ _ _ _ _ Hle Hd') as (d & -> & Hsub). simpl.
    apply Hsub.
  - intros Hp. by apply elem_of_nil in Hp.
Qed.

Lemma domains_member length clues ds i p :
  Forall2 (domain_of length) clues ds →
  Forall (Forall (λ b, 0 < b)%Z) clues →
  p ∈ dom_at ds i →
  ∃ clue, clues !! i = Some clue ∧
    List.length p = length ∧ Forall (λ v, v = 0%Z ∨ v = 1%Z) p ∧ filled_runs p = clue.
Proof.
  intros Hdom Hpos. unfold dom_at. destruct (ds !! i) as [d|] eqn:Hd; simpl.
  - intros Hp. destruct (Forall2_lookup_r _ _ _ _ _ Hdom Hd) as (clue & Hclue & Hof).
    exists clue. split; [done|]. eapply domain_of_member; [done| |done].
    rewrite Forall_lookup in Hpos. by eapply Hpos.
  - intros Hp. by apply elem_of_nil in Hp.
Qed.

Lemma solved_solution rc cc s0 s' :
  Forall (Forall (λ b, 0 < b)%Z) rc → Forall (Forall (λ b, 0 < b)%Z) cc →
  __init__ rc cc = Some s0 → search_le s0 s' → solved s' →
  solution rc cc (fixed_grid (grid s')).
Proof.
  intros Hrc Hcc Hinit (Hh & Hw & _ & Hrd & Hcd) Hsolved.
  pose proof (init_spec _ _ _ Hinit) as (Hh0 & Hw0 & _ & Hr0 & Hc0).
  pose proof Hsolved as (Hwf & _ & _).
  assert (∀ i row, fixed_grid (grid s') !! i = Some row →
    ∃ clue, rc !! i = Some clue ∧ length row = length cc ∧
            Forall (λ v, v = 0%Z ∨ v = 1%Z) row ∧ filled_runs row = clue) as Hrows.
  { intros i row Hrow. unfold fixed_grid in Hrow. rewrite list_lookup_fmap in Hrow.
    apply fmap_Some in Hrow as (row' & Hrow' & ->).
    destruct (solved_row s' i row' Hsolved Hrow') as (p & Hp & ->).
    rewrite fmap_Some_default.
    eapply doms_le_member in Hp; [|exact Hrd].
    eapply domains_member in Hp; [|exact Hr0|exact Hrc]. exact Hp. }
  split; [|split; [|split]].
  - unfold fixed_grid. rewrite length_fmap, (wf_grid_height _ Hwf). congruence.
  - apply Forall_lookup. intros i row Hrow.
    destruct (Hrows i row Hrow) as (clue & _ & ? & ? & _). done.
  - intros i row clue Hrow Hclue.
    destruct (Hrows i row Hrow) as (clue' & ? & _ & _ & ?). congruence.
  - intros j clue Hclue.
    assert (j < width s') as Hj.
    { rewrite <- Hw, Hw0. by eapply lookup_lt_Some. }
    destruct (solved_col s' j Hsolved Hj) as (q & Hq & Hcol).
    rewrite column_fixed_grid, Hcol, fmap_Some_default.
    eapply doms_le_member in Hq; [|exact Hcd].
    eapply domains_member in Hq; [|exact Hc0|exact Hcc].
    destruct Hq as (clue' & ? & _ & _ & ?). congruence.
Qed.

End soundness.

(** C2: when [solve] returns true on the puzzle built from clues of
    positive integers, no cell of the grid is unknown, and the run lengths
    of the filled cells of every row and every column are the row and
    column clues. *)
Theorem solve_true_is_solution (rc cc : list (list Z)) (s0 s' : state) :
  Forall (Forall (λ b, 0 < b)%Z) rc → Forall (Forall (λ b, 0 < b)%Z) cc →
  __init__ rc cc = Some s0 → solve s0 = Some (true, s') →
  Forall (Forall is_Some) (grid s') ∧
  ∃ g, grid s' = (λ row : line, Some <$> row) <$> g ∧ solution rc cc g.
Proof.
  intros Hrc Hcc Hinit Hsolve.
  pose proof (wf_init _ _ _ Hinit) as Hwf.
  pose proof (solve_fuel_true _ _ _ _ Hwf Hsolve) as Hsolved.
  pose proof (solve_search_le _ _ _ _ _ Hsolve) as Hle.
  pose proof (solved_all_fixed _ Hsolved) as Hfixed.
  split; [done|]. exists (fixed_grid (grid s')).
  split; [by apply fixed_grid_inv|]. by eapply solved_solution.
Qed.

Lemma solve_trace_sorted (order : list Z → list Z) (s : state) :
  StronglySorted domains_le (s :: solve_with_trace order s) ∧
  (∀ b s', solve_with order s = Some (b, s') →
           last (s :: solve_with_trace order s) = Some s').
Proof.
  destruct (solve_traced order (S (unknowns (grid s))) s) as (e & He & Hres).
  split.
  - eapply chain_sorted, chain_impl; [|exact He]. by intros x y (_ & _ & _ & ?).
  - intros b s' H. rewrite (Hres _ _ H). by destruct He.
Qed.

(** C9: [solve] on the object built from the clues returns, and the states
    it goes through on the way, failed branches and resets of the branch
    cell included, have ever smaller domains: each row and column domain is
    a subset of what it was in every earlier state, and so of the domain
    generated from the clue at construction. *)
Theorem domains_only_shrink (rc cc : list (list Z)) (s0 : state) :
  __init__ rc cc = Some s0 →
  Forall2 (domain_of (length cc)) rc (row_domains s0) ∧
  Forall2 (domain_of (length rc)) cc (col_domains s0) ∧
  StronglySorted domains_le (s0 :: solve_with_trace set_order s0) ∧
  ∃ b s', solve s0 = Some (b, s') ∧
          last (s0 :: solve_with_trace set_order s0) = Some s'.
Proof.
  intros Hinit. pose proof (init_spec _ _ _ Hinit) as (_ & _ & _ & Hr & Hc).
  destruct (solve_trace_sorted set_order s0) as [Hsorted Hlast].
  destruct (solve_total set_order s0 (wf_init _ _ _ Hinit)) as (b & s' & Hs & _).
  split; [done|]. split; [done|]. split; [done|].
  exists b, s'. split; [done|]. exact (Hlast b s' Hs).
Qed.

(** C4, as the code has it.  Forced-cell inference leaves alone an unknown
    cell whose row and column values have nothing in common: the iteration
    for that cell changes neither the object nor the [changed] flag, and the
    loop over the cells never executes [return False].  It is [solve] that
    returns false, when [_update_domains] has returned true with such a cell
    in the grid: the cell, or an earlier one like it, is selected with no
    candidate value. *)
Theorem empty_intersection_fails_search (s s1 : state) (i j : nat) :
  cell_at (grid s1) i j = None → common_values s1 i j = [] →
  (∀ changed, cell_step (i, j) (s1, changed) = Running (s1, changed)) ∧
  (∀ l sc, ∃ sc', for_each cell_step l sc = Running sc') ∧
  (_update_domains s = Some (true, s1) → i < height s1 → j < width s1 →
   solve s = Some (false, s1)).
Proof.
  intros Hc Hcv. split; [|split].
  - intros changed.
    destruct (cell_step_cases i j s1 changed) as [(v & _ & Hv & _)|[_ Hstep]];
      [congruence|done].
  - induction l as [|[i' j'] l IH]; intros [t ch]; cbn [for_each]; [by eexists|].
    destruct (cell_step_cases i' j' t ch) as [(v & _ & _ & ->)|[_ ->]]; apply IH.
  - intros Hupd Hi Hj.
    destruct (select_empty s1 i j Hi Hj Hc Hcv) as (i' & j' & Hsel).
    unfold solve, solve_with. cbn [solve_fuel]. by rewrite Hupd, Hsel.
Qed.

(** ** Candidate values

    Lines are made of zeros and ones whatever the clues are, so the sets
    that [solve] iterates over are subsets of {0, 1}; this is what
    [set_order] relies on. *)

Section candidates.

Lemma fill_bits n : ∀ l idx l',
  Forall (λ v, v = 0%Z ∨ v = 1%Z) l → Generator.fill l idx n = Some l' →
  Forall (λ v, v = 0%Z ∨ v = 1%Z) l'.
Proof.
  induction n as [|n IH]; intros l idx l' Hl; simpl.
  - by intros [= <-].
  - intros H. apply bind_Some in H as (l1 & H1 & H2). eapply IH; [|exact H2].
    unfold setitem in H1. apply bind_Some in H1 as (i & _ & [= <-]).
    apply Forall_insert; [done|by right].
Qed.

Lemma paint_bits ps : ∀ l l',
  Forall (λ v, v = 0%Z ∨ v = 1%Z) l → Generator.paint l ps = Some l' →
  Forall (λ v, v = 0%Z ∨ v = 1%Z) l'.
Proof.
  induction ps as [|p ps IH]; intros l l' Hl; simpl.
  - by intros [= <-].
  - intros H. apply bind_Some in H as (l1 & H1 & H2). eapply IH; [|exact H2].
    by eapply fill_bits.
Qed.

Lemma generate_positions_bits length current : ∀ pos_list pos lines,
  Generator.generate_positions length pos_list pos current = Some lines →
  Forall (Forall (λ v, v = 0%Z ∨ v = 1%Z)) lines.
Proof.
  induction current as [|block rest IH]; intros pos_list pos lines; simpl.
  - intros H. apply bind_Some in H as (l & Hl & [= <-]).
    apply Forall_singleton. eapply paint_bits; [|exact Hl].
    apply Forall_replicate. by left.
  - apply place_loop_Forall. intros st r _. apply IH.
Qed.

Lemma domain_of_bits length clue d :
  domain_of length clue d → Forall (Forall (λ v, v = 0%Z ∨ v = 1%Z)) d.
Proof.
  intros (lines & Hgen & Hd). subst d.
  assert (Forall (Forall (λ v, v = 0%Z ∨ v = 1%Z)) lines) as Hlines.
  { unfold Generator.generate_line_possibilities in Hgen.
    destruct clue as [|b bs].
    - injection Hgen as <-. apply Forall_singleton, Forall_replicate. by left.
    - case_bool_decide; [by injection Hgen as <-|].
      by eapply generate_positions_bits. }
  rewrite Forall_forall in Hlines. apply Forall_forall. intros p Hp.
  apply Hlines. by rewrite elem_of_remove_dups in Hp.
Qed.

Lemma values_at_bits (d : domain) k v :
  Forall (Forall (λ v, v = 0%Z ∨ v = 1%Z)) d → v ∈ values_at d k →
  v = 0%Z ∨ v = 1%Z.
Proof.
  intros Hd Hv. unfold values_at in Hv. rewrite elem_of_remove_dups in Hv.
  apply list_elem_of_omap in Hv as (p & Hp & Hk).
  rewrite Forall_forall in Hd. specialize (Hd p Hp).
  rewrite Forall_lookup in Hd. by eapply Hd.
Qed.

(** In every state reached from the object built by [__init__], the
    candidate values of a cell are among 0 and 1. *)
Lemma candidates_are_bits rc cc s0 s i j v :
  __init__ rc cc = Some s0 → domains_le s0 s → v ∈ common_values s i j →
  v = 0%Z ∨ v = 1%Z.
Proof.
  intros Hinit [Hrd _] Hv. apply init_spec in Hinit as (_ & _ & _ & Hr0 & _).
  unfold common_values in Hv. apply list_elem_of_intersection in Hv as [Hv _].
  eapply values_at_bits; [|exact Hv].
  apply Forall_forall. intros p Hp.
  eapply doms_le_member in Hp; [|exact Hrd].
  unfold dom_at in Hp. destruct (row_domains s0 !! i) as [d|] eqn:Hd; simpl in Hp.
  - destruct (Forall2_lookup_r _ _ _ _ _ Hr0 Hd) as (clue & _ & Hof).
    apply domain_of_bits in Hof. rewrite Forall_forall in Hof. by apply Hof.
  - by apply elem_of_nil in Hp.
Qed.

(** The order of iteration is a rearrangement of the set. *)
Lemma set_order_elem_of vs v : v ∈ set_order vs ↔ v ∈ vs.
Proof. unfold set_order. by rewrite merge_sort_Permutation. Qed.

(** So the values written into the grid, by the inference of forced cells
    and by the branches of the search, are 0 (empty) or 1 (filled). *)
Lemma forced_value_is_bit rc cc s0 s i j ch s' :
  __init__ rc cc = Some s0 → domains_le s0 s →
  cell_step (i, j) (s, ch) = Running (s', true) →
  (s' = s ∧ ch = true) ∨
  ∃ v, (v = 0%Z ∨ v = 1%Z) ∧ cell_at (grid s) i j = None ∧
       s' = set_cell s i j (Some v).
Proof.
  intros Hinit Hle Hstep.
  destruct (cell_step_cases i j s ch) as [(v & Hc & Hcv & Hr)|[_ Hr]];
    rewrite Hr in Hstep; simplify_eq.
  - right. exists v. split; [|done].
    eapply (candidates_are_bits rc cc s0 s i j); [done..|].
    rewrite Hcv. left.
  - by left.
Qed.

Lemma branch_value_is_bit rc cc s0 s n i j best_values v :
  __init__ rc cc = Some s0 → domains_le s0 s →
  select s = Some (n, (i, j), best_values) → v ∈ set_order best_values →
  v = 0%Z ∨ v = 1%Z.
Proof.
  intros Hinit Hle Hsel Hv. apply select_Some in Hsel as (_ & _ & _ & ->).
  rewrite set_order_elem_of in Hv. by eapply candidates_are_bits.
Qed.

End candidates.

(** ** The examples, evaluated *)

Lemma gate_init : __init__ gate_rows gate_cols = Some gate.
Proof. vm_compute. reflexivity. Qed.

Lemma wf_gate : wf gate.
Proof. exact (wf_init _ _ _ gate_init). Qed.

Lemma gate_solution_ok : solution gate_rows gate_cols gate_solution.
Proof.
  split; [done|]. split; [|split].
  - binary_rows.
  - intros i row clue. unfold gate_solution, gate_rows.
    destruct i as [|[|[|i]]]; simpl; intros; simplify_eq; done.
  - intros j clue. unfold gate_solution, gate_cols.
    destruct j as [|[|[|[|j]]]]; simpl; intros; simplify_eq; done.
Qed.

Lemma cross_solution_ok : solution cross_rows cross_cols cross_solution.
Proof.
  split; [done|]. split; [|split].
  - binary_rows.
  - intros i row clue. unfold cross_solution, cross_rows.
    destruct i as [|[|[|[|i]]]]; simpl; intros; simplify_eq; done.
  - intros j clue. unfold cross_solution, cross_cols.
    destruct j as [|[|[|[|j]]]]; simpl; intros; simplify_eq; done.
Qed.

(** C1, at the failing input: the puzzle [gate] has a solution, and [solve]
    returns false on it.  The first value tried for the cell [(0, 0)] fails;
    the second one is tried on the domains that the first one left behind,
    and fails at once. *)
Theorem solve_misses_solution :
  solution gate_rows gate_cols gate_solution ∧
  __init__ gate_rows gate_cols = Some gate ∧
  solve gate = Some (false, gate_after_branch) ∧
  ¬ (∀ rc cc s0 g, __init__ rc cc = Some s0 → solution rc cc g →
                   ∃ s', solve s0 = Some (true, s')).
Proof.
  assert (solve gate = Some (false, gate_after_branch)) as Hsolve
    by (vm_compute; reflexivity).
  split; [exact gate_solution_ok|]. split; [exact gate_init|].
  split; [exact Hsolve|]. intros Hcomplete.
  destruct (Hcomplete _ _ _ _ gate_init gate_solution_ok) as [s' Hs'].
  rewrite Hsolve in Hs'. discriminate.
Qed.

(** The same on a puzzle where neither order of the two values helps. *)
Lemma either_order_misses_solution :
  solution cross_rows cross_cols cross_solution ∧
  ∃ s0 s s', __init__ cross_rows cross_cols = Some s0 ∧
    solve_with set_order s0 = Some (false, s) ∧
    solve_with (λ vs, reverse (set_order vs)) s0 = Some (false, s').
Proof.
  split; [exact cross_solution_ok|].
  eexists _, _, _. split; [vm_compute; reflexivity|].
  split; vm_compute; reflexivity.
Qed.

(** C3, at the failing input: [solve] on [gate] propagates, selects the
    cell [(0, 0)] and tries the value 0 first; that branch fails, and after
    the reset of the cell neither the grid nor the domains are what they
    were before the branch. *)
Theorem failed_branch_not_restored :
  _update_domains gate = Some (true, gate_propagated) ∧
  select gate_propagated = Some (2, (0, 0), [1; 0]%Z) ∧
  set_order [1; 0]%Z = [0; 1]%Z ∧
  (∃ s', solve_fuel set_order (unknowns (grid gate))
           (set_cell gate_propagated 0 0 (Some 0%Z)) = Some (false, s') ∧
         set_cell s' 0 0 None = gate_after_branch) ∧
  grid gate_after_branch ≠ grid gate_propagated ∧
  row_domains gate_after_branch ≠ row_domains gate_propagated ∧
  col_domains gate_after_branch ≠ col_domains gate_propagated ∧
  solve_fuel set_order (unknowns (grid gate))
    (set_cell gate_after_branch 0 0 (Some 1%Z))
  = Some (false, set_cell gate_after_branch 0 0 (Some 1%Z)) ∧
  ¬ (∀ fuel s n i j best_values value s',
       select s = Some (n, (i, j), best_values) → value ∈ best_values →
       solve_fuel set_order fuel (set_cell s i j (Some value)) = Some (false, s') →
       set_cell s' i j None = s).
Proof.
  assert (select gate_propagated = Some (2, (0, 0), [1; 0]%Z)) as Hsel
    by (vm_compute; reflexivity).
  assert (solve_fuel set_order (unknowns (grid gate))
            (set_cell gate_propagated 0 0 (Some 0%Z))
          = Some (false, set_cell gate_after_branch 0 0 (Some 0%Z))) as Hbranch
    by (vm_compute; reflexivity).
  assert (grid gate_after_branch ≠ grid gate_propagated) as Hgrid
    by (vm_compute; discriminate).
  split; [vm_compute; reflexivity|]. split; [exact Hsel|].
  split; [vm_compute; reflexivity|]. split.
  { eexists. split; [exact Hbranch|]. vm_compute. reflexivity. }
  split; [exact Hgrid|]. split; [vm_compute; discriminate|].
  split; [vm_compute; discriminate|]. split; [vm_compute; reflexivity|].
  intros Hrestore.
  specialize (Hrestore _ _ _ _ _ _ 0%Z _ Hsel ltac:(right; left) Hbranch).
  apply Hgrid. rewrite <- Hrestore. vm_compute. reflexivity.
Qed.

(** C4, refuted as stated: in [torn_cell] the only cell is unknown and the
    values of its row and of its column have nothing in common, yet
    [_update_domains] returns true. *)
Lemma empty_intersection_not_detected :
  __init__ [[1%Z]] [[]] = Some torn_cell ∧
  cell_at (grid torn_cell) 0 0 = None ∧
  common_values torn_cell 0 0 = [] ∧
  _update_domains torn_cell = Some (true, torn_cell) ∧
  ¬ (∀ s b s1 i j, _update_domains s = Some (b, s1) →
       i < height s1 → j < width s1 →
       cell_at (grid s1) i j = None → common_values s1 i j = [] →
       b = false).
Proof.
  assert (_update_domains torn_cell = Some (true, torn_cell)) as Hupd
    by (vm_compute; reflexivity).
  split; [vm_compute; reflexivity|]. split; [reflexivity|].
  split; [vm_compute; reflexivity|]. split; [exact Hupd|].
  intros Hfail.
  assert (true = false) as Habsurd; [|discriminate].
  apply (Hfail torn_cell true torn_cell 0 0 Hupd);
    [simpl; lia|simpl; lia|reflexivity|vm_compute; reflexivity].
Qed.

Lemma empty_intersection_fails_search_witness :
  (cell_at (grid torn_cell) 0 0 = None ∧ common_values torn_cell 0 0 = [] ∧
   _update_domains torn_cell = Some (true, torn_cell) ∧
   0 < height torn_cell ∧ 0 < width torn_cell) ∧
  (∀ changed, cell_step (0, 0) (torn_cell, changed) = Running (torn_cell, changed)) ∧
  (∀ l sc, ∃ sc', for_each cell_step l sc = Running sc') ∧
  solve torn_cell = Some (false, torn_cell).
Proof.
  assert (_update_domains torn_cell = Some (true, torn_cell)) as H1
    by (vm_compute; reflexivity).
  assert (0 < height torn_cell) as H2 by (simpl; lia).
  assert (0 < width torn_cell) as H3 by (simpl; lia).
  assert (cell_at (grid torn_cell) 0 0 = None) as H4 by reflexivity.
  assert (common_values torn_cell 0 0 = []) as H5 by (vm_compute; reflexivity).
  split; [done|].
  destruct (empty_intersection_fails_search torn_cell torn_cell 0 0 H4 H5)
    as (Hstep & Hloop & Hsolve).
  split; [exact Hstep|]. split; [exact Hloop|]. exact (Hsolve H1 H2 H3).
Defined.

Lemma solve_true_is_solution_witness :
  (Forall (Forall (λ b, 0 < b)%Z) [[1%Z]] ∧
   __init__ [[1%Z]] [[1%Z]] = Some one_cell ∧
   solve one_cell = Some (true, one_cell_solved)) ∧
  Forall (Forall is_Some) (grid one_cell_solved) ∧
  ∃ g, grid one_cell_solved = (λ row : line, Some <$> row) <$> g ∧
       solution [[1%Z]] [[1%Z]] g.
Proof.
  assert (Forall (Forall (λ b, 0 < b)%Z) [[1%Z]]) as H1
    by (repeat constructor; lia).
  assert (__init__ [[1%Z]] [[1%Z]] = Some one_cell) as H2 by (vm_compute; reflexivity).
  assert (solve one_cell = Some (true, one_cell_solved)) as H3
    by (vm_compute; reflexivity).
  split; [done|].
  exact (solve_true_is_solution [[1%Z]] [[1%Z]] one_cell one_cell_solved H1 H1 H2 H3).
Defined.

Lemma too_long_clue_unsolvable_witness :
  (__init__ tall_rows tall_cols = Some tall ∧ tall_cols !! 0 = Some [4%Z] ∧
   too_long [4%Z] (length tall_rows)) ∧
  Generator.generate_line_possibilities [4%Z] (length tall_rows) = Some [] ∧
  col_domains tall !! 0 = Some [] ∧ ∃ s', solve tall = Some (false, s').
Proof.
  assert (__init__ tall_rows tall_cols = Some tall) as H1 by (vm_compute; reflexivity).
  assert (tall_cols !! 0 = Some [4%Z]) as H2 by reflexivity.
  assert (too_long [4%Z] (length tall_rows)) as H3 by (vm_compute; reflexivity).
  split; [done|].
  exact (proj2 (too_long_clue_unsolvable tall_rows tall_cols tall H1) 0 [4%Z] H2 H3).
Defined.

Lemma domains_only_shrink_witness :
  __init__ gate_rows gate_cols = Some gate ∧
  Forall2 (domain_of (length gate_cols)) gate_rows (row_domains gate) ∧
  Forall2 (domain_of (length gate_rows)) gate_cols (col_domains gate) ∧
  StronglySorted domains_le (gate :: solve_with_trace set_order gate) ∧
  ∃ b s', solve gate = Some (b, s') ∧
          last (gate :: solve_with_trace set_order gate) = Some s'.
Proof.
  assert (__init__ gate_rows gate_cols = Some gate) as H by (vm_compute; reflexivity).
  split; [exact H|]. exact (domains_only_shrink gate_rows gate_cols gate H).
Defined.

Lemma wf_one_cell : wf one_cell.
Proof. split; simpl; repeat constructor. Defined.

Lemma propagation_monotonic_witness :
  wf one_cell ∧
  StronglySorted state_le (one_cell :: _update_domains_trace one_cell) ∧
  ∃ b s', _update_domains one_cell = Some (b, s') ∧
          last (one_cell :: _update_domains_trace one_cell) = Some s'.
Proof.
  split; [exact wf_one_cell|].
  split; [exact (proj1 (propagation_monotonic one_cell))|].
  exact (proj2 (propagation_monotonic one_cell) wf_one_cell).
Defined.

Lemma propagation_idempotent_witness :
  _update_domains one_cell = Some (true, one_cell_solved) ∧
  _update_domains one_cell_solved = Some (true, one_cell_solved).
Proof.
  assert (_update_domains one_cell = Some (true, one_cell_solved)) as H
    by (vm_compute; reflexivity).
  split; [exact H|]. exact (propagation_idempotent one_cell one_cell_solved H).
Defined.

(** * More on the generator: it misses no line *)

Section placements_of_lines.

Lemma layout_shift length ps : ∀ off,
  layout (S length) (off + 1) (shift ps) = layout length off ps.
Proof.
  induction ps as [|[s b] ps IH]; intros off; simpl.
  - f_equal. lia.
  - rewrite <- (IH (s + b)%Z).
    replace (s + 1 - (off + 1))%Z with (s - off)%Z by lia.
    by replace (s + 1 + b)%Z with (s + b + 1)%Z by lia.
Qed.

Lemma placed_shift length ps : ∀ pos,
  placed length pos ps → placed (S length) (pos + 1) (shift ps).
Proof.
  induction ps as [|[s b] ps IH]; intros pos; simpl; [done|].
  intros (Hs & Hb & Hle & Hp). split; [lia|]. split; [done|]. split; [lia|].
  replace (s + 1 + b + 1)%Z with (s + b + 1 + 1)%Z by lia. by apply IH.
Qed.

Lemma placed_weaken length ps pos pos' :
  (pos' ≤ pos)%Z → placed length pos ps → placed length pos' ps.
Proof.
  destruct ps as [|[s b] ps]; simpl; [done|].
  intros Hle (Hs & Hb & Hlen & Hp). split; [lia|done].
Qed.

(** An empty cell in front of a drawing. *)
Lemma layout_cons_zero length ps :
  placed (S length) 1 ps →
  layout (S length) 0 ps = 0%Z :: layout (S length) 1 ps.
Proof.
  destruct ps as [|[s b] ps]; simpl.
  - intros _.
    replace (Z.to_nat (Z.of_nat (S length) - 0)) with
      (S (Z.to_nat (Z.of_nat (S length) - 1))) by lia. done.
  - intros (Hs & _).
    replace (Z.to_nat (s - 0)) with (S (Z.to_nat (s - 1))) by lia. done.
Qed.

(** Every line of zeros and ones is the drawing of a placement. *)
Lemma line_placement (l : line) :
  binary l → ∃ ps, placed (length l) 0 ps ∧ layout (length l) 0 ps = l.
Proof.
  induction 1 as [|v l Hv Hl (ps & Hp & Hlay)].
  - exists []. done.
  - cbn [length]. set (n := length l) in *. destruct Hv as [->| ->].
    + exists (shift ps). split.
      { eapply placed_weaken; [|by apply placed_shift]. lia. }
      pose proof (placed_shift _ _ _ Hp) as Hp'. simpl in Hp'.
      rewrite (layout_cons_zero n (shift ps) Hp').
      f_equal. rewrite <- Hlay. apply (layout_shift n ps 0).
    + destruct ps as [|[s b] ps].
      * exists [(0, 1)%Z]. split; [simpl; lia|]. simpl. simpl in Hlay.
        rewrite <- Hlay. f_equal. f_equal. lia.
      * destruct Hp as (Hs & Hb & Hle & Hp). simpl in Hs, Hb, Hle, Hp.
        destruct (decide (s = 0%Z)) as [->|Hne].
        -- exists ((0, b + 1)%Z :: shift ps). split.
           { simpl. split; [lia|]. split; [lia|]. split; [lia|].
             replace (0 + (b + 1) + 1)%Z with (0 + b + 1 + 1)%Z by lia.
             by apply placed_shift. }
           rewrite <- Hlay. simpl.
           replace (Z.to_nat (b + 1)) with (S (Z.to_nat b)) by lia. simpl.
           f_equal. f_equal.
           replace (0 + (b + 1))%Z with (0 + b + 1)%Z by lia. apply layout_shift.
        -- exists ((0, 1)%Z :: shift ((s, b) :: ps)). split.
           { simpl. split; [lia|]. split; [lia|]. split; [lia|].
             split; [lia|]. split; [lia|]. split; [lia|].
             replace (s + 1 + b + 1)%Z with (s + b + 1 + 1)%Z by lia.
             by apply placed_shift. }
           rewrite <- Hlay.
           change (layout (S n) 0 ((0, 1)%Z :: shift ((s, b) :: ps)))
             with (1%Z :: layout (S n) (0 + 1) (shift ((s, b) :: ps))).
           f_equal. apply layout_shift.
Qed.

End placements_of_lines.

Section enumeration.

(** The loop runs the recursive call at every admissible start. *)
Lemma place_loop_visits ok rec n : ∀ start lines st,
  Generator.place_loop ok rec n start = Some lines →
  (start ≤ st < start + Z.of_nat n)%Z → ok st = true →
  ∃ r, rec st = Some r ∧ ∀ x : line, x ∈ r → x ∈ lines.
Proof.
  induction n as [|n IH]; intros start lines st Hloop Hst Hok; [lia|].
  simpl in Hloop. destruct (decide (st = start)) as [->|Hne].
  - rewrite Hok in Hloop. apply bind_Some in Hloop as (r & Hr & Hloop).
    apply bind_Some in Hloop as (rs & _ & [= <-]).
    exists r. split; [done|]. intros x Hx. apply elem_of_app. by left.
  - assert (∀ ls, Generator.place_loop ok rec n (start + 1) = Some ls →
                  ∃ r, rec st = Some r ∧ ∀ x : line, x ∈ r → x ∈ ls) as Hrest.
    { intros ls Hls. eapply (IH (start + 1)%Z); [exact Hls|lia|done]. }
    destruct (ok start).
    + apply bind_Some in Hloop as (r0 & _ & Hloop).
      apply bind_Some in Hloop as (rs & Hrs & [= <-]).
      destruct (Hrest _ Hrs) as (r & Hr & Hsub). exists r. split; [done|].
      intros x Hx. apply elem_of_app. right. by apply Hsub.
    + by apply Hrest.
Qed.

Lemma next_pos_cons pos p ps : next_pos pos (p :: ps) = next_pos (p.1 + p.2 + 1) ps.
Proof. done. Qed.

Lemma next_pos_ge length ps : ∀ pos,
  placed length pos ps → (pos ≤ next_pos pos ps)%Z.
Proof.
  induction ps as [|[s b] ps IH]; intros pos; [unfold next_pos; simpl; lia|].
  rewrite next_pos_cons. simpl.
  intros (Hs & Hb & _ & Hp). specialize (IH _ Hp). lia.
Qed.

(** The blocks already placed end before the next position. *)
Lemma placed_ends length ps : ∀ pos p,
  placed length pos ps → p ∈ ps → (p.1 + p.2 ≤ next_pos pos ps)%Z.
Proof.
  induction ps as [|[s b] ps IH]; intros pos p.
  - intros _ Hp. by apply elem_of_nil in Hp.
  - rewrite next_pos_cons. simpl. intros (Hs & Hb & Hle & Hp) Hin.
    apply elem_of_cons in Hin as [->|Hin].
    + pose proof (next_pos_ge _ _ _ Hp) as Hge. simpl. lia.
    + by apply IH.
Qed.

(** A placement leaves room for its blocks and the gaps between them. *)
Lemma placed_fits length ps : ∀ s b,
  placed length s ((s, b) :: ps) →
  (s + sum (b :: ps.*2) + len ps ≤ Z.of_nat length)%Z.
Proof.
  unfold len. induction ps as [|[s' b'] ps IH]; intros s b.
  - simpl. lia.
  - intros (_ & Hb & Hle & Hs' & Hrest). simpl in Hb, Hle, Hs', Hrest.
    assert (placed length s' ((s', b') :: ps)) as Hp by (simpl; split; [lia|done]).
    specialize (IH _ _ Hp). cbn [sum foldr fmap list_fmap snd List.length] in *. lia.
Qed.

Lemma generate_positions_complete length current : ∀ ps pos_list pos lines,
  ps.*2 = current → placed length 0 pos_list → pos = next_pos 0 pos_list →
  placed length pos ps →
  Generator.generate_positions length pos_list pos current = Some lines →
  layout length 0 (pos_list ++ ps) ∈ lines.
Proof.
  induction current as [|block rest IH];
    intros ps pos_list pos lines Hps Hpl Hpos Hplaced Hgen.
  - apply fmap_nil_inv in Hps as ->. rewrite app_nil_r. simpl in Hgen.
    pose proof (paint_layout length pos_list [] 0%Z) as Hpaint.
    simpl in Hpaint. rewrite Z.sub_0_r, Nat2Z.id in Hpaint.
    rewrite Hpaint in Hgen by done. injection Hgen as <-. left.
  - destruct ps as [|[s b] ps]; [done|]. injection Hps as <- <-.
    cbn [Generator.generate_positions] in Hgen.
    pose proof Hplaced as (Hs & Hb & Hle & Hrest). simpl in Hs, Hb, Hle, Hrest.
    assert (placed length 0 (pos_list ++ [(s, b)])) as Hpl'.
    { apply placed_app. split; [done|]. rewrite <- Hpos. simpl. lia. }
    apply (place_loop_visits _ _ _ _ _ s) in Hgen as (r & Hr & Hsub).
    + apply Hsub.
      replace (pos_list ++ (s, b) :: ps) with ((pos_list ++ [(s, b)]) ++ ps)
        by by rewrite <- app_assoc.
      eapply IH; [done|done|by rewrite next_pos_snoc|done|exact Hr].
    + assert (placed length s ((s, b) :: ps)) as Hfit by (simpl; split; [lia|done]).
      apply placed_fits in Hfit.
      unfold len, sum in *. cbn [foldr List.length] in *.
      change (list_fmap (Z * Z)%type Z snd ps) with (ps.*2) in *.
      rewrite length_fmap. lia.
    + apply forallb_forall. intros p Hp. apply bool_decide_eq_true.
      apply list_elem_of_In in Hp.
      pose proof (placed_ends _ _ _ _ Hpl Hp). lia.
Qed.

End enumeration.

(** No line with the right runs is missing. *)
Lemma generated_line_complete blocks length lines l :
  Generator.generate_line_possibilities blocks length = Some lines →
  List.length l = length → binary l → filled_runs l = blocks → l ∈ lines.
Proof.
  intros Hgen Hlen Hbin Hruns.
  destruct (line_placement l Hbin) as (ps & Hpl & Hlay).
  rewrite Hlen in Hpl, Hlay. subst l.
  rewrite (filled_runs_layout _ _ Hpl) in Hruns. subst blocks.
  unfold Generator.generate_line_possibilities in Hgen.
  destruct ps as [|[s b] ps].
  - injection Hgen as <-. simpl. rewrite Z.sub_0_r, Nat2Z.id. left.
  - cbn [fmap list_fmap] in Hgen. case_bool_decide as Hspace.
    + exfalso. pose proof Hpl as (Hs & _). simpl in Hs.
      assert (placed length s ((s, b) :: ps)) as Hfit
        by (destruct Hpl as (? & ? & ? & ?); simpl; split; [lia|done]).
      apply placed_fits in Hfit. unfold len, sum in *.
      cbn [foldr List.length snd] in *.
      change (list_fmap (Z * Z)%type Z snd ps) with (ps.*2) in *.
      rewrite length_fmap in Hspace. lia.
    + by apply (generate_positions_complete length (b :: ps.*2)
                  ((s, b) :: ps) [] 0%Z lines).
Qed.

(** X1: for positive blocks, the lines returned by the generator are exactly
    the lines of zeros and ones of the requested length whose runs of filled
    cells are the blocks: none is missing. *)
Theorem generator_exact (blocks : list Z) (length : nat) :
  Forall (λ b, 0 < b)%Z blocks →
  ∃ lines, Generator.generate_line_possibilities blocks length = Some lines ∧
    ∀ l, l ∈ lines ↔ List.length l = length ∧ binary l ∧ filled_runs l = blocks.
Proof.
  intros Hpos.
  destruct (generate_line_possibilities_total blocks length Hpos) as [lines Hgen].
  exists lines. split; [done|]. intros l. split.
  - intros Hl.
    pose proof (generate_line_possibilities_length _ _ _ Hgen) as Hlen.
    rewrite Forall_forall in Hlen. split; [by apply Hlen|].
    destruct (generated_line_placement _ _ _ _ Hpos Hgen Hl) as (ps & Hps & Hpl & ->).
    split; [apply layout_binary|]. rewrite <- Hps. by apply filled_runs_layout.
  - intros (Hlen & Hbin & Hruns). by eapply generated_line_complete.
Qed.

Lemma generator_exact_witness :
  Forall (λ b, 0 < b)%Z [2; 1]%Z ∧
  ∃ lines, Generator.generate_line_possibilities [2; 1]%Z 5 = Some lines ∧
    ∀ l, l ∈ lines ↔ List.length l = 5 ∧ binary l ∧ filled_runs l = [2; 1]%Z.
Proof.
  assert (Forall (λ b, 0 < b)%Z [2; 1]%Z) as H by (repeat constructor; lia).
  split; [exact H|]. exact (generator_exact [2; 1]%Z 5 H).
Defined.

(** * The clues of a line ([extract_clues]) *)

Section clues_of_a_line.

Lemma runs_from_positive l : ∀ c,
  (0 ≤ c)%Z → Forall (λ b, 0 < b)%Z (runs_from c l).
Proof.
  induction l as [|v l IH]; intros c Hc; simpl.
  - case_bool_decide; [by apply Forall_singleton|done].
  - case_bool_decide; [apply IH; lia|].
    case_bool_decide; [apply Forall_cons; split; [done|]|]; by apply IH.
Qed.

Lemma runs_from_sum l : ∀ c,
  (0 ≤ c)%Z → sum (runs_from c l) = (c + count_filled l)%Z.
Proof.
  unfold count_filled.
  induction l as [|v l IH]; intros c Hc; simpl.
  - case_bool_decide; simpl; lia.
  - case_bool_decide as Hv.
    + rewrite filter_cons_True by done. rewrite IH by lia. simpl. lia.
    + rewrite filter_cons_False by done.
      case_bool_decide; simpl; rewrite IH by lia; lia.
Qed.

(** Blocks and the gaps between them take no more cells than were read. *)
Lemma runs_from_fit l : ∀ c,
  (0 ≤ c)%Z →
  (sum (runs_from c l) + len (runs_from c l) ≤ c + Z.of_nat (length l) + 1)%Z.
Proof.
  unfold len.
  induction l as [|v l IH]; intros c Hc; simpl.
  - case_bool_decide; simpl; lia.
  - case_bool_decide as Hv.
    + specialize (IH (c + 1)%Z). lia.
    + specialize (IH 0%Z). case_bool_decide; simpl; lia.
Qed.

Lemma runs_from_nil l : ∀ c,
  (0 ≤ c)%Z → runs_from c l = [] ↔ c = 0%Z ∧ Forall (λ v, v ≠ 1%Z) l.
Proof.
  induction l as [|v l IH]; intros c Hc; simpl.
  - case_bool_decide; split.
    + done.
    + intros [? _]. lia.
    + intros _. split; [lia|constructor].
    + done.
  - rewrite Forall_cons. case_bool_decide as Hv.
    + rewrite IH by lia. split; [lia|]. intros (_ & ? & _). done.
    + case_bool_decide.
      * split; [done|]. intros [? _]. lia.
      * rewrite IH by lia. split; [intros [_ ?]; split; [lia|done]|].
        intros (? & _ & ?). done.
Qed.

Lemma extract_clues_blank l :
  Forall (λ v, v ≠ 1%Z) l → extract_clues l = [0%Z] ∧ filled_runs l = [].
Proof.
  intros Hl. assert (filled_runs l = []) as Hr by (apply runs_from_nil; done).
  unfold extract_clues. by rewrite Hr.
Qed.

Lemma extract_clues_filled l :
  ¬ Forall (λ v, v ≠ 1%Z) l → extract_clues l = filled_runs l ∧ filled_runs l ≠ [].
Proof.
  intros Hl. assert (filled_runs l ≠ []) as Hr.
  { intros Hr. apply runs_from_nil in Hr as [_ ?]; done. }
  unfold extract_clues. by destruct (filled_runs l).
Qed.

End clues_of_a_line.

(** X2: [extract_clues] returns [[0]] exactly for a line without filled
    cell; for any other line it returns the run lengths, all positive. *)
Theorem extract_clues_zero_or_positive (l : line) :
  (extract_clues l = [0%Z] ↔ Forall (λ v, v ≠ 1%Z) l) ∧
  (extract_clues l ≠ [0%Z] →
   extract_clues l = filled_runs l ∧ Forall (λ b, 0 < b)%Z (extract_clues l)).
Proof.
  destruct (decide (Forall (λ v, v ≠ 1%Z) l)) as [Hblank|Hfilled].
  - destruct (extract_clues_blank l Hblank) as [Hc _]. split; [done|].
    intros Hne. done.
  - destruct (extract_clues_filled l Hfilled) as [Hc Hne].
    assert (Forall (λ b, 0 < b)%Z (extract_clues l)) as Hpos.
    { rewrite Hc. by apply runs_from_positive. }
    split; [|done]. split; [|done]. intros H0. rewrite H0 in Hpos.
    apply Forall_cons in Hpos as [? _]. lia.
Qed.

Lemma extract_clues_zero_or_positive_witness :
  extract_clues [1; 0; 1; 1]%Z = filled_runs [1; 0; 1; 1]%Z ∧
  Forall (λ b, 0 < b)%Z (extract_clues [1; 0; 1; 1]%Z).
Proof.
  apply (extract_clues_zero_or_positive [1; 0; 1; 1]%Z). vm_compute. discriminate.
Defined.

Lemma extract_clues_sum (l : line) : sum (extract_clues l) = count_filled l.
Proof.
  pose proof (runs_from_sum l 0%Z ltac:(lia)) as Hsum.
  unfold extract_clues, filled_runs.
  destruct (runs_from 0 l) as [|b bs] eqn:Hr; [simpl in *; lia|lia].
Qed.

Lemma extract_clues_room (l : line) :
  (sum (extract_clues l) + len (extract_clues l) - 1 ≤ Z.of_nat (length l))%Z.
Proof.
  pose proof (runs_from_sum l 0%Z ltac:(lia)) as Hsum.
  pose proof (runs_from_fit l 0%Z ltac:(lia)) as Hfit.
  unfold extract_clues, filled_runs.
  destruct (runs_from 0 l) as [|b bs] eqn:Hr; [|lia].
  unfold len. simpl. lia.
Qed.

(** X3: the clue of a line adds up to the number of its filled cells, and
    with one free cell between consecutive blocks it fits in the line: a
    clue made by [extract_clues] is never too long for its own line. *)
Theorem extract_clues_fits (l : line) :
  sum (extract_clues l) = count_filled l ∧
  (sum (extract_clues l) + len (extract_clues l) - 1 ≤ Z.of_nat (length l))%Z ∧
  ¬ too_long (extract_clues l) (length l).
Proof.
  pose proof (extract_clues_room l) as Hfit.
  split; [apply extract_clues_sum|]. split; [done|]. unfold too_long. lia.
Qed.

(** The generator returns on the clue of any line, for the length of the
    line. *)
Lemma extract_clues_generates (l : line) :
  is_Some (Generator.generate_line_possibilities (extract_clues l) (length l)).
Proof.
  destruct (decide (Forall (λ v, v ≠ 1%Z) l)) as [Hblank|Hfilled].
  - destruct (extract_clues_blank l Hblank) as [-> _].
    by rewrite generate_zero_block.
  - destruct (extract_clues_filled l Hfilled) as [-> _].
    apply generate_line_possibilities_total. by apply runs_from_positive.
Qed.

Lemma own_line_generated (l : line) lines :
  binary l →
  Generator.generate_line_possibilities (extract_clues l) (length l) = Some lines →
  l ∈ lines.
Proof.
  intros Hbin Hgen.
  destruct (decide (Forall (λ v, v ≠ 1%Z) l)) as [Hblank|Hfilled].
  - destruct (extract_clues_blank l Hblank) as [Hc Hruns].
    rewrite Hc, generate_zero_block in Hgen. injection Hgen as <-.
    destruct (line_placement l Hbin) as (ps & Hpl & Hlay).
    pose proof (filled_runs_layout _ _ Hpl) as Hps. rewrite Hlay, Hruns in Hps.
    symmetry in Hps. apply fmap_nil_inv in Hps as ->. simpl in Hlay.
    rewrite Z.sub_0_r, Nat2Z.id in Hlay. rewrite Hlay. left.
  - destruct (extract_clues_filled l Hfilled) as [Hc _]. rewrite Hc in Hgen.
    by eapply generated_line_complete.
Qed.

(** X4: round trip between the two programs: every line of zeros and ones
    is among the possibilities that the solver generates from the clue that
    [extract_clues] gives for it, the blank line with its clue [[0]]
    included. *)
Theorem line_among_its_possibilities (l : line) :
  binary l →
  ∃ lines, Generator.generate_line_possibilities (extract_clues l) (length l)
           = Some lines ∧ l ∈ lines.
Proof.
  intros Hbin. destruct (extract_clues_generates l) as [lines Hgen].
  exists lines. split; [done|]. by apply own_line_generated.
Qed.

Lemma line_among_its_possibilities_witness :
  binary [0; 1; 1; 0; 1]%Z ∧
  ∃ lines, Generator.generate_line_possibilities
             (extract_clues [0; 1; 1; 0; 1]%Z) (length [0; 1; 1; 0; 1]%Z)
           = Some lines ∧ [0; 1; 1; 0; 1]%Z ∈ lines.
Proof.
  assert (binary [0; 1; 1; 0; 1]%Z) as H by (repeat constructor; auto).
  split; [exact H|]. exact (line_among_its_possibilities [0; 1; 1; 0; 1]%Z H).
Defined.

(** * Propagation keeps every grid that is still possible *)

Section kept_grids.

(** Converse of [valid_spec]. *)
Lemma valid_intro (cl : nat → cell) (p : line) :
  (∀ k v, p !! k = Some v → cl k = None ∨ cl k = Some v) →
  forallb negb (imap (λ k value, clash (cl k) value) p) = true.
Proof.
  intros H. apply forallb_forall. intros b Hb. apply list_elem_of_In in Hb.
  apply elem_of_lookup_imap_1 in Hb as (k & v & -> & Hk).
  unfold clash. destruct (H k v Hk) as [-> | ->]; [done|].
  by rewrite bool_decide_eq_true_2.
Qed.

Lemma values_at_member (d : domain) (p : line) k v :
  p ∈ d → p !! k = Some v → v ∈ values_at d k.
Proof.
  intros Hp Hk. unfold values_at. rewrite elem_of_remove_dups.
  apply list_elem_of_omap. by exists p.
Qed.

Lemma values_at_inv (d : domain) k v :
  v ∈ values_at d k → ∃ p, p ∈ d ∧ p !! k = Some v.
Proof.
  unfold values_at. rewrite elem_of_remove_dups. intros H.
  by apply list_elem_of_omap in H.
Qed.

Lemma cell_at_set_cell_ne s i j c i' j' :
  (i', j') ≠ (i, j) → cell_at (grid (set_cell s i j c)) i' j' = cell_at (grid s) i' j'.
Proof.
  intros Hne. unfold cell_at, set_cell. simpl.
  destruct (decide (i' = i)) as [->|Hi].
  - rewrite list_lookup_alter_eq. destruct (grid s !! i) as [row|]; simpl; [|done].
    rewrite list_lookup_insert_ne; [done|]. congruence.
  - by rewrite list_lookup_alter_ne.
Qed.

Lemma cell_at_set_cell_eq s i j c x :
  cell_at (grid (set_cell s i j c)) i j = Some x → c = Some x.
Proof.
  unfold cell_at, set_cell. simpl. rewrite list_lookup_alter_eq.
  destruct (grid s !! i) as [row|]; simpl; [|done].
  destruct (decide (j < length row)) as [Hj|Hj].
  - by rewrite list_lookup_insert_eq.
  - rewrite (lookup_ge_None_2 (<[j:=c]> row) j); [done|]. rewrite length_insert. lia.
Qed.

Context (g : list line).

(** The value of [g] in a cell of the grid. *)
Lemma contains_cell s i j :
  contains s g → i < height s → j < width s →
  ∃ row v, g !! i = Some row ∧ row !! j = Some v ∧ column g j !! i = Some v.
Proof.
  intros (Hh & Hw & _) Hi Hj.
  destruct (lookup_lt_is_Some_2 g i) as [row Hrow]; [lia|].
  pose proof Hw as Hw'. rewrite Forall_lookup in Hw'.
  destruct (lookup_lt_is_Some_2 row j) as [v Hv]; [rewrite (Hw' i row Hrow); lia|].
  exists row, v. split; [done|]. split; [done|].
  rewrite (column_lookup g (width s) j i Hw Hj), Hrow. done.
Qed.

Lemma contains_row_valid s i row :
  contains s g → g !! i = Some row → row_valid (grid s) i row = true.
Proof.
  intros (_ & _ & Hag & _) Hrow. apply (valid_intro (λ j, cell_at (grid s) i j)).
  intros j v Hv. destruct (cell_at (grid s) i j) as [x|] eqn:Hc; [|by left]. right.
  apply Hag in Hc. rewrite Hrow in Hc. simpl in Hc. congruence.
Qed.

Lemma contains_col_valid s j :
  contains s g → j < width s → col_valid (grid s) j (column g j) = true.
Proof.
  intros (_ & Hw & Hag & _) Hj. apply (valid_intro (λ i, cell_at (grid s) i j)).
  intros i v Hv. destruct (cell_at (grid s) i j) as [x|] eqn:Hc; [|by left]. right.
  apply Hag in Hc. rewrite (column_lookup g (width s) j i Hw Hj) in Hv. congruence.
Qed.

(** The three loop bodies never return and keep [g]. *)
Lemma row_step_keeps i s ch :
  contains s g → i < height s →
  ∃ s' ch', row_step i (s, ch) = Running (s', ch') ∧ contains s' g.
Proof.
  intros Hc Hi.
  destruct (lookup_lt_is_Some_2 g i) as [row Hrow];
    [destruct Hc as (-> & _); lia|].
  pose proof Hc as (Hh & Hw & Hag & Hr & Hcol).
  assert (row ∈ filter (λ p, row_valid (grid s) i p) (dom_at (row_domains s) i)) as Hin.
  { apply list_elem_of_filter. split; [|by apply Hr].
    apply Is_true_true. by apply contains_row_valid. }
  destruct (row_step_cases i s ch) as [[Hnil _]|[(_ & _ & ->)|(_ & _ & ->)]].
  - rewrite Hnil in Hin. by apply elem_of_nil in Hin.
  - eexists _, _. split; [done|]. repeat split; try done.
    intros k rowk Hk. simpl. destruct (decide (i = k)) as [<-|Hne].
    + unfold dom_at. rewrite list_lookup_insert_eq.
      * simpl. assert (rowk = row) as -> by congruence. exact Hin.
      * apply lookup_lt_is_Some. unfold dom_at in Hin.
        destruct (row_domains s !! i); [by eexists|].
        simpl in Hin. rewrite filter_nil in Hin. by apply elem_of_nil in Hin.
    + rewrite dom_at_insert_ne by done. by apply Hr.
  - by eexists _, _.
Qed.

Lemma col_step_keeps j s ch :
  contains s g → j < width s →
  ∃ s' ch', col_step j (s, ch) = Running (s', ch') ∧ contains s' g.
Proof.
  intros Hc Hj. pose proof Hc as (Hh & Hw & Hag & Hr & Hcol).
  assert (column g j ∈ filter (λ p, col_valid (grid s) j p) (dom_at (col_domains s) j))
    as Hin.
  { apply list_elem_of_filter. split; [|by apply Hcol].
    apply Is_true_true. by apply contains_col_valid. }
  destruct (col_step_cases j s ch) as [[Hnil _]|[(_ & _ & ->)|(_ & _ & ->)]].
  - rewrite Hnil in Hin. by apply elem_of_nil in Hin.
  - eexists _, _. split; [done|]. repeat split; try done.
    intros k Hk. simpl in *. destruct (decide (j = k)) as [<-|Hne].
    + unfold dom_at. rewrite list_lookup_insert_eq; [done|].
      apply lookup_lt_is_Some. unfold dom_at in Hin.
      destruct (col_domains s !! j); [by eexists|].
      simpl in Hin. rewrite filter_nil in Hin. by apply elem_of_nil in Hin.
    + rewrite dom_at_insert_ne by done. by apply Hcol.
  - by eexists _, _.
Qed.

(** A cell is only ever forced to the value it has in [g]. *)
Lemma common_values_member s i j :
  contains s g → i < height s → j < width s →
  ∃ v, g !! i ≫= (λ row, row !! j) = Some v ∧ v ∈ common_values s i j.
Proof.
  intros Hc Hi Hj. destruct (contains_cell s i j Hc Hi Hj) as (row & v & Hrow & Hv & Hcv).
  pose proof Hc as (_ & _ & _ & Hr & Hcol).
  exists v. split; [by rewrite Hrow|].
  unfold common_values. apply list_elem_of_intersection. split.
  - eapply values_at_member; [by apply Hr|done].
  - eapply values_at_member; [by apply Hcol|done].
Qed.

Lemma cell_step_keeps i j s ch :
  contains s g → i < height s → j < width s →
  ∃ s' ch', cell_step (i, j) (s, ch) = Running (s', ch') ∧ contains s' g.
Proof.
  intros Hc Hi Hj.
  destruct (cell_step_cases i j s ch) as [(v & Hnone & Hcv & ->)|[_ ->]];
    [|by eexists _, _].
  eexists _, _. split; [done|].
  destruct (common_values_member s i j Hc Hi Hj) as (x & Hx & Hin).
  rewrite Hcv in Hin. apply list_elem_of_singleton in Hin as ->.
  destruct Hc as (Hh & Hw & Hag & Hr & Hcol). repeat split; try done.
  intros i' j' v' Hv'. destruct (decide ((i', j') = (i, j))) as [[= -> ->]|Hne].
  - apply cell_at_set_cell_eq in Hv' as [= <-]. done.
  - rewrite cell_at_set_cell_ne in Hv' by done. by apply Hag.
Qed.

Lemma for_each_keeps {A} (body : A → state * bool → flow (state * bool))
    (ok : state → A → Prop) h w l :
  (∀ a s ch, contains s g → height s = h → width s = w → ok s a →
     ∃ s' ch', body a (s, ch) = Running (s', ch') ∧ contains s' g ∧
               height s' = h ∧ width s' = w) →
  (∀ a s s', height s = height s' → width s = width s' → ok s a → ok s' a) →
  ∀ s ch, contains s g → height s = h → width s = w → Forall (ok s) l →
    ∃ s' ch', for_each body l (s, ch) = Running (s', ch') ∧ contains s' g ∧
              height s' = h ∧ width s' = w.
Proof.
  intros Hbody Hok. induction l as [|a l IH]; intros s ch Hc Hh Hw Hl.
  - by eexists _, _.
  - apply Forall_cons in Hl as [Ha Hl]. cbn [for_each].
    destruct (Hbody a s ch Hc Hh Hw Ha) as (s1 & ch1 & -> & Hc1 & Hh1 & Hw1).
    apply IH; [done..|]. eapply Forall_impl; [exact Hl|].
    intros b. apply Hok; congruence.
Qed.

Lemma step_dims_row i s ch s' ch' :
  row_step i (s, ch) = Running (s', ch') → height s' = height s ∧ width s' = width s.
Proof.
  destruct (row_step_cases i s ch) as [[_ ->]|[(_ & _ & ->)|(_ & _ & ->)]];
    [done|by intros [= <- _]..].
Qed.

Lemma step_dims_col j s ch s' ch' :
  col_step j (s, ch) = Running (s', ch') → height s' = height s ∧ width s' = width s.
Proof.
  destruct (col_step_cases j s ch) as [[_ ->]|[(_ & _ & ->)|(_ & _ & ->)]];
    [done|by intros [= <- _]..].
Qed.

Lemma step_dims_cell ij s ch s' ch' :
  cell_step ij (s, ch) = Running (s', ch') → height s' = height s ∧ width s' = width s.
Proof.
  destruct ij as [i j].
  destruct (cell_step_cases i j s ch) as [(v & _ & _ & ->)|[_ ->]];
    by intros [= <- _].
Qed.

(** One pass keeps [g] and does not return. *)
Lemma pass_keeps s :
  contains s g → ∃ s' ch, pass s = Running (s', ch) ∧ contains s' g.
Proof.
  intros Hc. unfold pass.
  destruct (for_each_keeps row_step (λ s i, i < height s) (height s) (width s)
              (seq 0 (height s))) with (s := s) (ch := false)
    as (s1 & ch1 & -> & Hc1 & Hh1 & Hw1); [| |done..| |].
  { intros i t ch Ht Hh Hw Hi. destruct (row_step_keeps i t ch Ht Hi) as (t' & ch' & Hr & Ht').
    exists t', ch'. apply step_dims_row in Hr as Hd. split; [done|]. split; [done|].
    destruct Hd. split; congruence. }
  { intros i t t' Hh _. simpl. lia. }
  { apply Forall_forall. intros i Hi. apply elem_of_seq in Hi. lia. }
  destruct (for_each_keeps col_step (λ s j, j < width s) (height s) (width s)
              (seq 0 (width s))) with (s := s1) (ch := ch1)
    as (s2 & ch2 & -> & Hc2 & Hh2 & Hw2); [| |done..| |].
  { intros j t ch Ht Hh Hw Hj. destruct (col_step_keeps j t ch Ht Hj) as (t' & ch' & Hr & Ht').
    exists t', ch'. apply step_dims_col in Hr as Hd. split; [done|]. split; [done|].
    destruct Hd. split; congruence. }
  { intros j t t' _ Hw. simpl. lia. }
  { apply Forall_forall. intros j Hj. apply elem_of_seq in Hj. lia. }
  destruct (for_each_keeps cell_step (λ s ij, ij.1 < height s ∧ ij.2 < width s)
              (height s) (width s) (cells (height s) (width s)))
    with (s := s2) (ch := ch2) as (s3 & ch3 & -> & Hc3 & _); [| |done..| |].
  { intros [i j] t ch Ht Hh Hw [Hi Hj].
    destruct (cell_step_keeps i j t ch Ht Hi Hj) as (t' & ch' & Hr & Ht').
    exists t', ch'. apply step_dims_cell in Hr as Hd. split; [done|]. split; [done|].
    destruct Hd. split; congruence. }
  { intros ij t t' Hh Hw. simpl. lia. }
  { apply Forall_forall. intros [i j] Hij. apply elem_of_cells in Hij. simpl. lia. }
  by eexists _, _.
Qed.

Lemma update_loop_keeps fuel : ∀ s b s',
  contains s g → update_loop fuel s = Some (b, s') → b = true ∧ contains s' g.
Proof.
  induction fuel as [|fuel IH]; intros s b s' Hc; simpl; [done|].
  destruct (pass_keeps s Hc) as (s1 & ch & -> & Hc1). destruct ch.
  - by apply IH.
  - by intros [= <- <-].
Qed.

End kept_grids.

(** The object built by [__init__] contains a grid whose rows and columns
    the generator produces from the clues. *)
Lemma init_contains_lines rc cc s0 g :
  __init__ rc cc = Some s0 →
  length g = length rc → Forall (λ row : line, length row = length cc) g →
  (∀ i row clue lines, g !! i = Some row → rc !! i = Some clue →
     Generator.generate_line_possibilities clue (length cc) = Some lines →
     row ∈ lines) →
  (∀ j clue lines, cc !! j = Some clue →
     Generator.generate_line_possibilities clue (length rc) = Some lines →
     column g j ∈ lines) →
  contains s0 g.
Proof.
  intros Hinit Hlen Hwidth Hr Hc.
  pose proof (init_spec _ _ _ Hinit) as (Hh & Hw & Hg & Hrd & Hcd).
  split; [congruence|]. split; [by rewrite Hw|]. split.
  { intros i j v. rewrite Hg. unfold cell_at.
    destruct (replicate (length rc) (replicate (length cc) None) !! i) as [row|] eqn:Hrow;
      [|done].
    apply lookup_replicate in Hrow as [-> _].
    destruct (replicate (length cc) None !! j) as [c|] eqn:Hc'; [|done].
    by apply lookup_replicate in Hc' as [-> _]. }
  split.
  - intros i row Hrow.
    destruct (lookup_lt_is_Some_2 rc i) as [clue Hclue];
      [rewrite <- Hlen; by eapply lookup_lt_Some|].
    destruct (Forall2_lookup_l _ _ _ _ _ Hrd Hclue) as (d & Hd & lines & Hgen & ->).
    unfold dom_at. rewrite Hd. simpl. rewrite elem_of_remove_dups.
    by eapply Hr.
  - intros j Hj. rewrite Hw in Hj.
    destruct (lookup_lt_is_Some_2 cc j) as [clue Hclue]; [done|].
    destruct (Forall2_lookup_l _ _ _ _ _ Hcd Hclue) as (d & Hd & lines & Hgen & ->).
    unfold dom_at. rewrite Hd. simpl. rewrite elem_of_remove_dups.
    by eapply Hc.
Qed.

Lemma length_column {A} (g : list (list A)) w j :
  Forall (λ row, length row = w) g → j < w → length (column g j) = length g.
Proof.
  intros Hg Hj. unfold column. induction Hg as [|row g Hrow _ IH]; [done|].
  destruct (lookup_lt_is_Some_2 row j) as [x Hx]; [lia|].
  cbn [omap list_omap]. rewrite Hx. simpl. by rewrite IH.
Qed.

Lemma binary_column (g : list line) j : Forall binary g → binary (column g j).
Proof.
  intros Hg. unfold binary, column. apply Forall_forall. intros v Hv.
  apply list_elem_of_omap in Hv as (row & Hrow & Hv).
  rewrite Forall_forall in Hg. specialize (Hg row Hrow).
  unfold binary in Hg. rewrite Forall_forall in Hg. apply Hg.
  by eapply list_elem_of_lookup_2.
Qed.

(** The object built by [__init__] contains every solution. *)
Lemma init_contains rc cc s0 g :
  __init__ rc cc = Some s0 → solution rc cc g → contains s0 g.
Proof.
  intros Hinit (Hlen & Hrows & Hr & Hc).
  assert (Forall (λ row : line, length row = length cc) g) as Hwidth.
  { eapply Forall_impl; [exact Hrows|]. by intros row [? _]. }
  assert (Forall binary g) as Hbin.
  { eapply Forall_impl; [exact Hrows|]. by intros row [_ ?]. }
  apply (init_contains_lines rc cc); [done..| |].
  - intros i row clue lines Hrow Hclue Hgen.
    rewrite Forall_lookup in Hwidth, Hbin.
    eapply generated_line_complete; [exact Hgen|by eapply Hwidth|by eapply Hbin|].
    by eapply Hr.
  - intros j clue lines Hclue Hgen.
    eapply generated_line_complete; [exact Hgen| | |by apply Hc].
    + rewrite <- Hlen. eapply length_column; [done|]. by eapply lookup_lt_Some.
    + by apply binary_column.
Qed.

(** A grid that a state without unknown cell contains is the grid of the
    state. *)
Lemma contains_fixed s g :
  wf s → select s = None → contains s g → g = fixed_grid (grid s).
Proof.
  intros Hwf Hsel (Hh & Hw & Hag & _).
  apply list_eq_same_length with (height s); [|done|].
  { unfold fixed_grid. rewrite length_fmap. apply Hwf. }
  intros i row row' Hi Hrow Hrow'. unfold fixed_grid in Hrow'.
  rewrite list_lookup_fmap in Hrow'. apply fmap_Some in Hrow' as (cs & Hcs & ->).
  rewrite Forall_lookup in Hw. pose proof (Hw i row Hrow) as Hlen.
  pose proof (wf_grid_width s Hwf) as Hgw. rewrite Forall_lookup in Hgw.
  pose proof (Hgw i cs Hcs) as Hlen'.
  apply list_eq_same_length with (width s); [by rewrite length_fmap|done|].
  intros j v v' Hj Hv Hv'. rewrite list_lookup_fmap in Hv'.
  apply fmap_Some in Hv' as (c & Hc & ->).
  destruct (select_None s i j Hsel Hi Hj) as [x Hx].
  pose proof (Hag i j x Hx) as Hgx. rewrite Hrow in Hgx. simpl in Hgx.
  rewrite (cell_at_lookup _ _ _ _ Hcs), Hc in Hx. simpl in Hx. subst c. simpl. congruence.
Qed.

(** X5: [_update_domains] never discards a possible grid.  If a grid of
    the size of the puzzle agrees with the cells fixed so far and has each of
    its rows and columns in the corresponding domain, then the call does not
    return false, and in the state it returns in the grid still agrees with the
    fixed cells and still has its rows and columns in the domains. *)
Theorem propagation_keeps_grid (s : state) (g : list line) :
  wf s → contains s g →
  ∃ s', _update_domains s = Some (true, s') ∧ contains s' g.
Proof.
  intros Hwf Hc. destruct (update_domains_total s Hwf) as (b & s' & Hrun & _).
  destruct (update_loop_keeps g _ _ _ _ Hc Hrun) as [-> Hc']. by exists s'.
Qed.

Lemma propagation_keeps_grid_witness :
  ∃ s', _update_domains Examples.gate = Some (true, s') ∧
        contains s' Examples.gate_solution.
Proof.
  apply propagation_keeps_grid.
  - exact wf_gate.
  - apply (init_contains _ _ _ _ gate_init). exact gate_solution_ok.
Defined.

(** X6: on a puzzle that has a solution, the first propagation of [solve]
    returns true, and every cell it has fixed has the value it has in every
    solution of the puzzle. *)
Theorem root_propagation_sound (rc cc : list (list Z)) (s0 : state) (g : list line) :
  __init__ rc cc = Some s0 → solution rc cc g →
  ∃ s1, _update_domains s0 = Some (true, s1) ∧ agrees (grid s1) g.
Proof.
  intros Hinit Hsol.
  destruct (update_domains_total s0 (wf_init _ _ _ Hinit)) as (b & s' & Hrun & _).
  destruct (update_loop_keeps g _ _ _ _ (init_contains _ _ _ _ Hinit Hsol) Hrun)
    as [-> Hc'].
  exists s'. split; [done|]. apply Hc'.
Qed.

Lemma root_propagation_sound_witness :
  ∃ s1, _update_domains Examples.gate = Some (true, s1) ∧
        agrees (grid s1) Examples.gate_solution.
Proof.
  apply (root_propagation_sound Examples.gate_rows Examples.gate_cols).
  - exact gate_init.
  - exact gate_solution_ok.
Defined.

(** X7: when the first propagation leaves no unknown cell, [solve] returns
    true with the grid propagation has filled, and every solution of the
    puzzle is that grid.  For clues of positive integers the grid is a
    solution, hence the only one. *)
Theorem propagation_solved_unique (rc cc : list (list Z)) (s0 s1 : state) :
  __init__ rc cc = Some s0 → _update_domains s0 = Some (true, s1) → select s1 = None →
  solve s0 = Some (true, s1) ∧
  (∀ g, solution rc cc g → g = fixed_grid (grid s1)) ∧
  (Forall (Forall (λ b, 0 < b)%Z) rc → Forall (Forall (λ b, 0 < b)%Z) cc →
   solution rc cc (fixed_grid (grid s1))).
Proof.
  intros Hinit Hrun Hsel.
  assert (wf s1) as Hwf1.
  { eapply wf_state_le; [by eapply wf_init|by eapply update_domains_le]. }
  split; [|split].
  - unfold solve, solve_with. cbn [solve_fuel]. by rewrite Hrun, Hsel.
  - intros g Hsol.
    destruct (update_loop_keeps g _ _ _ _ (init_contains _ _ _ _ Hinit Hsol) Hrun)
      as [_ Hc].
    by apply contains_fixed.
  - intros Hrc Hcc. eapply solved_solution; [done|done|exact Hinit| |].
    + apply state_le_search_le. by eapply update_domains_le.
    + split; [done|]. split; [by eapply update_domains_settled|done].
Qed.

Lemma propagation_solved_unique_witness :
  solve Examples.one_cell = Some (true, Examples.one_cell_solved) ∧
  (∀ g, solution [[1%Z]] [[1%Z]] g → g = fixed_grid (grid Examples.one_cell_solved)) ∧
  solution [[1%Z]] [[1%Z]] (fixed_grid (grid Examples.one_cell_solved)).
Proof.
  destruct (propagation_solved_unique [[1%Z]] [[1%Z]]
              Examples.one_cell Examples.one_cell_solved)
    as (Hsolve & Honly & Hsol); [vm_compute; reflexivity..|].
  split; [exact Hsolve|]. split; [exact Honly|].
  apply Hsol; repeat constructor.
Defined.

(** * After a failed branch no other value can succeed *)

Section stale_domains.

Lemma row_valid_ext g g' i p :
  (∀ j, cell_at g i j = cell_at g' i j) → row_valid g i p = row_valid g' i p.
Proof.
  intros H. unfold row_valid. f_equal. apply imap_ext. intros j v _. by rewrite H.
Qed.

Lemma filter_none (P : line → Prop) `{!∀ p, Decision (P p)} (d : domain) :
  (∀ p, p ∈ d → ¬ P p) → filter P d = [].
Proof.
  induction d as [|x d IH]; intros Hall; [done|].
  rewrite filter_cons_False by (apply Hall; left). apply IH.
  intros p Hp. apply Hall. by right.
Qed.

Lemma cell_at_set_cell s i j c :
  wf s → i < height s → j < width s → cell_at (grid (set_cell s i j c)) i j = c.
Proof.
  intros Hwf Hi Hj. destruct (wf_cell_in_range s i j Hwf Hi Hj) as (row & Hrow & Hjr).
  unfold cell_at. simpl. rewrite list_lookup_alter_eq, Hrow. simpl.
  by rewrite list_lookup_insert_eq.
Qed.

Lemma pinned_search_le s s' i j v : pinned s i j v → search_le s s' → pinned s' i j v.
Proof.
  intros Hp (_ & _ & _ & Hr & _) p Hin. apply Hp. by eapply doms_le_member.
Qed.

Lemma pinned_state_le s s' i j v : pinned s i j v → state_le s s' → pinned s' i j v.
Proof. intros Hp Hle. eapply pinned_search_le; [done|]. by apply state_le_search_le. Qed.

Lemma update_loop_le fuel s b s' : update_loop fuel s = Some (b, s') → state_le s s'.
Proof.
  intros H. destruct (update_chain fuel s) as (e & He & Hres).
  rewrite (Hres _ _ H). eapply chain_le; [apply _|done].
Qed.

Lemma for_each_le {A} (body : A → state * bool → flow (state * bool)) l sc :
  (∀ a sc, match body a sc with
           | Running sc' => state_le sc.1 sc'.1
           | Returned s' => state_le sc.1 s'
           end) →
  state_le sc.1 (flow_state (for_each body l sc)).
Proof.
  intros Hbody. eapply chain_le; [apply _|].
  exact (for_each_chain state_le body l Hbody sc).
Qed.

(** ** The first branch *)

Context (s : state) (i j : nat) (v : Z).
Hypothesis s_wf : wf s.
Hypothesis s_settled : settled s.
Hypothesis i_lt : i < height s.
Hypothesis j_lt : j < width s.

(** The row loop of the first pass after [self.grid[i][j] = v]: the other
    rows are as they were, row [i] keeps the lines with [v] in column [j]. *)
Lemma rows_pin (p0 : line) l : ∀ u ch,
  Forall (λ k, k < height s) l →
  wf u → grid u = grid (set_cell s i j (Some v)) →
  (∀ k, k ≠ i → dom_at (row_domains u) k = dom_at (row_domains s) k) →
  p0 ∈ dom_at (row_domains u) i → row_valid (grid u) i p0 = true →
  ∃ u' ch', for_each row_step l (u, ch) = Running (u', ch') ∧
    state_le u u' ∧ (pinned u i j v ∨ i ∈ l → pinned u' i j v).
Proof.
  induction l as [|k l IH]; intros u ch Hl Hwf Hg Hdom Hp0 Hv0.
  { exists u, ch. split; [done|]. split; [done|]. intros [?|H]; [done|].
    by apply elem_of_nil in H. }
  apply Forall_cons in Hl as [Hk Hl]. cbn [for_each].
  destruct (decide (k = i)) as [->|Hne].
  - assert (p0 ∈ filter (λ p, row_valid (grid u) i p) (dom_at (row_domains u) i)) as Hin.
    { apply list_elem_of_filter. split; [by apply Is_true_true|done]. }
    assert (∀ p, p ∈ filter (λ p, row_valid (grid u) i p) (dom_at (row_domains u) i) →
                 p !! j = Some v) as Hpin.
    { intros p Hp. apply list_elem_of_filter in Hp as [Hval Hp].
      apply Is_true_true in Hval.
      assert (length p = width u) as Hlen.
      { pose proof (wf_row_lines u Hwf) as Hrl. rewrite Forall_lookup in Hrl.
        unfold dom_at in Hp. destruct (row_domains u !! i) as [d|] eqn:Hd;
          [|by apply elem_of_nil in Hp].
        specialize (Hrl i d Hd). rewrite Forall_forall in Hrl. by apply Hrl. }
      assert (width u = width s) as Hw.
      { pose proof (wf_grid_width u Hwf) as H1. rewrite Hg in H1.
        pose proof (wf_grid_height u Hwf) as H2. rewrite Hg in H2.
        assert (wf (set_cell s i j (Some v))) as Hwf'.
        { eapply wf_search_le; [exact s_wf|apply search_le_set_cell]. }
        destruct (wf_cell_in_range _ i j Hwf' i_lt j_lt) as (row & Hrow & _).
        rewrite Forall_lookup in H1. rewrite <- (H1 i row Hrow).
        pose proof (wf_grid_width _ Hwf') as H3. rewrite Forall_lookup in H3.
        by rewrite (H3 i row Hrow). }
      destruct (lookup_lt_is_Some_2 p j) as [x Hx]; [lia|].
      destruct (row_valid_spec _ _ _ Hval j x Hx) as [Hc|Hc];
        rewrite Hg, cell_at_set_cell in Hc by done; [done|congruence]. }
    destruct (row_step_cases i u ch) as [[Hnil _]|[(_ & Hneq & ->)|(_ & Heq & ->)]].
    + rewrite Hnil in Hin. by apply elem_of_nil in Hin.
    + set (u1 := set_row_domain u i _).
      assert (state_le u u1) as Hle by apply state_le_set_row.
      assert (dom_at (row_domains u1) i
              = filter (λ p, row_valid (grid u) i p) (dom_at (row_domains u) i)) as Hd1.
      { unfold u1, dom_at. simpl. rewrite list_lookup_insert_eq; [done|].
        apply lookup_lt_is_Some. unfold dom_at in Hp0.
        destruct (row_domains u !! i); [by eexists|by apply elem_of_nil in Hp0]. }
      assert (pinned u1 i j v) as Hpin1.
      { intros p Hp. rewrite Hd1 in Hp. by apply Hpin. }
      destruct (IH u1 true Hl) as (u' & ch' & -> & Hle' & Hp');
        [by eapply wf_state_le|done| |by rewrite Hd1|done|].
      { intros k' Hk'. unfold u1. simpl. rewrite dom_at_insert_ne by done.
        by apply Hdom. }
      exists u', ch'. split; [done|]. split; [by etransitivity|].
      intros _. apply Hp'. by left.
    + assert (pinned u i j v) as Hpin1.
      { intros p Hp. apply Hpin. apply set_neq_false in Heq as [_ Hsub]. by apply Hsub. }
      destruct (IH u ch Hl) as (u' & ch' & -> & Hle' & Hp'); [done..|].
      exists u', ch'. split; [done|]. split; [done|].
      intros _. apply Hp'. by left.
  - destruct (settled_rows s k s_settled Hk) as [Hne' Hall].
    assert (filter (λ p, row_valid (grid u) k p) (dom_at (row_domains u) k)
            = dom_at (row_domains s) k) as Hf.
    { rewrite (Hdom k Hne). apply filter_all. eapply Forall_impl; [exact Hall|].
      intros p Hp.
      assert (row_valid (grid u) k p = row_valid (grid s) k p) as ->; [|done].
      rewrite Hg. apply row_valid_ext. intros j'. apply cell_at_set_cell_ne.
      congruence. }
    destruct (row_step_cases k u ch) as [[Hnil _]|[(_ & Hneq & _)|(_ & _ & ->)]].
    + by rewrite Hf in Hnil.
    + rewrite Hf, (Hdom k Hne) in Hneq.
      assert (set_neq (dom_at (row_domains s) k) (dom_at (row_domains s) k) = false)
        as Hdd by by apply set_neq_false.
      congruence.
    + destruct (IH u ch Hl) as (u' & ch' & -> & Hle' & Hp'); [done..|].
      exists u', ch'. split; [done|]. split; [done|].
      intros [?|Hin]; apply Hp'; [by left|].
      apply elem_of_cons in Hin as [?|?]; [congruence|by right].
Qed.

(** Propagation after the branch value [v] leaves row [i] with lines that
    have [v] in column [j] only, whatever it returns. *)
Lemma branch_pins b t' :
  cell_at (grid s) i j = None → v ∈ values_at (dom_at (row_domains s) i) j →
  _update_domains (set_cell s i j (Some v)) = Some (b, t') → pinned t' i j v.
Proof.
  intros Hnone Hv. apply values_at_inv in Hv as (p0 & Hp0 & Hp0j).
  set (t := set_cell s i j (Some v)).
  assert (wf t) as Hwf. { eapply wf_search_le; [exact s_wf|apply search_le_set_cell]. }
  destruct (settled_rows s i s_settled i_lt) as [_ Hall].
  rewrite Forall_forall in Hall. pose proof (Hall p0 Hp0) as Hv0.
  apply Is_true_true in Hv0.
  destruct (rows_pin p0 (seq 0 (height s)) t false) as (t1 & ch1 & Hrows & Hle1 & Hpin);
    [apply Forall_forall; intros k Hk; apply elem_of_seq in Hk; lia|done|done|done|done| |].
  { apply (valid_intro (λ k, cell_at (grid t) i k)). intros k x Hx.
    destruct (decide (k = j)) as [->|Hne].
    - right. unfold t. rewrite cell_at_set_cell by done. congruence.
    - unfold t. rewrite cell_at_set_cell_ne by congruence.
      by apply (row_valid_spec _ _ _ Hv0). }
  assert (pinned t1 i j v) as Hp1.
  { apply Hpin. right. apply elem_of_seq. lia. }
  assert (state_le t1 (flow_state (pass t))) as Hpass.
  { unfold pass. change (height t) with (height s). change (width t) with (width s).
    rewrite Hrows.
    pose proof (for_each_le col_step (seq 0 (width s)) (t1, ch1) col_step_le) as H2.
    destruct (for_each col_step (seq 0 (width s)) (t1, ch1)) as [t2|sc2]; [done|].
    pose proof (for_each_le cell_step (cells (height s) (width s)) sc2 cell_step_le) as H3.
    simpl in H2. by etransitivity. }
  unfold _update_domains. cbn [update_loop].
  destruct (pass t) as [t2|[t2 [|]]]; simpl in Hpass.
  - intros [= _ <-]. by eapply pinned_state_le.
  - intros H. apply update_loop_le in H. eapply pinned_state_le; [|exact H].
    by eapply pinned_state_le.
  - intros [= _ <-]. by eapply pinned_state_le.
Qed.

End stale_domains.

Section later_values.

Context (i j : nat) (v : Z).

(** A row whose possibilities all clash with the grid stops the row loop. *)
Lemma rows_stop_on_clash l : ∀ s ch,
  i ∈ l →
  filter (λ p, row_valid (grid s) i p) (dom_at (row_domains s) i) = [] →
  ∃ s', for_each row_step l (s, ch) = Returned s'.
Proof.
  induction l as [|a l IH]; intros s ch Hi Hd; [by apply elem_of_nil in Hi|].
  cbn [for_each].
  destruct (row_step_cases a s ch) as [[_ ->]|[(Hne & _ & ->)|(Hne & _ & ->)]];
    [by eexists| |].
  - destruct (decide (a = i)) as [->|Hai]; [done|].
    apply elem_of_cons in Hi as [->|Hi]; [done|].
    apply IH; [done|]. simpl. by rewrite dom_at_insert_ne.
  - destruct (decide (a = i)) as [->|Hai]; [done|].
    apply elem_of_cons in Hi as [->|Hi]; [done|]. by apply IH.
Qed.

(** With row [i] pinned to [v], any other value in the cell is rejected by
    the first row loop. *)
Lemma pinned_rejects order fuel u v' :
  wf u → i < height u → j < width u → pinned u i j v →
  cell_at (grid u) i j = Some v' → v' ≠ v →
  ∃ u', solve_fuel order (S fuel) u = Some (false, u') ∧ state_le u u'.
Proof.
  intros Hwf Hi Hj Hpin Hc Hne.
  assert (filter (λ p, row_valid (grid u) i p) (dom_at (row_domains u) i) = []) as Hnil.
  { apply filter_none. intros p Hp Hval. apply Is_true_true in Hval.
    destruct (row_valid_spec _ _ _ Hval j v (Hpin p Hp)) as [H|H]; congruence. }
  destruct (rows_stop_on_clash (seq 0 (height u)) u false) as [u' Hrows];
    [apply elem_of_seq; lia|done|].
  assert (_update_domains u = Some (false, u')) as Hupd.
  { unfold _update_domains. cbn [update_loop]. unfold pass. by rewrite Hrows. }
  exists u'. split; [|by eapply update_domains_le].
  cbn [solve_fuel]. by rewrite Hupd.
Qed.

(** The rest of the loop over the candidate values. *)
Lemma try_values_pinned order fuel rest : ∀ w,
  wf w → i < height w → j < width w → pinned w i j v → v ∉ rest →
  ∃ w', try_values (solve_fuel order (S fuel)) i j rest w = Some (false, w').
Proof.
  induction rest as [|v' rest IH]; intros w Hwf Hi Hj Hpin Hnot; [by eexists|].
  cbn [try_values]. apply not_elem_of_cons in Hnot as [Hne Hnot].
  set (u := set_cell w i j (Some v')).
  assert (search_le w u) as Hle by apply search_le_set_cell.
  destruct (pinned_rejects order fuel u v') as (u' & -> & Hle');
    [by eapply wf_search_le|done|done|by eapply pinned_search_le
    |by apply cell_at_set_cell|done|].
  assert (search_le w (set_cell u' i j None)) as Hle2.
  { etransitivity; [exact Hle|]. etransitivity; [by apply state_le_search_le|].
    apply search_le_set_cell. }
  pose proof Hle2 as (Hh & Hw & _).
  apply IH; [by eapply wf_search_le|lia|lia|by eapply pinned_search_le|done].
Qed.

End later_values.

Lemma try_values_le slv slv_trace i j values s b s' :
  traced slv slv_trace → try_values slv i j values s = Some (b, s') → search_le s s'.
Proof.
  intros Hslv H. destruct (try_values_traced slv slv_trace i j values Hslv s)
    as (e & He & Hres).
  rewrite (Hres _ _ H). eapply chain_le; [apply _|done].
Qed.

(** A call of [solve] returns in a state below the one its first
    propagation returned in. *)
Lemma solve_after_propagation order fuel s b s' :
  solve_fuel order fuel s = Some (b, s') →
  ∃ b1 s1, _update_domains s = Some (b1, s1) ∧ search_le s1 s'.
Proof.
  destruct fuel as [|fuel]; [done|]. cbn [solve_fuel].
  destruct (_update_domains s) as [[[|] s1]|]; [| |done].
  - destruct (select s1) as [[[n [i j]] vals]|].
    + intros H. exists true, s1. split; [done|].
      eapply try_values_le; [apply solve_traced|exact H].
    + intros [= <- <-]. by exists true, s1.
  - intros [= <- <-]. by exists false, s1.
Qed.

(** X8: once the recursive call for the first candidate value has returned
    false, [solve] returns false.  The later values are tried on the row
    domains the first one left, which hold no line with another value in the
    cell.  [order] is the order in which the loop visits the candidates. *)
Theorem first_candidate_decides (order : list Z → list Z) (fuel : nat)
    (s s1 t : state) (n i j : nat) (vals : list Z) (v : Z) :
  wf s → (∀ vs, order vs ≡ₚ vs) →
  _update_domains s = Some (true, s1) →
  select s1 = Some (n, (i, j), vals) → head (order vals) = Some v →
  solve_fuel order fuel (set_cell s1 i j (Some v)) = Some (false, t) →
  ∃ s', solve_fuel order (S fuel) s = Some (false, s').
Proof.
  intros Hwf Hperm Hupd Hsel Hhead Hbranch.
  cbn [solve_fuel]. rewrite Hupd, Hsel.
  destruct (order vals) as [|v0 rest] eqn:Hord; [done|]. injection Hhead as ->.
  cbn [try_values]. rewrite Hbranch.
  assert (wf s1) as Hwf1.
  { eapply wf_state_le; [done|]. by eapply update_domains_le. }
  pose proof (update_domains_settled _ _ Hupd) as Hset.
  apply select_Some in Hsel as (Hnone & Hi & Hj & ->).
  assert (v ∈ common_values s1 i j) as Hv.
  { rewrite <- (Hperm (common_values s1 i j)), Hord. left. }
  assert (v ∉ rest) as Hnot.
  { assert (NoDup (v :: rest)) as Hnd.
    { rewrite <- Hord, Hperm. apply NoDup_list_intersection, NoDup_remove_dups. }
    by apply NoDup_cons in Hnd as [? _]. }
  apply list_elem_of_intersection in Hv as [Hv _].
  destruct (solve_after_propagation _ _ _ _ _ Hbranch) as (b1 & t1 & Hupd1 & Hle1).
  pose proof (branch_pins s1 i j v Hwf1 Hset Hi Hj b1 t1 Hnone Hv Hupd1) as Hpin.
  pose proof (solve_search_le _ _ _ _ _ Hbranch) as Hle.
  assert (search_le s1 (set_cell t i j None)) as Hle2.
  { etransitivity; [apply (search_le_set_cell s1 i j (Some v))|].
    etransitivity; [exact Hle|]. apply search_le_set_cell. }
  pose proof Hle2 as (Hh & Hw & _).
  destruct fuel as [|fuel]; [done|].
  apply try_values_pinned with (v := v);
    [by eapply wf_search_le|lia|lia| |done].
  eapply pinned_search_le; [|apply search_le_set_cell].
  by eapply pinned_search_le.
Qed.

Lemma first_candidate_decides_witness :
  ∃ s', solve_fuel set_order 13 Examples.gate = Some (false, s').
Proof.
  apply (first_candidate_decides set_order 12 Examples.gate Examples.gate_propagated
           (set_cell Examples.gate_after_branch 0 0 (Some 0%Z)) 2 0 0 [1; 0]%Z 0%Z).
  - exact wf_gate.
  - intros vs. apply merge_sort_Permutation.
  - vm_compute; reflexivity.
  - vm_compute; reflexivity.
  - vm_compute; reflexivity.
  - vm_compute; reflexivity.
Defined.

Import Creator.

(** * The puzzle creator: [trim_grid] and [generate_clues] *)

Section masks.

Context {A : Type}.
Implicit Types (mask : list bool) (l : list A).

Lemma compress_nil_r mask : compress mask (@nil A) = [].
Proof. by destruct mask. Qed.

Lemma compress_false mask l : compress (false :: mask) l = compress mask (tail l).
Proof. destruct l; simpl; [by rewrite compress_nil_r|done]. Qed.

Lemma kept_cons b (m : list bool) : kept (b :: m) = (if b then S (kept m) else kept m).
Proof. unfold kept. by destruct b. Qed.

Lemma length_compress mask : ∀ l,
  length l = length mask → length (compress mask l) = kept mask.
Proof.
  induction mask as [|b mask IH]; intros [|x l] Hl; try done.
  rewrite kept_cons. injection Hl as Hl. simpl. destruct b; simpl; by rewrite IH.
Qed.

Lemma compress_all_true mask : ∀ l,
  Forall (λ b, b = true) mask → length l = length mask → compress mask l = l.
Proof.
  induction mask as [|b mask IH]; intros [|x l] Hm Hl; try done.
  apply Forall_cons in Hm as [-> Hm]. injection Hl as Hl. simpl. by rewrite IH.
Qed.

Lemma elem_of_compress mask : ∀ l j x,
  mask !! j = Some true → l !! j = Some x → x ∈ compress mask l.
Proof.
  induction mask as [|b mask IH]; intros [|y l] j x Hm Hl; try done.
  destruct j as [|j]; simpl in *.
  - simplify_eq. left.
  - destruct b; [right|]; by eapply IH.
Qed.

Lemma compress_Forall (P : A → Prop) mask : ∀ l,
  Forall P l → Forall P (compress mask l).
Proof.
  induction mask as [|b mask IH]; intros [|x l] Hl; simpl; try constructor.
  apply Forall_cons in Hl as [Hx Hl]. destruct b; [constructor; [done|]|]; by apply IH.
Qed.

(** Subscripting with the mask of a test keeps the elements that pass. *)
Lemma compress_by (f : A → bool) l :
  Forall (λ x, f x = true) (compress (f <$> l) l).
Proof.
  induction l as [|x l IH]; [constructor|].
  rewrite fmap_cons. cbn [compress].
  destruct (f x) eqn:Hx; [by constructor|done].
Qed.

Lemma compress_by_all (f : A → bool) l :
  Forall (λ x, f x = true) l → compress (f <$> l) l = l.
Proof.
  induction 1 as [|x l Hx _ IH]; [done|].
  rewrite fmap_cons. cbn [compress]. rewrite Hx. f_equal. exact IH.
Qed.

End masks.

Section arrays.

Lemma any_true (l : line) : any l = true ↔ ∃ v, v ∈ l ∧ v ≠ 0%Z.
Proof.
  unfold any. rewrite existsb_exists. split.
  - intros (v & Hin & Hv). exists v. split; [by apply list_elem_of_In|].
    apply negb_true_iff, Z.eqb_neq in Hv. done.
  - intros (v & Hin & Hv). exists v. split; [by apply list_elem_of_In|].
    by apply negb_true_iff, Z.eqb_neq.
Qed.

Lemma column_succ {A} (g : list (list A)) j : column g (S j) = column (tail <$> g) j.
Proof.
  unfold column. induction g as [|row g IH]; [done|].
  cbn [omap list_omap fmap list_fmap].
  assert (row !! S j = tail row !! j) as -> by by destruct row.
  by rewrite IH.
Qed.

Lemma transpose_succ w g :
  transpose (Array (S w) g) = column g 0 :: transpose (Array w (tail <$> g)).
Proof.
  unfold transpose. simpl. f_equal. rewrite <- fmap_S_seq, <- list_fmap_compose.
  apply list_fmap_ext. intros _ j _. simpl. apply column_succ.
Qed.

Lemma length_transpose a : length (transpose a) = ncols a.
Proof. unfold transpose. by rewrite length_fmap, length_seq. Qed.

Lemma transpose_lookup a j :
  j < ncols a → transpose a !! j = Some (column (data a) j).
Proof.
  intros Hj. unfold transpose. rewrite list_lookup_fmap, lookup_seq_lt by done. done.
Qed.

Lemma column_zero_heads (g : list line) x (rest : list line) :
  column ((λ p : Z * line, p.1 :: p.2) <$> zip x rest) 0 = fst <$> zip x rest.
Proof.
  unfold column. induction (zip x rest) as [|[v r] l IH]; [done|].
  cbn [omap list_omap fmap list_fmap]. simpl. by rewrite IH.
Qed.

(** Dropping columns commutes with transposition. *)
Lemma compress_transpose m : ∀ g,
  Forall (λ row : line, length row = length m) g →
  transpose (Array (kept m) (compress m <$> g)) = compress m (transpose (Array (length m) g)).
Proof.
  induction m as [|b m IH]; intros g Hg; [done|].
  cbn [length]. rewrite transpose_succ, kept_cons.
  assert (Forall (λ row : line, length row = length m) (tail <$> g)) as Hg'.
  { apply Forall_fmap. eapply Forall_impl; [exact Hg|].
    intros [|x row]; simpl; [done|lia]. }
  destruct b.
  - rewrite transpose_succ. cbn [compress]. f_equal.
    + unfold column. clear IH Hg'. induction Hg as [|[|x row] g Hrow _ IHg]; try done.
      cbn [fmap list_fmap omap list_omap]. simpl. by rewrite IHg.
    + rewrite <- IH by done. f_equal. f_equal. rewrite <- !list_fmap_compose.
      apply Forall_fmap_ext. eapply Forall_impl; [exact Hg|].
      intros [|x row]; simpl; done.
  - rewrite compress_false. simpl. rewrite <- IH by done. do 2 f_equal.
    rewrite <- list_fmap_compose. apply list_fmap_ext. intros _ row _. simpl.
    apply compress_false.
Qed.

Lemma binary_compress m (l : line) : binary l → binary (compress m l).
Proof.
  apply compress_Forall.
Qed.

(** An array without blank row or column has no row exactly when it has no
    column. *)
Lemma filled_empty (t : ndarray) :
  well_shaped t → Forall (λ r, any r = true) (data t) →
  Forall (λ c, any c = true) (transpose t) →
  data t = [] ↔ ncols t = 0.
Proof.
  intros Hs Hr Hc. split.
  - intros Hd. destruct (decide (ncols t = 0)) as [|Hn]; [done|]. exfalso.
    assert (0 < ncols t) as H0 by lia.
    pose proof (transpose_lookup t 0 H0) as Hl.
    rewrite Forall_lookup in Hc. specialize (Hc 0 _ Hl).
    apply any_true in Hc as (v & Hv & _). rewrite Hd in Hv.
    by apply elem_of_nil in Hv.
  - intros Hn. unfold well_shaped in Hs.
    destruct (data t) as [|r rs]; [done|].
    apply Forall_cons in Hr as [Hr _]. apply Forall_cons in Hs as [Hs _].
    rewrite Hn in Hs. apply nil_length_inv in Hs as ->. done.
Qed.

Context (a : ndarray).
Hypothesis a_shape : well_shaped a.

Local Abbreviation a1 := (Array (ncols a) (compress (any <$> data a) (data a))).
Local Abbreviation m := (any <$> transpose a1).

Lemma trim_rows_shape : well_shaped a1.
Proof.
  unfold well_shaped. simpl. by apply compress_Forall.
Qed.

Lemma trim_mask_length : length m = ncols a.
Proof. by rewrite length_fmap, length_transpose. Qed.

Lemma trim_grid_unfold :
  trim_grid a = Array (kept m) (compress m <$> data a1).
Proof. done. Qed.

Lemma trim_shape : well_shaped (trim_grid a).
Proof.
  rewrite trim_grid_unfold. unfold well_shaped. simpl. apply Forall_fmap.
  eapply Forall_impl; [exact trim_rows_shape|]. intros row Hrow. simpl in *.
  apply length_compress. by rewrite trim_mask_length.
Qed.

Lemma trim_columns : transpose (trim_grid a) = compress m (transpose a1).
Proof.
  rewrite trim_grid_unfold.
  rewrite compress_transpose.
  - by rewrite trim_mask_length.
  - rewrite trim_mask_length. exact trim_rows_shape.
Qed.

Lemma trim_columns_filled : Forall (λ c, any c = true) (transpose (trim_grid a)).
Proof. rewrite trim_columns. apply compress_by. Qed.

Lemma trim_rows_filled : Forall (λ r, any r = true) (data (trim_grid a)).
Proof.
  rewrite trim_grid_unfold. simpl. apply Forall_fmap.
  assert (Forall (λ r, any r = true) (data a1)) as Hrows by apply compress_by.
  apply Forall_forall. intros row Hrow. simpl.
  rewrite Forall_forall in Hrows. pose proof (Hrows row Hrow) as Hany.
  apply any_true in Hany as (v & Hv & Hne).
  apply list_elem_of_lookup in Hv as [j Hj].
  apply any_true. exists v. split; [|done].
  eapply elem_of_compress; [|exact Hj].
  assert (j < ncols a) as Hlt.
  { pose proof trim_rows_shape as Hs. unfold well_shaped in Hs.
    rewrite Forall_forall in Hs. specialize (Hs row Hrow).
    change (ncols a1) with (ncols a) in Hs. rewrite <- Hs. by eapply lookup_lt_Some. }
  rewrite list_lookup_fmap, (transpose_lookup a1 j Hlt). simpl. f_equal.
  apply any_true. exists v. split; [|done].
  unfold column. apply list_elem_of_omap. by exists row.
Qed.

Lemma trim_empty : data (trim_grid a) = [] ↔ ncols (trim_grid a) = 0.
Proof.
  apply filled_empty;
    [apply trim_shape|apply trim_rows_filled|apply trim_columns_filled].
Qed.

Lemma trim_binary : Forall binary (data a) → Forall binary (data (trim_grid a)).
Proof.
  intros Hb. rewrite trim_grid_unfold. simpl. apply Forall_fmap.
  assert (Forall binary (data a1)) as Hb1.
  { by apply compress_Forall. }
  eapply Forall_impl; [exact Hb1|]. intros row. apply binary_compress.
Qed.

End arrays.

(** An array without blank row or column is left as it is. *)
Lemma trim_grid_filled (a : ndarray) :
  well_shaped a → Forall (λ r, any r = true) (data a) →
  Forall (λ c, any c = true) (transpose a) → trim_grid a = a.
Proof.
  intros Hs Hr Hc. unfold trim_grid. rewrite (compress_by_all any (data a) Hr).
  destruct a as [w g]. simpl in *.
  assert (Forall (λ b, b = true) (any <$> transpose (Array w g))) as Hm.
  { by apply Forall_fmap. }
  assert (length (any <$> transpose (Array w g)) = w) as Hlen.
  { by rewrite length_fmap, length_transpose. }
  f_equal.
  - unfold kept. rewrite compress_all_true by done. done.
  - transitivity (id <$> g); [|apply list_fmap_id]. apply Forall_fmap_ext.
    eapply Forall_impl; [exact Hs|]. intros row Hrow. simpl in *.
    apply compress_all_true; [done|congruence].
Qed.

(** A binary line with a nonzero cell has a positive clue, its runs. *)
Lemma extract_clues_any (l : line) :
  binary l → any l = true →
  extract_clues l = filled_runs l ∧ Forall (λ b, 0 < b)%Z (extract_clues l).
Proof.
  intros Hb Hany. apply any_true in Hany as (v & Hv & Hne).
  assert (¬ Forall (λ v, v ≠ 1%Z) l) as Hfilled.
  { intros Hall. rewrite Forall_forall in Hall. specialize (Hall v Hv).
    unfold binary in Hb. rewrite Forall_forall in Hb. destruct (Hb v Hv); done. }
  destruct (extract_clues_filled l Hfilled) as [Hc _]. split; [done|].
  rewrite Hc. by apply runs_from_positive.
Qed.

(** X9: after [trim_grid] no row and no column of the array is blank, every
    row has the length of the new shape, and the array has no row exactly when
    it has no column. *)
Theorem trim_grid_no_blank_line (a : ndarray) :
  well_shaped a →
  well_shaped (trim_grid a) ∧
  Forall (λ r, any r = true) (data (trim_grid a)) ∧
  Forall (λ c, any c = true) (transpose (trim_grid a)) ∧
  (data (trim_grid a) = [] ↔ ncols (trim_grid a) = 0).
Proof.
  intros Hs. split; [by apply trim_shape|]. split; [by apply trim_rows_filled|].
  split; [by apply trim_columns_filled|by apply trim_empty].
Qed.

Lemma trim_grid_no_blank_line_witness :
  let a := Array 3 [[0; 0; 0]; [0; 1; 0]; [0; 1; 1]]%Z in
  well_shaped (trim_grid a) ∧
  Forall (λ r, any r = true) (data (trim_grid a)) ∧
  Forall (λ c, any c = true) (transpose (trim_grid a)) ∧
  (data (trim_grid a) = [] ↔ ncols (trim_grid a) = 0).
Proof.
  apply trim_grid_no_blank_line. repeat constructor.
Defined.

(** X10: [trim_grid] is idempotent. *)
Theorem trim_grid_idempotent (a : ndarray) :
  well_shaped a → trim_grid (trim_grid a) = trim_grid a.
Proof.
  intros Hs. apply trim_grid_filled;
    [by apply trim_shape|by apply trim_rows_filled|by apply trim_columns_filled].
Qed.

Lemma trim_grid_idempotent_witness :
  let a := Array 3 [[0; 0; 0]; [0; 1; 0]; [0; 1; 1]]%Z in
  trim_grid (trim_grid a) = trim_grid a.
Proof.
  apply trim_grid_idempotent. repeat constructor.
Defined.

(** The clues of an array of zeros and ones without blank row or column. *)
Lemma filled_clues (t : ndarray) :
  well_shaped t → Forall binary (data t) →
  Forall (λ r, any r = true) (data t) → Forall (λ c, any c = true) (transpose t) →
  Forall (Forall (λ b, 0 < b)%Z) (generate_clues t).1 ∧
  Forall (Forall (λ b, 0 < b)%Z) (generate_clues t).2 ∧
  solution (generate_clues t).1 (generate_clues t).2 (data t).
Proof.
  intros Hst Hbt Hr Hc. unfold generate_clues. cbn [fst snd].
  assert (Forall binary (transpose t)) as Hbc.
  { unfold transpose. apply Forall_fmap, Forall_forall. intros j _. simpl.
    by apply binary_column. }
  split.
  { apply Forall_fmap. rewrite Forall_forall in Hr, Hbt. apply Forall_forall.
    intros row Hrow. simpl. by apply extract_clues_any; [apply Hbt|apply Hr]. }
  split.
  { apply Forall_fmap. rewrite Forall_forall in Hc, Hbc. apply Forall_forall.
    intros col Hcol. simpl. by apply extract_clues_any; [apply Hbc|apply Hc]. }
  split; [by rewrite length_fmap|]. split.
  { rewrite length_fmap, length_transpose. apply Forall_forall. intros row Hrow.
    unfold well_shaped in Hst. rewrite Forall_forall in Hst, Hbt. split; [by apply Hst|].
    by apply Hbt. }
  split.
  - intros i row clue Hrow Hclue. rewrite list_lookup_fmap, Hrow in Hclue.
    injection Hclue as <-. symmetry. apply extract_clues_any.
    + rewrite Forall_lookup in Hbt. by eapply Hbt.
    + rewrite Forall_lookup in Hr. by eapply Hr.
  - intros j clue Hclue. rewrite list_lookup_fmap in Hclue.
    apply fmap_Some in Hclue as (col & Hcol & ->).
    assert (j < ncols t) as Hj.
    { rewrite <- length_transpose. by eapply lookup_lt_Some. }
    rewrite transpose_lookup in Hcol by done. injection Hcol as <-.
    symmetry. apply extract_clues_any.
    + by apply binary_column.
    + rewrite Forall_lookup in Hc. eapply (Hc j). by apply transpose_lookup.
Qed.

(** X11: the clues that [create_puzzle] computes, those of the trimmed
    array of zeros and ones, are all positive (no clue [[0]] is written), and
    the trimmed picture is a solution of the puzzle they make. *)
Theorem trimmed_clues_positive (a : ndarray) :
  well_shaped a → Forall binary (data a) →
  let t := trim_grid a in
  Forall (Forall (λ b, 0 < b)%Z) (generate_clues t).1 ∧
  Forall (Forall (λ b, 0 < b)%Z) (generate_clues t).2 ∧
  solution (generate_clues t).1 (generate_clues t).2 (data t).
Proof.
  intros Hs Hb t. apply filled_clues;
    [by apply trim_shape|by apply trim_binary|by apply trim_rows_filled
    |by apply trim_columns_filled].
Qed.

Lemma trimmed_clues_positive_witness :
  let t := trim_grid (Array 3 [[0; 0; 0]; [0; 1; 0]; [0; 1; 1]]%Z) in
  Forall (Forall (λ b, 0 < b)%Z) (generate_clues t).1 ∧
  Forall (Forall (λ b, 0 < b)%Z) (generate_clues t).2 ∧
  solution (generate_clues t).1 (generate_clues t).2 (data t).
Proof.
  apply trimmed_clues_positive.
  - repeat constructor.
  - unfold binary. simpl. Examples.binary_rows.
Defined.

(** X12: the two programs together: on the clues that [generate_clues]
    gives for an array of zeros and ones, trimmed or not, the solver is
    constructed without error, its first propagation returns true, and every
    cell it fixes has the value of the picture. *)
Theorem creator_puzzle_propagates (a : ndarray) :
  well_shaped a → Forall binary (data a) →
  ∃ s0 s1, __init__ (generate_clues a).1 (generate_clues a).2 = Some s0 ∧
           _update_domains s0 = Some (true, s1) ∧ agrees (grid s1) (data a).
Proof.
  intros Hs Hb. unfold generate_clues. simpl.
  set (rc := extract_clues <$> data a). set (cc := extract_clues <$> transpose a).
  assert (length cc = ncols a) as Hcc by (unfold cc; by rewrite length_fmap, length_transpose).
  assert (length rc = length (data a)) as Hrc by (unfold rc; by rewrite length_fmap).
  assert (∀ j, j < ncols a → length (column (data a) j) = length rc) as Hcol.
  { intros j Hj. rewrite Hrc. by eapply length_column. }
  assert (is_Some (__init__ rc cc)) as [s0 Hinit].
  { unfold __init__, Generator._generate_domains.
    assert (is_Some (mapM (λ blocks, remove_dups <$>
              Generator.generate_line_possibilities blocks (length cc)) rc)) as [rd ->].
    { apply mapM_is_Some. unfold rc. apply Forall_fmap.
      eapply Forall_impl; [exact Hs|]. intros row Hrow. simpl in *.
      rewrite Hcc, <- Hrow. apply fmap_is_Some, extract_clues_generates. }
    assert (is_Some (mapM (λ blocks, remove_dups <$>
              Generator.generate_line_possibilities blocks (length rc)) cc)) as [cd ->].
    { apply mapM_is_Some. unfold cc, transpose. rewrite <- list_fmap_compose.
      apply Forall_fmap, Forall_forall. intros j Hj. apply elem_of_seq in Hj. simpl.
      rewrite <- (Hcol j) by lia. apply fmap_is_Some, extract_clues_generates. }
    by eexists. }
  assert (contains s0 (data a)) as Hc.
  { apply (init_contains_lines rc cc); [done|done|by rewrite Hcc| |].
    - intros i row clue lines Hrow Hclue Hgen. unfold rc in Hclue.
      rewrite list_lookup_fmap, Hrow in Hclue. injection Hclue as <-.
      unfold well_shaped in Hs. rewrite Forall_lookup in Hs, Hb.
      rewrite Hcc, <- (Hs i row Hrow) in Hgen.
      eapply own_line_generated; [by eapply Hb|done].
    - intros j clue lines Hclue Hgen. unfold cc in Hclue.
      rewrite list_lookup_fmap in Hclue. apply fmap_Some in Hclue as (col & Hj & ->).
      assert (j < ncols a) as Hlt.
      { rewrite <- length_transpose. by eapply lookup_lt_Some. }
      rewrite transpose_lookup in Hj by done. injection Hj as <-.
      rewrite <- (Hcol j Hlt) in Hgen.
      eapply own_line_generated; [by apply binary_column|done]. }
  destruct (update_domains_total s0 (wf_init _ _ _ Hinit)) as (b & s1 & Hrun & _).
  destruct (update_loop_keeps (data a) _ _ _ _ Hc Hrun) as [-> Hc1].
  exists s0, s1. split; [done|]. split; [done|]. apply Hc1.
Qed.

Lemma creator_puzzle_propagates_witness :
  let a := Array 3 [[0; 0; 0]; [0; 1; 0]; [0; 1; 1]]%Z in
  ∃ s0 s1, __init__ (generate_clues a).1 (generate_clues a).2 = Some s0 ∧
           _update_domains s0 = Some (true, s1) ∧ agrees (grid s1) (data a).
Proof.
  apply creator_puzzle_propagates.
  - repeat constructor.
  - unfold binary. simpl. Examples.binary_rows.
Defined.

Import Text.
Import Creator.
Import Reader.

(** * The puzzle file: written by the creator, read by the solver *)

Section decimal.

Lemma chars_app (s1 s2 : string) :
  String.list_ascii_of_string (s1 +:+ s2)
  = String.list_ascii_of_string s1 ++ String.list_ascii_of_string s2.
Proof.
  induction s1 as [|c s1 IH]; [done|].
  change (String c s1 +:+ s2) with (String c (s1 +:+ s2)). simpl. by rewrite IH.
Qed.

Lemma dec_zero : dec 0 = [].
Proof. done. Qed.

Lemma pretty_go_chars (x : N) : ∀ s,
  String.list_ascii_of_string (pretty_N_go x s)
  = dec x ++ String.list_ascii_of_string s.
Proof.
  induction (N.lt_wf_0 x) as [x _ IH]. intros s.
  destruct (decide (x = 0)%N) as [->|Hx]; [by rewrite pretty_N_go_0|].
  unfold dec at 1. rewrite (pretty_N_go_step x s), (pretty_N_go_step x "") by lia.
  assert (x `div` 10 < x)%N as Hdiv by (apply N.div_lt; lia).
  rewrite !(IH _ Hdiv). simpl. by rewrite <- app_assoc.
Qed.

Lemma dec_step (x : N) :
  (0 < x)%N → dec x = dec (x `div` 10) ++ [pretty_N_char (x `mod` 10)].
Proof.
  intros Hx. unfold dec at 1. rewrite pretty_N_go_step by done.
  by rewrite pretty_go_chars.
Qed.

(** A decimal digit is no white space, sign or underscore. *)
Lemma digit_plain c v :
  digit c = Some v →
  isspace c = false ∧ c ≠ "010"%char ∧ c ≠ "_"%char ∧ c ≠ "-"%char ∧ c ≠ "+"%char.
Proof.
  destruct c as [[] [] [] [] [] [] [] []]; try done; by intros.
Qed.

Lemma digit_char (x : N) : (x < 10)%N → digit (pretty_N_char x) = Some (Z.of_N x).
Proof.
  intros Hx. rewrite <- (N2Nat.id x).
  assert (N.to_nat x < 10) as Hn by lia. revert Hn.
  generalize (N.to_nat x). intros n Hn.
  do 10 (destruct n as [|n]; [done|]). lia.
Qed.

Lemma int_digits_snoc d v : ∀ l acc n a k,
  Forall (λ c, is_Some (digit c)) l → digit d = Some v →
  int_digits acc n l = Some (a, k) →
  int_digits acc n (l ++ [d]) = Some ((a * 10 + v)%Z, S k).
Proof.
  induction l as [|c l IH]; intros acc n a k Hl Hd.
  - intros [= <- <-]. simpl. destruct (digit_plain d v Hd) as (_ & _ & Hu & _).
    rewrite decide_False by done. by rewrite Hd.
  - apply Forall_cons in Hl as [[vc Hc] Hl].
    destruct (digit_plain c vc Hc) as (_ & _ & Hu & _).
    cbn [int_digits app]. rewrite !decide_False by done. rewrite Hc. simpl.
    by apply IH.
Qed.

Lemma int_digits_dec (x : N) :
  Forall (λ c, is_Some (digit c)) (dec x) ∧
  int_digits 0 0 (dec x) = Some (Z.of_N x, length (dec x)).
Proof.
  induction (N.lt_wf_0 x) as [x _ IH].
  destruct (decide (x = 0)%N) as [->|Hx]; [done|].
  rewrite dec_step by lia.
  destruct (IH (x `div` 10)%N) as [Hall Hint]; [apply N.div_lt; lia|].
  pose proof (digit_char (x `mod` 10)%N) as Hd.
  specialize (Hd ltac:(apply N.mod_lt; lia)).
  split.
  - apply Forall_app. split; [done|]. apply Forall_singleton. by eexists.
  - rewrite (int_digits_snoc _ _ _ _ _ _ _ Hall Hd Hint). f_equal. f_equal.
    + pose proof (N.div_mod x 10 ltac:(lia)). lia.
    + rewrite length_app. simpl. lia.
Qed.

Lemma dec_positive (p : positive) :
  ∃ c l v, dec (Npos p) = c :: l ∧ digit c = Some v.
Proof.
  destruct (int_digits_dec (Npos p)) as [Hall _].
  destruct (dec (Npos p)) as [|c l] eqn:Hd.
  - rewrite dec_step in Hd by lia. by destruct (dec (N.pos p `div` 10)).
  - apply Forall_cons in Hall as [[v Hv] _]. by exists c, l, v.
Qed.

Lemma pretty_positive_chars (p : positive) :
  String.list_ascii_of_string (pretty (Zpos p)) = dec (Npos p).
Proof. done. Qed.

Lemma pretty_negative_chars (p : positive) :
  String.list_ascii_of_string (pretty (Zneg p)) = "-"%char :: dec (Npos p).
Proof. done. Qed.

Lemma int_unsigned_dec m (p : positive) :
  over_limit m (length (dec (Npos p))) = false →
  int_unsigned m (dec (Npos p)) = Some (Zpos p).
Proof.
  intros Hlim. destruct (dec_positive p) as (c & l & v & Hd & Hc).
  destruct (int_digits_dec (Npos p)) as [_ Hint].
  unfold int_unsigned. rewrite Hd in *. rewrite Hc. cbn [mbind option_bind].
  rewrite Hint. cbn [mbind option_bind snd fst]. by rewrite Hlim.
Qed.

(** [int] reads back what [str] wrote, and what [str] writes is a piece
    without white space or newline. *)
Lemma int_str m z t :
  str m z = Some t →
  int m t = Some z ∧ token t ∧ ("010"%char ∉ t).
Proof.
  unfold str. destruct (over_limit m _) eqn:Hlim; [done|]. intros [= <-].
  destruct z as [|p|p].
  - change (String.list_ascii_of_string (pretty 0%Z)) with ["0"%char].
    change (length (String.list_ascii_of_string (pretty (Z.abs 0)))) with 1 in Hlim.
    split; [|split; [split|]]; [|done| |].
    + unfold int, int_unsigned. simpl. by rewrite Hlim.
    + by apply Forall_singleton.
    + intros Hin. by apply list_elem_of_singleton in Hin.
  - rewrite pretty_positive_chars. change (Z.abs (Z.pos p)) with (Z.pos p) in Hlim.
    rewrite pretty_positive_chars in Hlim.
    pose proof (int_unsigned_dec m p Hlim) as Hint.
    destruct (dec_positive p) as (c & l & v & Hd & Hc).
    destruct (int_digits_dec (Npos p)) as [Hall _].
    assert (Forall (λ c, isspace c = false ∧ c ≠ "010"%char) (dec (N.pos p))) as Hplain.
    { eapply Forall_impl; [exact Hall|]. intros c' [v' Hv']. simpl.
      by destruct (digit_plain c' v' Hv') as (? & ? & _). }
    split; [|split; [split|]].
    + destruct (digit_plain c v Hc) as (_ & _ & _ & Hm & Hp).
      unfold int. rewrite Hd in *. by rewrite !decide_False by done.
    + by rewrite Hd.
    + eapply Forall_impl; [exact Hplain|]. by intros ? [? _].
    + intros Hin. rewrite Forall_forall in Hplain. by destruct (Hplain _ Hin).
  - rewrite pretty_negative_chars. change (Z.abs (Z.neg p)) with (Z.pos p) in Hlim.
    rewrite pretty_positive_chars in Hlim.
    pose proof (int_unsigned_dec m p Hlim) as Hint.
    destruct (int_digits_dec (Npos p)) as [Hall _].
    assert (Forall (λ c, isspace c = false ∧ c ≠ "010"%char) (dec (N.pos p))) as Hplain.
    { eapply Forall_impl; [exact Hall|]. intros c' [v' Hv']. simpl.
      by destruct (digit_plain c' v' Hv') as (? & ? & _). }
    split; [|split; [split|]].
    + unfold int. rewrite decide_True by done. by rewrite Hint.
    + done.
    + apply Forall_cons. split; [done|].
      eapply Forall_impl; [exact Hplain|]. by intros ? [? _].
    + intros [Hin|Hin]%elem_of_cons; [done|].
      rewrite Forall_forall in Hplain. by destruct (Hplain _ Hin).
Qed.

End decimal.

Section pieces.

(** A piece in front of nothing or of white space is the first word. *)
Lemma words_token (tok rest : text) :
  token tok → (match rest with c :: _ => isspace c = true | [] => True end) →
  words (tok ++ rest) = tok :: words rest.
Proof.
  intros [Hne Hsp] Hrest. induction tok as [|c tok IH]; [done|].
  apply Forall_cons in Hsp as [Hc Hsp]. cbn [app words]. rewrite Hc.
  destruct tok as [|c2 tok].
  - simpl. destruct rest as [|r rest]; [done|]. by rewrite Hrest.
  - pose proof Hsp as [Hc2 _]%Forall_cons. cbn [app]. rewrite Hc2.
    cbn [app] in IH. rewrite IH by done. done.
Qed.

Lemma words_join (toks : list text) :
  Forall token toks → words (join [" "%char] toks) = toks.
Proof.
  induction 1 as [|tok toks Htok _ IH]; [done|]. cbn [join].
  destruct toks as [|tok2 toks].
  - rewrite <- (app_nil_r tok) at 1. by rewrite words_token.
  - rewrite words_token by done. f_equal. cbn [app words].
    change (isspace " ") with true. cbv iota. exact IH.
Qed.

Lemma join_cons_cons (sep x y : text) l :
  join sep (x :: y :: l) = x ++ sep ++ join sep (y :: l).
Proof. done. Qed.

(** The line of a clue that is not empty. *)
Lemma join_tokens_solid (toks : list text) :
  Forall token toks → Forall (λ t, "010"%char ∉ t) toks → toks ≠ [] →
  solid (join [" "%char] toks).
Proof.
  intros Htok Hnl Hne. induction toks as [|tok toks IH]; [done|].
  apply Forall_cons in Htok as [[Hn Hsp] Htok]. apply Forall_cons in Hnl as [Hnl1 Hnl].
  assert (solid tok) as Hsolid.
  { split; [done|]. split.
    - destruct tok as [|c tok]; [done|]. exists c. split; [done|].
      by apply Forall_cons in Hsp as [? _].
    - destruct (last tok) as [c|] eqn:Hl; [|by apply last_None in Hl].
      exists c. split; [done|]. rewrite Forall_forall in Hsp. apply Hsp.
      apply last_Some in Hl as [l' ->]. apply elem_of_app. right. left. }
  destruct toks as [|tok2 toks]; [done|]. rewrite join_cons_cons.
  destruct IH as (Hnl' & _ & Hlast); [done..|].
  destruct Hsolid as (_ & Hhead & _). split; [|split].
  - rewrite !not_elem_of_app. split; [done|]. split; [|done].
    intros Hin. by apply list_elem_of_singleton in Hin.
  - destruct Hhead as (c & Hc & Hsc). exists c. split; [|done].
    destruct tok; [done|]. done.
  - destruct Hlast as (c & Hc & Hsc). exists c. split; [|done].
    apply last_Some in Hc as [l' Hl']. rewrite Hl'.
    rewrite !app_assoc. apply last_snoc.
Qed.

(** ** Lines *)

Lemma split_line (l rest : text) :
  "010"%char ∉ l →
  split "010"%char (l ++ "010"%char :: rest) = l :: split "010"%char rest.
Proof.
  induction l as [|c l IH]; intros Hnl.
  - done.
  - apply not_elem_of_cons in Hnl as [Hc Hnl]. cbn [app split].
    rewrite decide_False by done. by rewrite IH.
Qed.

Lemma split_last_line (l : text) :
  "010"%char ∉ l → split "010"%char l = [l].
Proof.
  induction l as [|c l IH]; intros Hnl; [done|].
  apply not_elem_of_cons in Hnl as [Hc Hnl]. cbn [split].
  rewrite decide_False by done. by rewrite IH.
Qed.

Lemma split_join (ls : list text) :
  Forall (λ l, "010"%char ∉ l) ls → ls ≠ [] →
  split "010"%char (join ["010"%char] ls) = ls.
Proof.
  induction 1 as [|l ls Hl Hls IH]; intros Hne; [done|].
  destruct ls as [|l2 ls]; [by apply split_last_line|].
  rewrite join_cons_cons. cbn [app]. rewrite split_line by done. by rewrite IH.
Qed.

Lemma concat_lines (ls : list text) :
  ls ≠ [] →
  concat ((λ l, l ++ ["010"%char]) <$> ls) = join ["010"%char] ls ++ ["010"%char].
Proof.
  induction ls as [|l ls IH]; intros Hne; [done|].
  destruct ls as [|l2 ls]; [simpl; by rewrite app_nil_r|].
  rewrite join_cons_cons, fmap_cons. cbn [concat]. rewrite IH by done.
  by rewrite <- !app_assoc.
Qed.

Lemma join_app (ls ls' : list text) :
  ls ≠ [] → ls' ≠ [] →
  join ["010"%char] (ls ++ ls')
  = join ["010"%char] ls ++ ["010"%char] ++ join ["010"%char] ls'.
Proof.
  intros Hne Hne'. induction ls as [|l ls IH]; [done|].
  destruct ls as [|l2 ls].
  - destruct ls' as [|l' ls']; [done|]. done.
  - cbn [app]. rewrite !join_cons_cons. cbn [app] in IH. rewrite IH by done.
    by rewrite <- !app_assoc.
Qed.

Lemma join_head (ls : list text) l c :
  head ls = Some l → head l = Some c → head (join ["010"%char] ls) = Some c.
Proof.
  destruct ls as [|l1 [|l2 ls]]; intros [= ->] Hc; [done|].
  rewrite join_cons_cons. by destruct l.
Qed.

Lemma join_last (ls : list text) l c :
  last ls = Some l → last l = Some c → last (join ["010"%char] ls) = Some c.
Proof.
  induction ls as [|l1 ls IH]; [done|]. destruct ls as [|l2 ls].
  - by intros [= ->].
  - intros Hl Hc. rewrite join_cons_cons. change (last (l1 :: l2 :: ls)) with (last (l2 :: ls)) in Hl.
    specialize (IH Hl Hc). apply last_Some in IH as [l' Hl'].
    rewrite Hl', !app_assoc. apply last_snoc.
Qed.

(** ** Stripping *)

Lemma lstrip_spaces (ws t : text) :
  Forall (λ c, isspace c = true) ws → lstrip (ws ++ t) = lstrip t.
Proof. induction 1 as [|c ws Hc _ IH]; [done|]. simpl. by rewrite Hc. Qed.

Lemma lstrip_solid (t : text) c :
  head t = Some c → isspace c = false → lstrip t = t.
Proof. destruct t; intros [= ->] Hc. simpl. by rewrite Hc. Qed.

Lemma strip_core (ws core ws' : text) :
  Forall (λ c, isspace c = true) ws → Forall (λ c, isspace c = true) ws' →
  (∃ c, head core = Some c ∧ isspace c = false) →
  (∃ c, last core = Some c ∧ isspace c = false) →
  strip (ws ++ core ++ ws') = core.
Proof.
  intros Hws Hws' (c & Hc & Hsc) (c' & Hc' & Hsc'). unfold strip.
  rewrite lstrip_spaces by done.
  rewrite (lstrip_solid (core ++ ws') c); [|by destruct core|done].
  rewrite reverse_app, lstrip_spaces by by apply Forall_reverse.
  rewrite (lstrip_solid (reverse core) c'); [by rewrite reverse_involutive| |done].
  apply last_Some in Hc' as [l' ->]. by rewrite reverse_snoc.
Qed.

Lemma strip_spaces (ws : text) : Forall (λ c, isspace c = true) ws → strip ws = [].
Proof.
  intros Hws. unfold strip. rewrite <- (app_nil_r ws), lstrip_spaces by done. done.
Qed.

(** ** Finding the separator *)

Lemma find_separator (ls ls' : list text) :
  Forall (λ l, l ≠ []) ls →
  list_find (λ l : text, l = []) (ls ++ [] :: ls') = Some (length ls, []).
Proof.
  induction 1 as [|l ls Hl _ IH]; [done|]. cbn [app list_find].
  rewrite decide_False by done. by rewrite IH.
Qed.

Lemma find_no_separator (ls : list text) :
  Forall (λ l, l ≠ []) ls → list_find (λ l : text, l = []) ls = None.
Proof.
  induction 1 as [|l ls Hl _ IH]; [done|]. cbn [list_find].
  rewrite decide_False by done. by rewrite IH.
Qed.

End pieces.

Section file.

Context (m : nat).

(** The line written for a clue that is not empty, without its newline. *)
Lemma clue_line_spec (row : list Z) (t : text) :
  row ≠ [] → clue_line m row = Some t →
  ∃ l, t = l ++ ["010"%char] ∧ solid l ∧ parse_line m l = Some row.
Proof.
  intros Hne H. unfold clue_line in H. apply bind_Some in H as (toks & Htoks & [= <-]).
  exists (join [" "%char] toks). split; [done|].
  apply mapM_Some_1 in Htoks.
  assert (Forall token toks ∧ Forall (λ t, "010"%char ∉ t) toks ∧
          Forall2 (λ t z, int m t = Some z) toks row) as (Htok & Hnl & Hint).
  { clear Hne. induction Htoks as [|z t row toks Hz _ IH]; [done|].
    destruct (int_str m z t Hz) as (? & ? & ?). destruct IH as (? & ? & ?).
    repeat split; by constructor. }
  split.
  - apply join_tokens_solid; [done..|]. intros ->. apply Forall2_nil_inv_l in Hint. done.
  - unfold parse_line. rewrite words_join by done. by apply mapM_Some_2.
Qed.

Lemma clue_lines_spec (clues : list (list Z)) (ts : list text) :
  Forall (λ row, row ≠ []) clues → mapM (clue_line m) clues = Some ts →
  ∃ ls, ts = (λ l, l ++ ["010"%char]) <$> ls ∧ Forall solid ls ∧
        mapM (parse_line m) ls = Some clues ∧ length ls = length clues.
Proof.
  intros Hne H. apply mapM_Some_1 in H.
  induction H as [|row t clues ts Hrow _ IH].
  - by exists [].
  - apply Forall_cons in Hne as [Hne1 Hne].
    destruct (clue_line_spec row t Hne1 Hrow) as (l & -> & Hl & Hp).
    destruct (IH Hne) as (ls & -> & Hls & Hps & Hlen).
    exists (l :: ls). split; [done|]. split; [by constructor|].
    split; [|simpl; by rewrite Hlen].
    apply mapM_Some_2. constructor; [done|]. by apply mapM_Some_1.
Qed.

Lemma solid_nonempty (l : text) : solid l → l ≠ [].
Proof. intros (_ & (c & Hc & _) & _) ->. done. Qed.

Lemma solid_lines (ls : list text) :
  Forall solid ls →
  Forall (λ l, "010"%char ∉ l) ls ∧ Forall (λ l, l ≠ []) ls.
Proof.
  intros H. split; (eapply Forall_impl; [exact H|]); intros l Hl.
  - by destruct Hl.
  - by apply solid_nonempty.
Qed.

Lemma join_solid (ls : list text) :
  Forall solid ls → ls ≠ [] →
  (∃ c, head (join ["010"%char] ls) = Some c ∧ isspace c = false) ∧
  (∃ c, last (join ["010"%char] ls) = Some c ∧ isspace c = false).
Proof.
  intros Hls Hne. split.
  - destruct ls as [|l ls]; [done|]. apply Forall_cons in Hls as [(_ & (c & Hc & Hs) & _) _].
    exists c. split; [|done]. by eapply join_head.
  - destruct (last ls) as [l|] eqn:Hl; [|by apply last_None in Hl].
    rewrite Forall_forall in Hls.
    destruct (Hls l) as (_ & _ & (c & Hc & Hs)).
    { apply last_Some in Hl as [l' ->]. apply elem_of_app. right. left. }
    exists c. split; [|done]. by eapply join_last.
Qed.

(** What [read_puzzle] makes of the file written by [save_clues_to_file],
    when no clue is an empty list. *)
Lemma read_saved (rc cc : list (list Z)) (t : text) :
  Forall (λ row, row ≠ []) rc → Forall (λ col, col ≠ []) cc →
  save_clues_to_file m rc cc = Some t →
  read_puzzle m t = if decide (rc = [] ↔ cc = []) then Some (rc, cc) else None.
Proof.
  intros Hrc Hcc H. unfold save_clues_to_file in H.
  apply bind_Some in H as (rows & Hrows & H).
  apply bind_Some in H as (cols & Hcols & [= <-]).
  destruct (clue_lines_spec rc rows Hrc Hrows) as (Ls & -> & HLs & HpL & HlenL).
  destruct (clue_lines_spec cc cols Hcc Hcols) as (Cs & -> & HCs & HpC & HlenC).
  destruct (solid_lines Ls HLs) as [HnlL HneL].
  destruct (solid_lines Cs HCs) as [HnlC HneC].
  assert (Forall (λ c, isspace c = true) ["010"%char]) as Hnl1 by by constructor.
  assert (Forall (λ c, isspace c = true) ["010"%char; "010"%char]) as Hnl2
    by by repeat constructor.
  unfold read_puzzle.
  destruct Ls as [|L Ls], Cs as [|C Cs].
  - destruct rc; [|discriminate HlenL]. destruct cc; [|discriminate HlenC].
    rewrite decide_True by tauto. reflexivity.
  - destruct rc; [|discriminate HlenL]. destruct cc; [discriminate HlenC|].
    rewrite decide_False by (intros [Hcc' _]; by specialize (Hcc' eq_refl)).
    destruct (join_solid (C :: Cs) HCs ltac:(done)) as [Hh Hl].
    match goal with |- context [strip ?t] =>
      replace t with (["010"%char] ++ join ["010"%char] (C :: Cs) ++ ["010"%char])
        by by rewrite (concat_lines (C :: Cs))
    end.
    rewrite strip_core by done.
    rewrite split_join by done. by rewrite find_no_separator.
  - destruct rc; [discriminate HlenL|]. destruct cc; [|discriminate HlenC].
    rewrite decide_False by (intros [_ Hrc']; by specialize (Hrc' eq_refl)).
    destruct (join_solid (L :: Ls) HLs ltac:(done)) as [Hh Hl].
    match goal with |- context [strip ?t] =>
      replace t with ([] ++ join ["010"%char] (L :: Ls) ++ ["010"%char; "010"%char])
        by (rewrite (concat_lines (L :: Ls)) by done; by rewrite <- app_assoc)
    end.
    rewrite strip_core by done.
    rewrite split_join by done. by rewrite find_no_separator.
  - destruct rc; [discriminate HlenL|]. destruct cc; [discriminate HlenC|].
    rewrite decide_True by (split; intros; discriminate).
    match goal with |- context [strip ?t] =>
      replace t with
        ([] ++ join ["010"%char] ((L :: Ls) ++ [] :: C :: Cs) ++ ["010"%char])
    end.
    2:{ rewrite (concat_lines (L :: Ls)), (concat_lines (C :: Cs)) by done.
        rewrite (join_app (L :: Ls) ([] :: C :: Cs)) by done.
        rewrite join_cons_cons. cbn [app]. by rewrite <- !app_assoc. }
    assert (Forall solid ((L :: Ls) ++ C :: Cs)) as Hall by by apply Forall_app.
    rewrite strip_core; [|done|done| |].
    + rewrite split_join; [|by apply Forall_app; split; [|constructor; [apply not_elem_of_nil|]]|done].
      rewrite find_separator by done. cbn [fmap option_fmap option_map fst mbind option_bind].
      rewrite take_app_length. rewrite HpL. cbn [mbind option_bind].
      assert (drop (S (length (L :: Ls))) ((L :: Ls) ++ [] :: C :: Cs) = C :: Cs) as ->.
      { replace ((L :: Ls) ++ [] :: C :: Cs) with (((L :: Ls) ++ [[]]) ++ C :: Cs)
          by by rewrite <- app_assoc.
        apply drop_app_length'. rewrite length_app. simpl. lia. }
      by rewrite HpC.
    + destruct (join_solid (L :: Ls) HLs ltac:(done)) as [(c & Hc & Hs) _].
      exists c. split; [|done]. rewrite join_app by done. by destruct (join _ (L :: Ls)).
    + destruct (join_solid (C :: Cs) HCs ltac:(done)) as [_ (c & Hc & Hs)].
      exists c. split; [|done].
      rewrite (join_app (L :: Ls) ([] :: C :: Cs)) by done.
      rewrite join_cons_cons. cbn [app].
      apply last_Some in Hc as [l' ->].
      replace (join ["010"%char] (L :: Ls) ++ "010"%char :: "010"%char :: l' ++ [c])
        with ((join ["010"%char] (L :: Ls) ++ "010"%char :: "010"%char :: l') ++ [c])
        by by rewrite <- app_assoc.
      apply last_snoc.
Qed.

End file.

Lemma extract_clues_nonempty (l : line) : extract_clues l ≠ [].
Proof. unfold extract_clues. by destruct (filled_runs l). Qed.

(** X13: a puzzle written by [save_clues_to_file] is read back unchanged by
    [read_puzzle], when no clue is an empty list and the puzzle has both
    rows and columns, or neither. *)
Theorem saved_file_read_back (m : nat) (rc cc : list (list Z)) (t : text) :
  Forall (λ row, row ≠ []) rc → Forall (λ col, col ≠ []) cc →
  (rc = [] ↔ cc = []) →
  save_clues_to_file m rc cc = Some t →
  read_puzzle m t = Some (rc, cc).
Proof.
  intros Hrc Hcc Hboth Hsave.
  rewrite (read_saved m rc cc t Hrc Hcc Hsave). by rewrite decide_True.
Qed.

Lemma saved_file_read_back_witness :
  ∃ t, save_clues_to_file 4300 [[1; 2]; [3]]%Z [[10]; [0]]%Z = Some t ∧
       read_puzzle 4300 t = Some ([[1; 2]; [3]]%Z, [[10]; [0]]%Z).
Proof.
  eexists. split; [vm_compute; reflexivity|].
  apply saved_file_read_back.
  - by repeat constructor.
  - by repeat constructor.
  - split; intros; discriminate.
  - vm_compute; reflexivity.
Defined.

(** X14: when [save_clues_to_file] has written a puzzle in which no clue is
    an empty list, and which has row clues but no column clue, or column
    clues but no row clue, [read_puzzle] rejects the file: after [strip()] no
    empty line is left to separate the two parts. *)
Theorem one_sided_file_rejected (m : nat) (rc cc : list (list Z)) (t : text) :
  Forall (λ row, row ≠ []) rc → Forall (λ col, col ≠ []) cc →
  ¬ (rc = [] ↔ cc = []) →
  save_clues_to_file m rc cc = Some t →
  read_puzzle m t = None.
Proof.
  intros Hrc Hcc Hone Hsave.
  rewrite (read_saved m rc cc t Hrc Hcc Hsave). by rewrite decide_False.
Qed.

Lemma one_sided_file_rejected_witness :
  ∃ t, save_clues_to_file 4300 [[1; 2]; [3]]%Z [] = Some t ∧
       read_puzzle 4300 t = None.
Proof.
  eexists. split; [vm_compute; reflexivity|].
  apply (one_sided_file_rejected 4300 [[1; 2]; [3]]%Z []).
  - by repeat constructor.
  - constructor.
  - intros [_ H]. by specialize (H eq_refl).
  - vm_compute; reflexivity.
Defined.

(** X15: the file that [create_puzzle] writes, the clues of the trimmed
    array, is read back by the solver as the same clues: [extract_clues]
    never returns an empty list, and a trimmed array has no row exactly when
    it has no column. *)
Theorem created_file_read_back (m : nat) (a : ndarray) (t : text) :
  well_shaped a →
  save_clues_to_file m (generate_clues (trim_grid a)).1
                       (generate_clues (trim_grid a)).2 = Some t →
  read_puzzle m t = Some (generate_clues (trim_grid a)).
Proof.
  intros Hs Hsave. pose proof (trim_empty a Hs) as Hempty.
  set (g := trim_grid a) in *. unfold generate_clues in *. cbn [fst snd] in Hsave.
  rewrite (read_saved m _ _ t) with (3 := Hsave).
  - rewrite decide_True; [done|]. split; intros H%fmap_nil_inv.
    + apply Hempty in H. rewrite <- length_transpose in H.
      apply nil_length_inv in H. by rewrite H.
    + assert (ncols g = 0) as Hn by by rewrite <- length_transpose, H.
      apply Hempty in Hn. by rewrite Hn.
  - apply Forall_fmap, Forall_forall. intros l _. apply extract_clues_nonempty.
  - apply Forall_fmap, Forall_forall. intros l _. apply extract_clues_nonempty.
Qed.

Lemma created_file_read_back_witness :
  let a := Array 3 [[0; 0; 0]; [0; 1; 0]; [0; 1; 1]]%Z in
  ∃ t, save_clues_to_file 4300 (generate_clues (trim_grid a)).1
                               (generate_clues (trim_grid a)).2 = Some t ∧
       read_puzzle 4300 t = Some (generate_clues (trim_grid a)).
Proof.
  intros a. eexists. split; [vm_compute; reflexivity|].
  apply created_file_read_back.
  - repeat constructor.
  - vm_compute; reflexivity.
Defined.

Import Output.

(** * Construction without [IndexError], and the printed grid *)

Section subscripts.

Lemma setitem_total (l : line) idx v :
  (0 ≤ idx < Z.of_nat (length l))%Z → is_Some (setitem l idx v).
Proof.
  intros Hidx. unfold setitem, py_index.
  rewrite bool_decide_eq_true_2 by done. by eexists.
Qed.

Lemma fill_total n : ∀ l idx,
  (0 ≤ idx)%Z → (idx + Z.of_nat n ≤ Z.of_nat (length l))%Z →
  is_Some (Generator.fill l idx n).
Proof.
  induction n as [|n IH]; intros l idx Hidx Hn; simpl; [done|].
  destruct (setitem_total l idx 1%Z) as [l' Hl']; [lia|].
  rewrite Hl'. simpl. apply IH; [lia|].
  apply length_setitem in Hl'. rewrite Hl'. lia.
Qed.

(** Blocks that lie within the line are painted without [IndexError]. *)
Lemma paint_total ps : ∀ l,
  Forall (λ p, 0 ≤ p.1 ∧ 0 ≤ p.2 ∧ p.1 + p.2 ≤ Z.of_nat (length l))%Z ps →
  is_Some (Generator.paint l ps).
Proof.
  induction ps as [|p ps IH]; intros l Hps; simpl; [done|].
  apply Forall_cons in Hps as [(H1 & H2 & H3) Hps].
  destruct (fill_total (Z.to_nat p.2) l p.1) as [l' Hl']; [lia|lia|].
  rewrite Hl'. simpl. apply IH. apply length_fill in Hl'. by rewrite Hl'.
Qed.

Lemma sum_nonneg_blocks bs : Forall (λ b, 0 ≤ b)%Z bs → (0 ≤ sum bs)%Z.
Proof. induction 1; simpl; lia. Qed.

Lemma generate_positions_within length current : ∀ pos_list pos,
  Forall (λ b, 0 ≤ b)%Z current → (0 ≤ pos)%Z →
  Forall (λ p, 0 ≤ p.1 ∧ 0 ≤ p.2 ∧ p.1 + p.2 ≤ Z.of_nat length)%Z pos_list →
  is_Some (Generator.generate_positions length pos_list pos current).
Proof.
  induction current as [|block rest IH]; intros pos_list pos Hpos Hp Hin.
  - simpl. destruct (paint_total pos_list (replicate length 0%Z)) as [l Hl].
    { by rewrite length_replicate. }
    by rewrite Hl.
  - apply Forall_cons in Hpos as [Hb Hrest].
    cbn [Generator.generate_positions].
    apply place_loop_total. intros st Hst.
    pose proof (sum_nonneg_blocks _ Hrest) as Hsum.
    apply IH; [done|lia|]. apply Forall_app. split; [done|].
    apply Forall_singleton. simpl. unfold len in Hst. simpl in Hst. lia.
Qed.

Lemma generate_nonnegative blocks length :
  Forall (λ b, 0 ≤ b)%Z blocks →
  is_Some (Generator.generate_line_possibilities blocks length).
Proof.
  intros Hpos. unfold Generator.generate_line_possibilities.
  destruct blocks; [done|]. case_bool_decide; [done|].
  by apply generate_positions_within.
Qed.

End subscripts.

(** X16: the constructor raises no [IndexError] on clues of non-negative
    integers, the clue [[0]] of the creator included: every subscript of the
    generator is within the line. *)
Theorem init_without_index_error (rc cc : list (list Z)) :
  Forall (Forall (λ b, 0 ≤ b)%Z) rc → Forall (Forall (λ b, 0 ≤ b)%Z) cc →
  ∃ s0, __init__ rc cc = Some s0 ∧ wf s0.
Proof.
  intros Hrc Hcc.
  assert (∀ clues n, Forall (Forall (λ b, 0 ≤ b)%Z) clues →
            is_Some (Generator._generate_domains clues n)) as Hgen.
  { intros clues n Hclues. unfold Generator._generate_domains.
    apply mapM_is_Some. eapply Forall_impl; [exact Hclues|].
    intros blocks Hb. simpl. by apply fmap_is_Some, generate_nonnegative. }
  destruct (Hgen rc (length cc) Hrc) as [rd Hrd].
  destruct (Hgen cc (length rc) Hcc) as [cd Hcd].
  assert (__init__ rc cc = Some (State (length rc) (length cc)
            (replicate (length rc) (replicate (length cc) None)) rd cd)) as Hinit.
  { unfold __init__. by rewrite Hrd, Hcd. }
  eexists. split; [exact Hinit|]. by eapply wf_init.
Qed.

Lemma init_without_index_error_witness :
  ∃ s0, __init__ [[0]; [1; 1]]%Z [[1]; [0]; [1]]%Z = Some s0 ∧ wf s0.
Proof.
  apply init_without_index_error; repeat constructor; lia.
Defined.

(** X17: the grid that a successful [solve] leaves is printed by
    [print_solution] as a picture, one line per row of the puzzle and one
    glyph per cell of the row, and not as the message for an incomplete
    grid. *)
Theorem solved_grid_printed (s s' : state) :
  wf s → solve s = Some (true, s') →
  print_solution s'
  = (λ row : line, String.concat "" ((λ v, glyph (Some v)) <$> row))
      <$> fixed_grid (grid s') ∧
  length (print_solution s') = height s.
Proof.
  intros Hwf Hsolve.
  pose proof (solve_fuel_true _ _ _ _ Hwf Hsolve) as Hsolved.
  pose proof (solved_all_fixed _ Hsolved) as Hfixed.
  pose proof (solve_search_le _ _ _ _ _ Hsolve) as (Hh & _).
  pose proof Hsolved as (Hwf' & _).
  assert (print_solution s'
          = (λ row, String.concat "" (glyph <$> row)) <$> grid s') as Hprint.
  { unfold print_solution. rewrite decide_False; [done|].
    intros Hex. apply Exists_exists in Hex as (row & Hrow & Hnone).
    rewrite Forall_forall in Hfixed. specialize (Hfixed row Hrow).
    rewrite Forall_forall in Hfixed. by destruct (Hfixed None Hnone). }
  split.
  - rewrite Hprint. rewrite (fixed_grid_inv (grid s') Hfixed) at 1.
    rewrite <- list_fmap_compose. apply list_fmap_ext. intros _ row _. simpl.
    by rewrite <- list_fmap_compose.
  - rewrite Hprint, length_fmap, (wf_grid_height _ Hwf'). done.
Qed.

Lemma solved_grid_printed_witness :
  print_solution Examples.one_cell_solved
  = (λ row : line, String.concat "" ((λ v, glyph (Some v)) <$> row))
      <$> fixed_grid (grid Examples.one_cell_solved) ∧
  length (print_solution Examples.one_cell_solved) = height Examples.one_cell.
Proof.
  apply solved_grid_printed; [exact wf_one_cell|vm_compute; reflexivity].
Defined.

Import Creator.

(** * Counting: the filled cells by rows and by columns, the lines of the
    generator *)

Section totals.

Lemma count_filled_cons v (l : line) :
  count_filled (v :: l) = ((if decide (v = 1%Z) then 1 else 0) + count_filled l)%Z.
Proof.
  unfold count_filled. destruct (decide (v = 1%Z)).
  - rewrite filter_cons_True by done. simpl. lia.
  - rewrite filter_cons_False by done. lia.
Qed.

Lemma sum_cons x (l : list Z) : sum (x :: l) = (x + sum l)%Z.
Proof. done. Qed.

(** The filled cells of the rows: those of the first column and those of
    the rest. *)
Lemma count_heads (g : list line) w :
  Forall (λ row : line, length row = S w) g →
  sum (count_filled <$> g)
  = (count_filled (column g 0) + sum (count_filled <$> (tail <$> g)))%Z.
Proof.
  induction 1 as [|[|x row] g Hrow _ IH]; [done|done|].
  rewrite !fmap_cons. change (column ((x :: row) :: g) 0) with (x :: column g 0).
  change (tail (x :: row)) with row.
  rewrite !sum_cons, !count_filled_cons. lia.
Qed.

Lemma count_transpose w : ∀ g,
  Forall (λ row : line, length row = w) g →
  sum (count_filled <$> transpose (Array w g)) = sum (count_filled <$> g).
Proof.
  induction w as [|w IH]; intros g Hg.
  - change (transpose (Array 0 g)) with (@nil line).
    induction Hg as [|row g Hrow _ IHg]; [done|].
    apply nil_length_inv in Hrow as ->. rewrite fmap_cons, sum_cons, <- IHg. done.
  - rewrite transpose_succ, (count_heads g w Hg), fmap_cons, sum_cons.
    f_equal. apply IH. apply Forall_fmap. eapply Forall_impl; [exact Hg|].
    intros [|x row]; simpl; [done|lia].
Qed.

End totals.

(** X18: the numbers of all row clues and the numbers of all column clues
    that [generate_clues] returns add up to the same total, the number of
    cells equal to 1. *)
Theorem clue_totals_agree (a : ndarray) :
  well_shaped a →
  sum (sum <$> (generate_clues a).1) = sum (sum <$> (generate_clues a).2) ∧
  sum (sum <$> (generate_clues a).1) = sum (count_filled <$> data a).
Proof.
  intros Hs. unfold generate_clues. cbn [fst snd].
  assert (∀ ls : list line, sum <$> (extract_clues <$> ls) = count_filled <$> ls) as Hc.
  { intros ls. rewrite <- list_fmap_compose. apply list_fmap_ext.
    intros _ l _. apply extract_clues_sum. }
  rewrite !Hc. split; [|done]. destruct a as [w g]. symmetry. by apply count_transpose.
Qed.

Lemma clue_totals_agree_witness :
  let a := Array 3 [[0; 0; 0]; [0; 1; 0]; [0; 1; 1]]%Z in
  sum (sum <$> (generate_clues a).1) = sum (sum <$> (generate_clues a).2) ∧
  sum (sum <$> (generate_clues a).1) = sum (count_filled <$> data a).
Proof.
  apply clue_totals_agree. repeat constructor.
Defined.

Section distinct_lines.

(** A placement can be read off the line it draws. *)
Lemma layout_inj length ps : ∀ qs e,
  placed length e ps → placed length e qs → ps.*2 = qs.*2 →
  layout length e ps = layout length e qs → ps = qs.
Proof.
  induction ps as [|[s b] ps IH]; intros [|[s' b'] qs] e Hp Hq Hb Hl; try done.
  injection Hb as -> Hb. simpl in Hp, Hq, Hl.
  destruct Hp as (Hs & Hb1 & Hle & Hp). destruct Hq as (Hs' & _ & Hle' & Hq).
  assert (s = s') as <-.
  { destruct (Z.lt_trichotomy s s') as [Hlt|[?|Hlt]]; [|done|]; exfalso.
    - assert (layout length e ((s, b') :: ps) !! Z.to_nat (s - e) = Some 1%Z) as H1.
      { simpl. rewrite lookup_app_r by (rewrite length_replicate; lia).
        rewrite length_replicate, Nat.sub_diag, lookup_app_l
          by (rewrite length_replicate; lia).
        apply lookup_replicate. split; [done|lia]. }
      simpl in H1. rewrite Hl in H1.
      rewrite lookup_app_l in H1 by (rewrite length_replicate; lia).
      apply lookup_replicate in H1 as [? _]. done.
    - assert (layout length e ((s', b') :: qs) !! Z.to_nat (s' - e) = Some 1%Z) as H1.
      { simpl. rewrite lookup_app_r by (rewrite length_replicate; lia).
        rewrite length_replicate, Nat.sub_diag, lookup_app_l
          by (rewrite length_replicate; lia).
        apply lookup_replicate. split; [done|lia]. }
      simpl in H1. rewrite <- Hl in H1.
      rewrite lookup_app_l in H1 by (rewrite length_replicate; lia).
      apply lookup_replicate in H1 as [? _]. done. }
  f_equal. apply app_inv_head in Hl. apply app_inv_head in Hl.
  apply (IH qs (s + b')%Z); [|
    |done|done]; (eapply placed_weaken; [|done]); lia.
Qed.

Lemma place_loop_elem ok rec n : ∀ start lines (x : line),
  Generator.place_loop ok rec n start = Some lines → x ∈ lines →
  ∃ st r, (start ≤ st < start + Z.of_nat n)%Z ∧ rec st = Some r ∧ x ∈ r.
Proof.
  induction n as [|n IH]; intros start lines x; simpl.
  - intros [= <-] Hx. by apply elem_of_nil in Hx.
  - assert (∀ ls, Generator.place_loop ok rec n (start + 1) = Some ls → x ∈ ls →
      ∃ st r, (start ≤ st < start + Z.of_nat (S n))%Z ∧ rec st = Some r ∧ x ∈ r)
      as Hrest.
    { intros ls Hls Hx. destruct (IH _ _ _ Hls Hx) as (st & r & Hst & Hr & Hin).
      exists st, r. split; [lia|done]. }
    destruct (ok start); [|apply Hrest].
    intros H Hx. apply bind_Some in H as (r & Hr & H).
    apply bind_Some in H as (rs & Hrs & [= <-]).
    apply elem_of_app in Hx as [Hx|Hx]; [|by eapply Hrest].
    exists start, r. split; [lia|done].
Qed.

(** The loop returns no line twice when the recursive calls return no line
    twice and different starts give different lines. *)
Lemma place_loop_NoDup ok rec n : ∀ start lines,
  (∀ st r, (start ≤ st < start + Z.of_nat n)%Z → rec st = Some r → NoDup r) →
  (∀ st st' r r' (x : line),
     (start ≤ st < start + Z.of_nat n)%Z → (start ≤ st' < start + Z.of_nat n)%Z →
     rec st = Some r → rec st' = Some r' → x ∈ r → x ∈ r' → st = st') →
  Generator.place_loop ok rec n start = Some lines → NoDup lines.
Proof.
  induction n as [|n IH]; intros start lines Hnd Hdisj; simpl.
  - intros [= <-]. constructor.
  - assert (∀ ls, Generator.place_loop ok rec n (start + 1) = Some ls → NoDup ls)
      as Hrest.
    { intros ls. apply IH.
      - intros st r Hst. apply Hnd. lia.
      - intros st st' r r' x Hst Hst'. apply Hdisj; lia. }
    destruct (ok start); [|apply Hrest].
    intros H. apply bind_Some in H as (r & Hr & H).
    apply bind_Some in H as (rs & Hrs & [= <-]).
    apply NoDup_app. split; [eapply Hnd; [|done]; lia|]. split; [|by apply Hrest].
    intros x Hx Hx'.
    destruct (place_loop_elem _ _ _ _ _ _ Hrs Hx') as (st & r' & Hst & Hr' & Hin).
    assert (start = st) by (eapply Hdisj; [| |exact Hr|exact Hr'|done|done]; lia).
    lia.
Qed.

Lemma generate_positions_NoDup length current : ∀ pos_list pos lines,
  Forall (λ b, 0 < b)%Z current →
  placed length 0 pos_list → pos = next_pos 0 pos_list →
  Generator.generate_positions length pos_list pos current = Some lines →
  NoDup lines.
Proof.
  induction current as [|block rest IH]; intros pos_list pos lines Hpos Hpl Hnext.
  - simpl. intros H. apply bind_Some in H as (l & _ & [= <-]).
    apply NoDup_singleton.
  - pose proof Hpos as [Hb Hrest]%Forall_cons.
    pose proof (sum_nonneg _ Hrest) as Hsum.
    cbn [Generator.generate_positions].
    assert (∀ st, (pos ≤ st < pos + Z.of_nat (Z.to_nat
               (Z.of_nat length - sum (block :: rest) - (len (block :: rest) - 1)
                - pos + 1)))%Z →
              placed length 0 (pos_list ++ [(st, block)])) as Hext.
    { intros st Hst. apply placed_app. split; [done|].
      rewrite <- Hnext. simpl. unfold len in Hst. simpl in Hst. lia. }
    assert (∀ st r (x : line),
      placed length 0 (pos_list ++ [(st, block)]) →
      Generator.generate_positions length (pos_list ++ [(st, block)])
        (st + block + 1) rest = Some r → x ∈ r →
      ∃ ps, ps.*2 = rest ∧ placed length 0 (pos_list ++ (st, block) :: ps) ∧
            x = layout length 0 (pos_list ++ (st, block) :: ps)) as Hshape.
    { intros st r x Hpl' Hr Hx.
      apply generate_positions_sound in Hr; [|done|done|by rewrite next_pos_snoc].
      rewrite Forall_forall in Hr. destruct (Hr x Hx) as (ps & Hps & Hp & ->).
      exists ps. by rewrite <- !app_assoc in *. }
    apply place_loop_NoDup.
    + intros st r Hst. apply IH; [done|by apply Hext|by rewrite next_pos_snoc].
    + intros st st' r r' x Hst Hst' Hr Hr' Hx Hx'.
      destruct (Hshape st r x (Hext st Hst) Hr Hx) as (ps & Hps & Hp & Hl).
      destruct (Hshape st' r' x (Hext st' Hst') Hr' Hx') as (ps' & Hps' & Hp' & Hl').
      assert (pos_list ++ (st, block) :: ps = pos_list ++ (st', block) :: ps') as Heq.
      { eapply layout_inj; [exact Hp|exact Hp'| |congruence].
        rewrite !fmap_app, !fmap_cons. simpl. congruence. }
      apply app_inv_head in Heq. congruence.
Qed.

End distinct_lines.

(** X19: for positive blocks the generator returns every line once, so the
    conversion to a set in [_generate_domains] drops nothing: the domain has
    as many elements as the generator returned lines. *)
Theorem generator_lines_distinct (blocks : list Z) (length : nat) (lines : list line) :
  Forall (λ b, 0 < b)%Z blocks →
  Generator.generate_line_possibilities blocks length = Some lines →
  NoDup lines ∧ remove_dups lines ≡ₚ lines.
Proof.
  intros Hpos Hgen.
  assert (NoDup lines) as Hnd.
  { unfold Generator.generate_line_possibilities in Hgen.
    destruct blocks as [|b bs].
    - injection Hgen as <-. apply NoDup_singleton.
    - case_bool_decide; [injection Hgen as <-; constructor|].
      by apply (generate_positions_NoDup length (b :: bs) [] 0%Z). }
  split; [done|]. apply NoDup_Permutation; [apply NoDup_remove_dups|done|].
  intros x. apply elem_of_remove_dups.
Qed.

Lemma generator_lines_distinct_witness :
  ∃ lines, Generator.generate_line_possibilities [2; 1]%Z 5 = Some lines ∧
           NoDup lines ∧ remove_dups lines ≡ₚ lines.
Proof.
  eexists. split; [vm_compute; reflexivity|].
  apply (generator_lines_distinct [2; 1]%Z 5).
  - repeat constructor.
  - vm_compute; reflexivity.
Defined.

Import Creator.
Import Display.

(** * The drawing of the puzzle *)

Section drawing.

Lemma max_len_spec (l : list (list Z)) mx :
  max_len l = Some mx →
  l ≠ [] ∧ ∀ clues, clues ∈ l → (Z.of_nat (length clues) ≤ mx)%Z.
Proof.
  intros Hmx. assert (l ≠ []) as Hne by by destruct l.
  assert (mx = Z.of_nat (max_list (length <$> l))) as ->.
  { destruct l; [done|]. by injection Hmx as <-. }
  split; [done|]. intros clues Hin.
  apply inj_le, max_list_elem_of_le, list_elem_of_fmap. by exists clues.
Qed.

(** What [mapM] collects satisfies what every successful call gives. *)
Lemma mapM_Forall {A B} (f : A → option B) (P : A → Prop) (Q : B → Prop) l k :
  (∀ x y, P x → f x = Some y → Q y) → Forall P l →
  mapM f l = Some k → Forall Q k.
Proof.
  intros Hf Hl Hk. apply mapM_Some_1 in Hk.
  induction Hk as [|x y l k Hxy _ IH]; [constructor|].
  apply Forall_cons in Hl as [Hx Hl]. constructor; [by eapply Hf|by apply IH].
Qed.

Lemma Forall_imap_pair {A} (P : nat * A → Prop) (l : list A) :
  (∀ i x, l !! i = Some x → P (i, x)) → Forall P (imap pair l).
Proof.
  intros H. apply Forall_forall. intros ix Hin.
  apply elem_of_lookup_imap_1 in Hin as (i & x & -> & Hi). by apply H.
Qed.

Context (m : nat) (left top width height : Z) (rows cols : nat).
Hypothesis left_nonneg : (0 ≤ left)%Z.
Hypothesis top_nonneg : (0 ≤ top)%Z.
Hypothesis width_eq : width = ((left + Z.of_nat cols) * cell_size)%Z.
Hypothesis height_eq : height = ((top + Z.of_nat rows) * cell_size)%Z.

Local Abbreviation ok := (in_place width height (left * cell_size) (top * cell_size)).

Lemma draw_cells_in_place a cmds :
  draw_cells a rows cols left top = Some cmds → Forall ok cmds.
Proof.
  unfold draw_cells. intros H. apply fmap_Some in H as (css & Hcss & ->).
  apply Forall_concat.
  eapply (mapM_Forall _ (λ ij, ij.1 < rows ∧ ij.2 < cols)); [|
    |exact Hcss].
  - intros [i j] cs [Hi Hj] Hcs. simpl in *.
    apply bind_Some in Hcs as (v & _ & [= <-]).
    destruct (decide (v = 1%Z)); [|constructor].
    apply Forall_singleton. unfold in_place, cell_size in *. lia.
  - apply Forall_forall. intros [i j] Hij. by apply elem_of_cells in Hij.
Qed.

Lemma lines_across_in_place :
  Forall ok ((λ i : nat,
     let y := (top * cell_size + Z.of_nat i * cell_size)%Z in
     Line (left * cell_size) y width y) <$> seq 0 (S rows)).
Proof.
  apply Forall_fmap, Forall_forall. intros i Hi. apply elem_of_seq in Hi.
  unfold in_place, cell_size in *. simpl. lia.
Qed.

Lemma lines_down_in_place :
  Forall ok ((λ j : nat,
     let x := (left * cell_size + Z.of_nat j * cell_size)%Z in
     Line x (top * cell_size) x height) <$> seq 0 (S cols)).
Proof.
  apply Forall_fmap, Forall_forall. intros j Hj. apply elem_of_seq in Hj.
  unfold in_place, cell_size in *. simpl. lia.
Qed.

(** The numbers of the row clues lie in the margin left of the grid. *)
Lemma row_numbers_in_place (l : list (list Z)) cmds :
  length l = rows → (∀ clues, clues ∈ l → (Z.of_nat (length clues) ≤ left)%Z) →
  draw_clues m true left top l = Some cmds → Forall ok cmds.
Proof.
  intros Hlen Hmax H. unfold draw_clues in H.
  apply fmap_Some in H as (css & Hcss & ->). apply Forall_concat.
  eapply (mapM_Forall _ (λ ic, ic.1 < rows ∧ ic.2 ∈ l)); [| |exact Hcss].
  - intros [i clues] cs [Hi Hin] Hcs. simpl in *. unfold draw_clue in Hcs.
    specialize (Hmax clues Hin).
    eapply (mapM_Forall _ (λ kc, kc.1 < length clues)); [| |exact Hcs].
    + intros [k clue] c Hk Hc. simpl in *.
      apply bind_Some in Hc as (t & _ & [= <-]).
      unfold in_place, half_cell, cell_size in *.
      change (20 `div` 2)%Z with 10%Z. lia.
    + apply Forall_imap_pair. intros k clue Hk. simpl.
      apply lookup_lt_Some in Hk. by rewrite length_reverse in Hk.
  - apply Forall_imap_pair. intros i clues Hi. simpl. split.
    + rewrite <- Hlen. by eapply lookup_lt_Some.
    + by eapply list_elem_of_lookup_2.
Qed.

(** The numbers of the column clues lie in the margin above the grid. *)
Lemma col_numbers_in_place (l : list (list Z)) cmds :
  length l = cols → (∀ clues, clues ∈ l → (Z.of_nat (length clues) ≤ top)%Z) →
  draw_clues m false top left l = Some cmds → Forall ok cmds.
Proof.
  intros Hlen Hmax H. unfold draw_clues in H.
  apply fmap_Some in H as (css & Hcss & ->). apply Forall_concat.
  eapply (mapM_Forall _ (λ ic, ic.1 < cols ∧ ic.2 ∈ l)); [| |exact Hcss].
  - intros [j clues] cs [Hj Hin] Hcs. simpl in *. unfold draw_clue in Hcs.
    specialize (Hmax clues Hin).
    eapply (mapM_Forall _ (λ kc, kc.1 < length clues)); [| |exact Hcs].
    + intros [k clue] c Hk Hc. simpl in *.
      apply bind_Some in Hc as (t & _ & [= <-]).
      unfold in_place, half_cell, cell_size in *.
      change (20 `div` 2)%Z with 10%Z. lia.
    + apply Forall_imap_pair. intros k clue Hk. simpl.
      apply lookup_lt_Some in Hk. by rewrite length_reverse in Hk.
  - apply Forall_imap_pair. intros j clues Hj. simpl. split.
    + rewrite <- Hlen. by eapply lookup_lt_Some.
    + by eapply list_elem_of_lookup_2.
Qed.

End drawing.

(** The parts of a drawing. *)
Lemma display_parts (m : nat) (a : ndarray) (rc cc : list (list Z))
    (width height : Z) (cmds : list command) :
  display_puzzle_with_clues m a rc cc = Some (width, height, cmds) →
  ∃ left top filled rn cn,
    max_len rc = Some left ∧ max_len cc = Some top ∧
    draw_cells a (length rc) (length cc) left top = Some filled ∧
    draw_clues m true left top rc = Some rn ∧
    draw_clues m false top left cc = Some cn ∧
    width = ((left + Z.of_nat (length cc)) * cell_size)%Z ∧
    height = ((top + Z.of_nat (length rc)) * cell_size)%Z ∧
    cmds = filled ++
      ((λ i : nat,
          let y := (top * cell_size + Z.of_nat i * cell_size)%Z in
          Line (left * cell_size) y width y) <$> seq 0 (S (length rc))) ++
      ((λ j : nat,
          let x := (left * cell_size + Z.of_nat j * cell_size)%Z in
          Line x (top * cell_size) x height) <$> seq 0 (S (length cc))) ++
      rn ++ cn.
Proof.
  unfold display_puzzle_with_clues. intros H.
  apply bind_Some in H as (left & Hleft & H).
  apply bind_Some in H as (top & Htop & H).
  apply bind_Some in H as (filled & Hfilled & H).
  apply bind_Some in H as (rn & Hrn & H).
  apply bind_Some in H as (cn & Hcn & H).
  exists left, top, filled, rn, cn. by simplify_eq.
Qed.

(** X20: when [display_puzzle_with_clues] draws, the image is as wide as the
    longest row clue and the columns together, 20 pixels each, and as high
    as the longest column clue and the rows; every filled cell and every grid
    line lies in the grid part of the image, and every clue number lies
    strictly inside the image, left of the grid or above it. *)
Theorem display_in_place (m : nat) (a : ndarray) (rc cc : list (list Z))
    (width height : Z) (cmds : list command) :
  display_puzzle_with_clues m a rc cc = Some (width, height, cmds) →
  ∃ left top,
    max_len rc = Some left ∧ max_len cc = Some top ∧
    width = ((left + Z.of_nat (length cc)) * cell_size)%Z ∧
    height = ((top + Z.of_nat (length rc)) * cell_size)%Z ∧
    Forall (in_place width height (left * cell_size) (top * cell_size)) cmds.
Proof.
  intros H. apply display_parts in H
    as (left & top & filled & rn & cn & Hleft & Htop & Hfilled & Hrn & Hcn &
        Hw & Hh & ->).
  destruct (max_len_spec _ _ Hleft) as [_ Hl].
  destruct (max_len_spec _ _ Htop) as [_ Ht].
  assert (0 ≤ left)%Z as Hl0.
  { unfold max_len in Hleft. destruct rc; [done|]. injection Hleft as <-. lia. }
  assert (0 ≤ top)%Z as Ht0.
  { unfold max_len in Htop. destruct cc; [done|]. injection Htop as <-. lia. }
  exists left, top. repeat (split; [done|]).
  apply Forall_app. split; [by eapply draw_cells_in_place|].
  apply Forall_app. split; [by eapply lines_across_in_place|].
  apply Forall_app. split; [by eapply lines_down_in_place|].
  apply Forall_app. split.
  - by eapply row_numbers_in_place.
  - by eapply col_numbers_in_place.
Qed.

Lemma display_in_place_witness :
  let a := Array 2 [[1; 0]; [1; 1]]%Z in
  ∃ left top,
    max_len (generate_clues a).1 = Some left ∧
    max_len (generate_clues a).2 = Some top ∧
    60%Z = ((left + Z.of_nat (length (generate_clues a).2)) * cell_size)%Z ∧
    60%Z = ((top + Z.of_nat (length (generate_clues a).1)) * cell_size)%Z ∧
    Forall (in_place 60 60 (left * cell_size) (top * cell_size))
      [Rectangle 20 20 40 40; Rectangle 20 40 40 60; Rectangle 40 40 60 60;
       Line 20 20 60 20; Line 20 40 60 40; Line 20 60 60 60;
       Line 20 20 20 60; Line 40 20 40 60; Line 60 20 60 60;
       Write 10 30 ["1"%char]; Write 10 50 ["2"%char];
       Write 30 10 ["2"%char]; Write 50 10 ["1"%char]].
Proof.
  intros a. apply (display_in_place 4300 a). vm_compute. reflexivity.
Defined.

Section drawing_returns.

Context (m : nat).

Lemma draw_clue_total of_row mx across (clues : list Z) :
  Forall (λ z, is_Some (Text.str m z)) clues →
  is_Some (draw_clue m of_row mx across clues).
Proof.
  intros Hstr. unfold draw_clue. apply mapM_is_Some_2, Forall_imap_pair.
  intros k z Hk. simpl. rewrite Forall_forall in Hstr.
  destruct (Hstr z) as [t Ht].
  { apply elem_of_reverse. by eapply list_elem_of_lookup_2. }
  by rewrite Ht.
Qed.

Lemma draw_clues_total of_row mx mo (l : list (list Z)) :
  Forall (Forall (λ z, is_Some (Text.str m z))) l →
  is_Some (draw_clues m of_row mx mo l).
Proof.
  intros Hstr. unfold draw_clues. apply fmap_is_Some, mapM_is_Some_2, Forall_imap_pair.
  intros i clues Hi. simpl. apply draw_clue_total.
  rewrite Forall_lookup in Hstr. by eapply Hstr.
Qed.

(** The numbers that [save_clues_to_file] has written can be written
    again. *)
Lemma saved_numbers rc cc t :
  save_clues_to_file m rc cc = Some t →
  Forall (Forall (λ z, is_Some (Text.str m z))) rc ∧
  Forall (Forall (λ z, is_Some (Text.str m z))) cc.
Proof.
  assert (∀ clues ts, mapM (clue_line m) clues = Some ts →
            Forall (Forall (λ z, is_Some (Text.str m z))) clues) as Hlines.
  { intros clues ts Hts. assert (is_Some (mapM (clue_line m) clues)) as Hs by by eexists.
    apply mapM_is_Some_1 in Hs. eapply Forall_impl; [exact Hs|].
    intros row [l Hl]. simpl in Hl. unfold clue_line in Hl.
    apply bind_Some in Hl as (pieces & Hp & _).
    assert (is_Some (mapM (Text.str m) row)) as Hr by by eexists.
    by apply mapM_is_Some_1 in Hr. }
  unfold save_clues_to_file. intros H.
  apply bind_Some in H as (rows & Hrows & H).
  apply bind_Some in H as (cols & Hcols & _).
  split; by eapply Hlines.
Qed.

Lemma draw_cells_total (a : ndarray) left top :
  well_shaped a →
  is_Some (draw_cells a (length (data a)) (ncols a) left top).
Proof.
  intros Hs. unfold draw_cells. apply fmap_is_Some, mapM_is_Some_2, Forall_forall.
  intros [i j] Hij. apply elem_of_cells in Hij as [Hi Hj]. simpl.
  destruct (lookup_lt_is_Some_2 (data a) i Hi) as [row Hrow].
  unfold well_shaped in Hs. rewrite Forall_lookup in Hs.
  destruct (lookup_lt_is_Some_2 row j) as [v Hv]; [by rewrite (Hs i row Hrow)|].
  rewrite Hrow. simpl. by rewrite Hv.
Qed.

End drawing_returns.

(** X21: [create_puzzle] after [trim_grid]: once the clue file is written,
    the drawing is made exactly when the trimmed array has a row.  For a
    picture without filled cell the file holds a single newline, and
    [display_puzzle_with_clues] raises ([max] of an empty sequence) before an
    image is saved. *)
Theorem created_puzzle_drawn (m : nat) (a : ndarray) (txt : Text.text) :
  well_shaped a →
  save_clues_to_file m (generate_clues (trim_grid a)).1
                       (generate_clues (trim_grid a)).2 = Some txt →
  (data (trim_grid a) ≠ [] →
   is_Some (display_puzzle_with_clues m (trim_grid a)
              (generate_clues (trim_grid a)).1 (generate_clues (trim_grid a)).2)) ∧
  (data (trim_grid a) = [] →
   txt = ["010"%char] ∧
   display_puzzle_with_clues m (trim_grid a)
     (generate_clues (trim_grid a)).1 (generate_clues (trim_grid a)).2 = None).
Proof.
  intros Hs Hsave. pose proof (trim_empty a Hs) as Hempty.
  pose proof (trim_shape a Hs) as Hst.
  destruct (saved_numbers m _ _ _ Hsave) as [Hrn Hcn].
  set (t := trim_grid a) in *. unfold generate_clues in *. cbn [fst snd] in *.
  split.
  - intros Hne. unfold display_puzzle_with_clues.
    assert (transpose t ≠ []) as Hne'.
    { intros Hnil. apply Hne, Hempty. by rewrite <- length_transpose, Hnil. }
    assert (∀ l : list line, l ≠ [] →
              ∃ mx, max_len (extract_clues <$> l) = Some mx) as Hmax.
    { intros [|x l] Hl; [done|]. by eexists. }
    destruct (Hmax _ Hne) as [left ->]. destruct (Hmax _ Hne') as [top ->].
    cbn [mbind option_bind]. rewrite !length_fmap, length_transpose.
    destruct (draw_cells_total t left top Hst) as [filled ->].
    destruct (draw_clues_total m true left top _ Hrn) as [rn ->].
    destruct (draw_clues_total m false top left _ Hcn) as [cn ->].
    by eexists.
  - intros Hnil. split.
    + assert (transpose t = []) as Hnil'.
      { apply nil_length_inv. rewrite length_transpose. by apply Hempty. }
      rewrite Hnil, Hnil' in Hsave. by injection Hsave as <-.
    + by rewrite Hnil.
Qed.

Lemma created_puzzle_drawn_witness :
  let a := Array 3 [[0; 0; 0]; [0; 1; 0]; [0; 1; 1]]%Z in
  ∃ txt,
    save_clues_to_file 4300 (generate_clues (trim_grid a)).1
                            (generate_clues (trim_grid a)).2 = Some txt ∧
    (data (trim_grid a) ≠ [] →
     is_Some (display_puzzle_with_clues 4300 (trim_grid a)
                (generate_clues (trim_grid a)).1 (generate_clues (trim_grid a)).2)) ∧
    (data (trim_grid a) = [] →
     txt = ["010"%char] ∧
     display_puzzle_with_clues 4300 (trim_grid a)
       (generate_clues (trim_grid a)).1 (generate_clues (trim_grid a)).2 = None).
Proof.
  intros a. eexists. split; [vm_compute; reflexivity|].
  apply created_puzzle_drawn.
  - repeat constructor.
  - vm_compute; reflexivity.
Defined.

Import Creator.

(** * From the solved grid back to the clues *)

Section regenerate.

(** The lines of the domain of a written clue have that clue. *)
Lemma domain_of_written length clue d (p : line) :
  domain_of length clue d → written_clue clue → p ∈ d → extract_clues p = clue.
Proof.
  intros Hdom [->|[Hne Hpos]] Hp.
  - destruct Hdom as (lines & Hgen & ->). rewrite generate_zero_block in Hgen.
    apply (inj Some) in Hgen. subst lines.
    rewrite elem_of_remove_dups in Hp. apply elem_of_replicate in Hp as [-> _].
    apply extract_clues_blank, Forall_replicate. done.
  - destruct (domain_of_member _ _ _ _ Hdom Hpos Hp) as (_ & _ & Hruns).
    unfold extract_clues. rewrite Hruns. by destruct clue.
Qed.

Lemma domains_written length clues ds i (p : line) :
  Forall2 (domain_of length) clues ds → Forall written_clue clues →
  p ∈ dom_at ds i → ∃ clue, clues !! i = Some clue ∧ extract_clues p = clue.
Proof.
  intros Hdom Hw. unfold dom_at. destruct (ds !! i) as [d|] eqn:Hd; simpl.
  - intros Hp. destruct (Forall2_lookup_r _ _ _ _ _ Hdom Hd) as (clue & Hclue & Hof).
    exists clue. split; [done|]. eapply domain_of_written; [done| |done].
    rewrite Forall_lookup in Hw. by eapply Hw.
  - intros Hp. by apply elem_of_nil in Hp.
Qed.

Lemma solved_regenerates rc cc s0 s' :
  Forall written_clue rc → Forall written_clue cc →
  __init__ rc cc = Some s0 → search_le s0 s' → solved s' →
  generate_clues (Array (length cc) (fixed_grid (grid s'))) = (rc, cc).
Proof.
  intros Hrc Hcc Hinit (Hh & Hw & _ & Hrd & Hcd) Hsolved.
  pose proof (init_spec _ _ _ Hinit) as (Hh0 & Hw0 & _ & Hr0 & Hc0).
  pose proof Hsolved as (Hwf & _ & _).
  assert (length (fixed_grid (grid s')) = length rc) as Hlen.
  { unfold fixed_grid. rewrite length_fmap, (wf_grid_height _ Hwf). congruence. }
  unfold generate_clues. cbn [data]. f_equal.
  - apply list_eq_same_length with (length rc); [done|by rewrite length_fmap|].
    intros i clue clue' Hi Hclue Hclue'. rewrite list_lookup_fmap in Hclue.
    apply fmap_Some in Hclue as (row & Hrow & ->).
    unfold fixed_grid in Hrow. rewrite list_lookup_fmap in Hrow.
    apply fmap_Some in Hrow as (row' & Hrow' & ->).
    destruct (solved_row s' i row' Hsolved Hrow') as (p & Hp & ->).
    rewrite fmap_Some_default.
    eapply doms_le_member in Hp; [|exact Hrd].
    eapply domains_written in Hp as (c & Hc & Hp); [|exact Hr0|exact Hrc].
    congruence.
  - apply list_eq_same_length with (length cc);
      [done|by rewrite length_fmap, length_transpose|].
    intros j clue clue' Hj Hclue Hclue'. rewrite list_lookup_fmap in Hclue.
    rewrite transpose_lookup in Hclue by done. cbn [data] in Hclue.
    injection Hclue as <-.
    assert (j < width s') as Hjw by (rewrite <- Hw, Hw0; done).
    destruct (solved_col s' j Hsolved Hjw) as (q & Hq & Hcol).
    rewrite column_fixed_grid, Hcol, fmap_Some_default.
    eapply doms_le_member in Hq; [|exact Hcd].
    eapply domains_written in Hq as (c & Hc & Hq); [|exact Hc0|exact Hcc].
    congruence.
Qed.

End regenerate.

(** X22: solver and creator agree.  When [solve] returns true on a puzzle
    whose clues are of the kind [extract_clues] writes ([[0]] or positive
    numbers), the clues that [generate_clues] computes for the solved grid are
    the clues of the puzzle. *)
Theorem solved_puzzle_regenerates (rc cc : list (list Z)) (s0 s' : state) :
  Forall written_clue rc → Forall written_clue cc →
  __init__ rc cc = Some s0 → solve s0 = Some (true, s') →
  generate_clues (Array (length cc) (fixed_grid (grid s'))) = (rc, cc).
Proof.
  intros Hrc Hcc Hinit Hsolve.
  pose proof (wf_init _ _ _ Hinit) as Hwf.
  eapply solved_regenerates; [done..| |].
  - by eapply solve_search_le.
  - by eapply solve_fuel_true.
Qed.

Lemma solved_puzzle_regenerates_witness :
  ∃ s', solve Examples.one_cell = Some (true, s') ∧
        generate_clues (Array (length [[1%Z]]) (fixed_grid (grid s')))
        = ([[1%Z]], [[1%Z]]).
Proof.
  eexists. split; [vm_compute; reflexivity|].
  apply (solved_puzzle_regenerates [[1%Z]] [[1%Z]] Examples.one_cell).
  - apply Forall_singleton. right. split; [done|]. apply Forall_singleton. lia.
  - apply Forall_singleton. right. split; [done|]. apply Forall_singleton. lia.
  - vm_compute; reflexivity.
  - vm_compute; reflexivity.
Defined.
